(** * Color scale generator: a shallow embedding and its verified properties

    The JavaScript sources embedded here are [js/color-utils.js],
    [js/accessibility.js], [js/scale-generator.js],
    [js/dark-mode-generator.js], the cache of [js/color-names-api.js] and
    the computations of [js/ui-controller.js] that do not touch the page.

    Number model.  A JavaScript number is read as the real number it denotes:
    HSL components are exact rationals ([Q]), RGB channels are integers ([Z],
    every producer of a channel is [Math.round] or [parseInt]), and the only
    irrational operation, [Math.pow (_, 2.4)] of the luminance formula, is
    [Rpower] over the reals ([R]).  The rounding error of IEEE doubles, NaN
    and the infinities are outside the model; [Infinity] as the initial
    [minDistance] is [None]. *)

From Stdlib Require Import ZArith QArith Qabs Qminmax Qround Qreals.
From Stdlib Require Import Psatz List Bool Ascii String Reals Morphisms Setoid.
Import ListNotations.

(** ** Numbers *)

Module JSNum.

Local Open Scope Q_scope.

(** [x < y] on numbers, as a boolean. *)
Definition Qlt_bool (x y : Q) : bool := negb (Qle_bool y x).

(** [Math.round]: the nearest integer, a tie going up. *)
Definition Math_round (x : Q) : Z := Qfloor (x + 0.5).

(** [Math.max(a, b, c)] and [Math.min(a, b, c)]. *)
Definition Math_max3 (a b c : Q) : Q := Qmax (Qmax a b) c.
Definition Math_min3 (a b c : Q) : Q := Qmin (Qmin a b) c.

(** Truncation toward zero, and the remainder [x % m] of JavaScript, which
    takes the sign of the dividend. *)
Definition Qtrunc (x : Q) : Z := if Qle_bool 0 x then Qfloor x else Qceiling x.
Definition js_rem (x m : Q) : Q := x - m * inject_Z (Qtrunc (x / m)).

(** The values of [for (x = lo; x <= hi; x += step)], at most [fuel] of
    them. *)
Fixpoint for_values (fuel : nat) (x hi step : Q) : list Q :=
  match fuel with
  | O => []
  | S fuel' =>
      if Qle_bool x hi then x :: for_values fuel' (x + step) hi step else []
  end.

(** The number of iterations of that loop for a positive [step]. *)
Definition for_count (lo hi step : Q) : nat :=
  if Qle_bool lo hi then S (Z.to_nat (Qfloor ((hi - lo) / step))) else O.

Definition for_range (lo hi step : Q) : list Q :=
  for_values (for_count lo hi step) lo hi step.

(** The same loop over integers with step 1 or more. *)
Definition int_range (lo hi step : Z) : list Z :=
  map (fun k => (lo + Z.of_nat k * step)%Z)
      (seq 0 (Z.to_nat ((hi - lo) / step + 1))).

End JSNum.
Import JSNum.

(** ** Strings

    A string is a sequence of code units; the model covers the code units
    below 256, which include every character a hex color is written with. *)

Module JSString.

Local Open Scope string_scope.
Local Open Scope Z_scope.

Definition code (c : ascii) : Z := Z.of_N (N_of_ascii c).

(** The value of a hexadecimal digit, [A-Fa-f0-9]. *)
Definition hexDigitValue (c : ascii) : option Z :=
  let n := code c in
  if (48 <=? n) && (n <=? 57) then Some (n - 48)
  else if (97 <=? n) && (n <=? 102) then Some (n - 87)
  else if (65 <=? n) && (n <=? 70) then Some (n - 55)
  else None.

Definition isHexDigit (c : ascii) : bool :=
  match hexDigitValue c with Some _ => true | None => false end.

Fixpoint allHexDigits (s : string) : bool :=
  match s with
  | EmptyString => true
  | String c s' => isHexDigit c && allHexDigits s'
  end.

(** White space below code unit 256: TAB, LF, VT, FF, CR, SP and NBSP. *)
Definition isWhiteSpace (c : ascii) : bool :=
  let n := code c in
  ((9 <=? n) && (n <=? 13)) || (n =? 32) || (n =? 160).

Fixpoint trimStart (s : string) : string :=
  match s with
  | String c s' => if isWhiteSpace c then trimStart s' else s
  | EmptyString => EmptyString
  end.

Fixpoint trimEnd (s : string) : string :=
  match s with
  | EmptyString => EmptyString
  | String c s' =>
      match trimEnd s' with
      | EmptyString => if isWhiteSpace c then EmptyString else String c EmptyString
      | t => String c t
      end
  end.

(** [s.trim()]. *)
Definition trim (s : string) : string := trimEnd (trimStart s).

(** [s.startsWith('#')]. *)
Definition startsWithHash (s : string) : bool :=
  match s with
  | String c _ => Ascii.eqb c "#"
  | EmptyString => false
  end.

(** [s.replace(/^#/, '')]. *)
Definition stripHash (s : string) : string :=
  match s with
  | String c s' => if Ascii.eqb c "#" then s' else s
  | EmptyString => s
  end.

(** The longest prefix of hexadecimal digits, read as a number; [None] when
    there is no digit. *)
Fixpoint hexPrefix (s : string) (acc : option Z) : option Z :=
  match s with
  | String c s' =>
      match hexDigitValue c with
      | Some d =>
          hexPrefix s' (Some (16 * match acc with Some a => a | None => 0 end + d))
      | None => acc
      end
  | EmptyString => acc
  end.

(** [parseInt(s, 16)]: leading white space is skipped, one sign and one
    [0x] or [0X] are accepted, then the longest prefix of digits is read;
    [None] is NaN. *)
Definition parseInt16 (s : string) : option Z :=
  let s := trimStart s in
  let '(sign, s) :=
    match s with
    | String c s' =>
        if Ascii.eqb c "-" then (-1, s')
        else if Ascii.eqb c "+" then (1, s')
        else (1, s)
    | EmptyString => (1, s)
    end in
  let s :=
    match s with
    | String c0 (String c1 s') =>
        if Ascii.eqb c0 "0" && (Ascii.eqb c1 "x" || Ascii.eqb c1 "X") then s' else s
    | _ => s
    end in
  option_map (Z.mul sign) (hexPrefix s None).

Definition hexDigitChar (d : Z) : ascii :=
  ascii_of_N (Z.to_N (if d <? 10 then 48 + d else 87 + d)).

Fixpoint hexDigits (fuel : nat) (n : Z) (acc : string) : string :=
  match fuel with
  | O => acc
  | S fuel' =>
      let acc' := String (hexDigitChar (n mod 16)) acc in
      if n / 16 =? 0 then acc' else hexDigits fuel' (n / 16) acc'
  end.

(** [c.toString(16)] of an integer: lower-case digits, a minus sign for a
    negative number.  A number below [2^k] has at most [k] digits. *)
Definition toString16 (c : Z) : string :=
  if c <? 0 then String "-" (hexDigits (S (Z.to_nat (Z.log2 (- c)))) (- c) "")
  else hexDigits (S (Z.to_nat (Z.log2 c))) c "".

(** [s.toLowerCase()] on the letters A to Z. *)
Definition lowerChar (c : ascii) : ascii :=
  let n := code c in
  if (65 <=? n) && (n <=? 90) then ascii_of_N (Z.to_N (n + 32)) else c.

Fixpoint toLowerCase (s : string) : string :=
  match s with
  | EmptyString => EmptyString
  | String c s' => String (lowerChar c) (toLowerCase s')
  end.

End JSString.
Import JSString.

(** ** js/color-utils.js *)

Definition HSL := (Q * Q * Q)%type.
Definition RGB := (Z * Z * Z)%type.

Module ColorUtils.

Local Open Scope Q_scope.

(** [hexToRgb]: each channel is what [parseInt] returns, [None] being NaN. *)
Definition hexToRgb (hex : string) : option Z * option Z * option Z :=
  let hex := stripHash hex in
  let hex :=
    match hex with
    | String c0 (String c1 (String c2 EmptyString)) =>
        String c0 (String c0 (String c1 (String c1 (String c2 (String c2 EmptyString)))))
    | _ => hex
    end in
  (parseInt16 (substring 0 2 hex),
   parseInt16 (substring 2 2 hex),
   parseInt16 (substring 4 2 hex)).

(** [rgbToHSL]. *)
Definition rgbToHSL (rgb : RGB) : HSL :=
  let '(r, g, b) := rgb in
  let r := inject_Z r / 255 in
  let g := inject_Z g / 255 in
  let b := inject_Z b / 255 in
  let max := Math_max3 r g b in
  let min := Math_min3 r g b in
  let l := (max + min) / 2 in
  let '(h, s) :=
    if Qeq_bool max min then (0, 0)
    else
      let d := max - min in
      let s := if Qlt_bool 0.5 l then d / (2 - max - min) else d / (max + min) in
      let h :=
        if Qeq_bool max r then (g - b) / d + (if Qlt_bool g b then 6 else 0)
        else if Qeq_bool max g then (b - r) / d + 2
        else (r - g) / d + 4 in
      (h / 6, s) in
  (h * 360, s * 100, l * 100).

(** [hexToHSL].  A NaN channel makes every component of the result NaN:
    that triple is [None]. *)
Definition hexToHSL (hex : string) : option HSL :=
  match hexToRgb hex with
  | (Some r, Some g, Some b) => Some (rgbToHSL (r, g, b))
  | _ => None
  end.

(** The inner function [hue2rgb] of [hslToRgb]. *)
Definition hue2rgb (p q t : Q) : Q :=
  let t := if Qlt_bool t 0 then t + 1 else t in
  let t := if Qlt_bool 1 t then t - 1 else t in
  if Qlt_bool t (1 / 6) then p + (q - p) * 6 * t
  else if Qlt_bool t (1 / 2) then q
  else if Qlt_bool t (2 / 3) then p + (q - p) * (2 / 3 - t) * 6
  else p.

(** [hslToRgb]. *)
Definition hslToRgb (hsl : HSL) : RGB :=
  let '(h, s, l) := hsl in
  let h := h / 360 in
  let s := s / 100 in
  let l := l / 100 in
  let '(r, g, b) :=
    if Qeq_bool s 0 then (l, l, l)
    else
      let q := if Qlt_bool l 0.5 then l * (1 + s) else l + s - l * s in
      let p := 2 * l - q in
      (hue2rgb p q (h + 1 / 3), hue2rgb p q h, hue2rgb p q (h - 1 / 3)) in
  (Math_round (r * 255), Math_round (g * 255), Math_round (b * 255)).

(** The inner function [toHex] of [hslToHex]. *)
Definition toHex (c : Z) : string :=
  let hex := toString16 c in
  if Nat.eqb (String.length hex) 1 then String "0" hex else hex.

(** [hslToHex]. *)
Definition hslToHex (hsl : HSL) : string :=
  let '(r, g, b) := hslToRgb hsl in
  String "#" (toHex r ++ toHex g ++ toHex b)%string.

(** [isValidHex], the test of [/^#([A-Fa-f0-9]{6}|[A-Fa-f0-9]{3})$/]. *)
Definition isValidHex (color : string) : bool :=
  match color with
  | String c digits =>
      Ascii.eqb c "#"
      && (Nat.eqb (String.length digits) 6 || Nat.eqb (String.length digits) 3)
      && allHexDigits digits
  | EmptyString => false
  end.

(** [normalizeHex]. *)
Definition normalizeHex (color : string) : string :=
  let color := trim color in
  if negb (startsWithHash color) then String "#" color else color.

End ColorUtils.
Import ColorUtils.

(** ** js/accessibility.js *)

Module Accessibility.

Local Open Scope R_scope.

Definition Rle_bool (x y : R) : bool := if Rle_dec x y then true else false.
Definition Rlt_bool (x y : R) : bool := if Rlt_dec x y then true else false.

(** The map of [calculateLuminance] over one channel.  The base of the
    power is positive whenever that branch is taken, where [Math.pow] is
    the real power. *)
Definition linearize (c : Z) : R :=
  let v := IZR c / 255 in
  if Rle_bool v 0.03928 then v / 12.92
  else Rpower ((v + 0.055) / 1.055) 2.4.

(** [calculateLuminance]. *)
Definition calculateLuminance (rgb : RGB) : R :=
  let '(r, g, b) := rgb in
  0.2126 * linearize r + 0.7152 * linearize g + 0.0722 * linearize b.

(** [getContrastRatio]. *)
Definition getContrastRatio (rgb1 rgb2 : RGB) : R :=
  let luminance1 := calculateLuminance rgb1 in
  let luminance2 := calculateLuminance rgb2 in
  let lighter := Rmax luminance1 luminance2 in
  let darker := Rmin luminance1 luminance2 in
  (lighter + 0.05) / (darker + 0.05).

(** [passesContrastCheck]. *)
Definition passesContrastCheck (rgb textRgb : RGB) (isLargeText : bool) : bool :=
  let ratio := getContrastRatio rgb textRgb in
  if isLargeText then Rle_bool 3.0 ratio else Rle_bool 4.5 ratio.

Definition black : RGB := (0, 0, 0)%Z.
Definition white : RGB := (255, 255, 255)%Z.

(** The test every phase of [findAccessibleColor] applies to a candidate:
    [blackContrast >= 4.5 && whiteContrast >= 4.5]. *)
Definition passesBoth (testHSL : HSL) : bool :=
  let testRGB := hslToRgb testHSL in
  let blackContrast := getContrastRatio testRGB black in
  let whiteContrast := getContrastRatio testRGB white in
  Rle_bool 4.5 blackContrast && Rle_bool 4.5 whiteContrast.

(** The constant returned when every phase fails. *)
Definition fallbackHSL : HSL := (195, 60, 55)%Q.

(** The search keeps [minDistance] ([None] is [Infinity]) and
    [closestHSL]. *)
Definition SearchState := (option Q * HSL)%type.

Section Search.

Local Open Scope Q_scope.

(** The candidate test; [findAccessibleColor] is the instance at
    [passesBoth]. *)
Variable passes : HSL -> bool.

(** [distance < minDistance]. *)
Definition closer (distance : Q) (minDistance : option Q) : bool :=
  match minDistance with
  | None => true
  | Some m => Qlt_bool distance m
  end.

(** The body shared by the three loops. *)
Definition consider (distance : HSL -> Q) (st : SearchState) (testHSL : HSL)
  : SearchState :=
  if passes testHSL then
    if closer (distance testHSL) (fst st) then (Some (distance testHSL), testHSL)
    else st
  else st.

Definition runPhase (distance : HSL -> Q) (candidates : list HSL)
    (st : SearchState) : SearchState :=
  fold_left (consider distance) candidates st.

(** The candidates of each phase, in the order the loops visit them. *)
Definition phase1Candidates (h s : Q) : list HSL :=
  map (fun newL => (h, s, inject_Z newL)) (int_range 45 65 1).

Definition phase2Candidates (h s : Q) : list HSL :=
  flat_map (fun newL =>
    map (fun newS => (h, newS, inject_Z newL))
        (for_range (Qmax 0 (s - 20)) (Qmin 100 (s + 20)) 5))
    (int_range 45 65 1).

Definition phase3Candidates (h s : Q) : list HSL :=
  flat_map (fun hueShift =>
    let newH := js_rem (h + inject_Z hueShift + 360) 360 in
    flat_map (fun newL =>
      map (fun newS => (newH, newS, inject_Z newL))
          (for_range (Qmax 0 (s - 30)) (Qmin 100 (s + 30)) 10))
      (int_range 45 65 2))
    (int_range (-30) 30 5).

(** The distances.  Phase 1 keeps [Math.abs(l - newL)]; phases 2 and 3
    compare square roots, which order as their radicands do, so the
    radicand is kept. *)
Definition distance1 (l : Q) (test : HSL) : Q :=
  let '(_, _, newL) := test in Qabs (l - newL).

Definition distance2 (s l : Q) (test : HSL) : Q :=
  let '(_, newS, newL) := test in (l - newL) ^ 2 + (s - newS) ^ 2.

Definition distance3 (h s l : Q) (test : HSL) : Q :=
  let '(newH, newS, newL) := test in
  ((h - newH) / 3) ^ 2 + (l - newL) ^ 2 + ((s - newS) / 2) ^ 2.

Definition isInfinity (minDistance : option Q) : bool :=
  match minDistance with None => true | Some _ => false end.

Definition phase1 (originalHSL : HSL) : SearchState :=
  let '(h, s, l) := originalHSL in
  runPhase (distance1 l) (phase1Candidates h s) (None, originalHSL).

Definition phase2 (originalHSL : HSL) (st : SearchState) : SearchState :=
  let '(h, s, l) := originalHSL in
  if isInfinity (fst st) then runPhase (distance2 s l) (phase2Candidates h s) st
  else st.

Definition phase3 (originalHSL : HSL) (st : SearchState) : SearchState :=
  let '(h, s, l) := originalHSL in
  if isInfinity (fst st) then runPhase (distance3 h s l) (phase3Candidates h s) st
  else st.

Definition findAccessibleColorWith (originalHSL : HSL) : HSL :=
  let st := phase3 originalHSL (phase2 originalHSL (phase1 originalHSL)) in
  if isInfinity (fst st) then fallbackHSL else snd st.

End Search.

(** [findAccessibleColor]. *)
Definition findAccessibleColor (originalHSL : HSL) : HSL :=
  findAccessibleColorWith passesBoth originalHSL.

End Accessibility.
Import Accessibility.

(** ** js/scale-generator.js *)

Module ScaleGenerator.

Local Open Scope Q_scope.

Definition COLOR_LEVELS : list Z := [100; 200; 300; 400; 500; 600; 700]%Z.

Record ShadeRecord : Type := mkShade {
  level : Z;
  hsl : HSL;
  hex : string;
  rgb : RGB;
  blackContrast : R;
  whiteContrast : R;
  blackPassesNormal : bool;
  blackPassesLarge : bool;
  whitePassesNormal : bool;
  whitePassesLarge : bool;
  preferWhiteText : bool
}.

(** The record both generators build from a level and its HSL. *)
Definition shadeRecord (level : Z) (hsl : HSL) : ShadeRecord :=
  let hex := hslToHex hsl in
  let rgb := hslToRgb hsl in
  let blackContrast := getContrastRatio rgb black in
  let whiteContrast := getContrastRatio rgb white in
  {| level := level;
     hsl := hsl;
     hex := hex;
     rgb := rgb;
     blackContrast := blackContrast;
     whiteContrast := whiteContrast;
     blackPassesNormal := Rle_bool 4.5 blackContrast;
     blackPassesLarge := Rle_bool 3.0 blackContrast;
     whitePassesNormal := Rle_bool 4.5 whiteContrast;
     whitePassesLarge := Rle_bool 3.0 whiteContrast;
     preferWhiteText := Rlt_bool blackContrast whiteContrast |}.

(** [Math.max(0, Math.min(100, x))]. *)
Definition clamp100 (x : Q) : Q := Qmax 0 (Qmin 100 x).

(** [calculateHSL]. *)
Definition calculateHSL (hsl400 : HSL) (level : Z) : HSL :=
  let '(h, s, l) := hsl400 in
  if (level =? 400)%Z then hsl400
  else if Qlt_bool s 10 then
    let originalHue := h in
    let '(newL, newS) :=
      if (level <? 400)%Z then
        let factor := inject_Z (400 - level) / 300 in
        (l + factor * (95 - l), Qmax 0 (s - factor * s))
      else
        let factor := inject_Z (level - 400) / 300 in
        (l - factor * (l - 28), s) in
    (originalHue, clamp100 newS, clamp100 newL)
  else
    let l100 := Qmin 94 (l + 44) in
    let s100 := Qmax 0 (s - 1) in
    let l700 := Qmax 24 (l - 26) in
    let s700 := Qmin 100 (s + 28) in
    let '(newL, newS) :=
      if (level <? 400)%Z then
        let factor := inject_Z (400 - level) / 300 in
        (l - factor * (l - l100), s - factor * (s - s100))
      else
        let factor := inject_Z (level - 400) / 300 in
        (l - factor * (l - l700), s + factor * (s700 - s)) in
    (h, clamp100 newS, clamp100 newL).

(** [generateColorScale]. *)
Definition generateColorScale (baseHSL : HSL) : list ShadeRecord :=
  map (fun level => shadeRecord level (calculateHSL baseHSL level)) COLOR_LEVELS.

(** [scale.find(color => color.level === lv)]. *)
Definition findLevel (lv : Z) (scale : list ShadeRecord) : option ShadeRecord :=
  find (fun color => (level color =? lv)%Z) scale.

End ScaleGenerator.
Import ScaleGenerator.

(** ** js/dark-mode-generator.js *)

Module DarkMode.

Local Open Scope Q_scope.

(** [adjustForDarkMode]. *)
Definition adjustForDarkMode (hsl : HSL) : HSL :=
  let '(h, s, l) := hsl in
  let newS := Qmin (s * 1.1) 100 in
  (h, newS, l).

(** The object [levelMap]; a key it does not hold reads [undefined]. *)
Definition levelMap (lv : Z) : option Z :=
  if (lv =? 100)%Z then Some 700%Z
  else if (lv =? 200)%Z then Some 600%Z
  else if (lv =? 300)%Z then Some 500%Z
  else if (lv =? 400)%Z then Some 400%Z
  else if (lv =? 500)%Z then Some 300%Z
  else if (lv =? 600)%Z then Some 200%Z
  else if (lv =? 700)%Z then Some 100%Z
  else None.

(** The scale that is reversed ([baseScale] once it is settled); [None]
    when [base400] is [undefined] and reading its field throws. *)
Definition basisScale (lightModeScale : list ShadeRecord)
    (accessibleScale : option (list ShadeRecord)) : option (list ShadeRecord) :=
  match findLevel 400 lightModeScale with
  | None => None
  | Some base400 =>
      let isOriginalAccessible :=
        blackPassesNormal base400 && whitePassesNormal base400 in
      if isOriginalAccessible then Some lightModeScale
      else
        match accessibleScale with
        | Some scale => Some scale
        | None => Some (generateColorScale (findAccessibleColor (hsl base400)))
        end
  end.

(** The HSL of one dark-mode record; [None] when the level-400 record of
    [baseScale] is [undefined] and reading its field throws. *)
Definition darkModeHSL (baseScale : list ShadeRecord) (color : ShadeRecord)
  : option HSL :=
  if (level color =? 400)%Z then
    option_map hsl (findLevel 400 baseScale)
  else
    match
      match levelMap (level color) with
      | Some reversedLevel => findLevel reversedLevel baseScale
      | None => None
      end
    with
    | None => Some (hsl color)
    | Some reversedColor => Some (adjustForDarkMode (hsl reversedColor))
    end.

(** [Array.prototype.map] with a callback that may throw. *)
Fixpoint mapM {A B : Type} (f : A -> option B) (xs : list A) : option (list B) :=
  match xs with
  | [] => Some []
  | x :: xs' =>
      match f x with
      | None => None
      | Some y =>
          match mapM f xs' with
          | None => None
          | Some ys => Some (y :: ys)
          end
      end
  end.

(** [generateDarkModeScale]; [None] is a thrown TypeError. *)
Definition generateDarkModeScale (lightModeScale : list ShadeRecord)
    (accessibleScale : option (list ShadeRecord)) : option (list ShadeRecord) :=
  match basisScale lightModeScale accessibleScale with
  | None => None
  | Some baseScale =>
      mapM (fun color =>
              option_map (shadeRecord (level color)) (darkModeHSL baseScale color))
           lightModeScale
  end.

End DarkMode.
Import DarkMode.

(** ** js/scale-generator.js and js/color-names-api.js: colour names *)

Module ColorNames.

Local Open Scope string_scope.
Local Open Scope Q_scope.

(** [getGenericColorName]. *)
Definition getGenericColorName (hsl : HSL) : string :=
  let '(h, s, l) := hsl in
  if Qlt_bool s 10 then "Neutral"
  else if Qle_bool 0 h && Qlt_bool h 15 then "Red"
  else if Qle_bool 15 h && Qlt_bool h 45 then "Orange"
  else if Qle_bool 45 h && Qlt_bool h 65 then "Yellow"
  else if Qle_bool 65 h && Qlt_bool h 80 then "Lime"
  else if Qle_bool 80 h && Qlt_bool h 150 then "Green"
  else if Qle_bool 150 h && Qlt_bool h 190 then "Teal"
  else if Qle_bool 190 h && Qlt_bool h 220 then "Cyan"
  else if Qle_bool 220 h && Qlt_bool h 255 then "Blue"
  else if Qle_bool 255 h && Qlt_bool h 280 then "Indigo"
  else if Qle_bool 280 h && Qlt_bool h 320 then "Purple"
  else if Qle_bool 320 h && Qlt_bool h 340 then "Magenta"
  else if Qle_bool 340 h && Qle_bool h 360 then "Pink"
  else "Custom".

(** [getGenericColorName (hexToHSL hex)]: on the all-NaN triple every
    comparison is false and the name is "Custom". *)
Definition genericNameOfHex (hex : string) : string :=
  match hexToHSL hex with
  | Some hsl => getGenericColorName hsl
  | None => "Custom"
  end.

(** [s.toLowerCase()] on the code units below 256: the letters A to Z and
    the capital letters of Latin-1, U+00C0 to U+00DE without U+00D7. *)
Definition lowerCharLatin1 (c : ascii) : ascii :=
  let n := code c in
  if ((65 <=? n) && (n <=? 90) || (192 <=? n) && (n <=? 222) && negb (n =? 215))%Z
  then ascii_of_N (Z.to_N (n + 32)) else c.

Fixpoint toLowerCaseLatin1 (s : string) : string :=
  match s with
  | EmptyString => EmptyString
  | String c s' => String (lowerCharLatin1 c) (toLowerCaseLatin1 s')
  end.

(** [getColorName].  The request to the naming service is the parameter
    [api]: [Some name] when the response is ok and carries a first colour,
    [None] when it carries none or the request fails. *)
Definition getColorName (api : string -> option string) (hexColor : string) : string :=
  let normalizedHex := stripHash hexColor in
  match api normalizedHex with
  | Some name => name
  | None => genericNameOfHex (String "#" normalizedHex)
  end.

(** [colorNameCache], a [Map] from strings to names: the entries in
    insertion order, one per key. *)
Definition Cache := list (string * string).

(** [cache.get(key)], [None] when [cache.has(key)] is false. *)
Fixpoint cacheGet (key : string) (cache : Cache) : option string :=
  match cache with
  | [] => None
  | (k, v) :: rest => if String.eqb k key then Some v else cacheGet key rest
  end.

(** [cache.set(key, value)]. *)
Fixpoint cacheSet (key value : string) (cache : Cache) : Cache :=
  match cache with
  | [] => [(key, value)]
  | (k, v) :: rest =>
      if String.eqb k key then (k, value) :: rest else (k, v) :: cacheSet key value rest
  end.

(** [getCachedColorName]: the name and the cache it leaves. *)
Definition getCachedColorName (api : string -> option string) (hexColor : string)
    (cache : Cache) : string * Cache :=
  let normalizedHex := toLowerCaseLatin1 (stripHash hexColor) in
  match cacheGet normalizedHex cache with
  | Some name => (name, cache)
  | None =>
      let colorName := getColorName api normalizedHex in
      (colorName, cacheSet normalizedHex colorName cache)
  end.

End ColorNames.
Import ColorNames.

(** ** js/ui-controller.js: the computations between input and display *)

Module Controller.

Local Open Scope string_scope.

(** The colour [handleColorInput] validates: the trimmed input, with a '#'
    put in front when it is not empty and has none. *)
Definition inputColor (value : string) : string :=
  let color := trim value in
  match color with
  | EmptyString => color
  | String _ _ => if negb (startsWithHash color) then String "#" color else color
  end.

(** Whether [handleColorInput] goes on to [updateColorScales]. *)
Definition acceptsInput (value : string) : bool := isValidHex (inputColor value).

(** The scales [updateColorScales] computes from [hsl400]; [None] is a
    thrown TypeError. *)
Record Scales : Type := mkScales {
  lightModeScale : list ShadeRecord;
  isAccessible : bool;
  accessibleScale : option (list ShadeRecord);
  darkModeScale : list ShadeRecord
}.

Definition computeScales (hsl400 : HSL) : option Scales :=
  let lightModeScale := generateColorScale hsl400 in
  match findLevel 400 lightModeScale with
  | None => None
  | Some base400 =>
      let isAccessible := blackPassesNormal base400 && whitePassesNormal base400 in
      let accessibleScale :=
        if negb isAccessible
        then Some (generateColorScale (findAccessibleColor hsl400))
        else None in
      match generateDarkModeScale lightModeScale accessibleScale with
      | None => None
      | Some darkModeScale =>
          Some {| lightModeScale := lightModeScale;
                  isAccessible := isAccessible;
                  accessibleScale := accessibleScale;
                  darkModeScale := darkModeScale |}
      end
  end.

End Controller.
Import Controller.

(** ** Rational enclosures of the luminance

    [linearize] is irrational on most channels, so the contrast test of a
    concrete colour is decided on integer enclosures: the fifth power of
    [Rpower y 2.4] is the rational [y ^ 12], hence a rational bound on the
    power is checked by comparing integers. *)

Module Enclosure.

Local Open Scope Z_scope.

(** Enclosures are integers over this common denominator. *)
Definition scale : Z := 1000000000000.

(** [(c / 255 + 0.055) / 1.055] is [powNum c / powDen]. *)
Definition powNum (c : Z) : Z := 1000 * c + 14025.
Definition powDen : Z := 269025.

(** Bisection for the integer fifth root: [lo ^ 5 <= x < hi ^ 5]
    throughout. *)
Fixpoint root5 (fuel : nat) (lo hi x : Z) : Z :=
  match fuel with
  | O => lo
  | S fuel' =>
      if hi - lo <=? 1 then lo
      else
        let mid := (lo + hi) / 2 in
        if mid ^ 5 <=? x then root5 fuel' mid hi x else root5 fuel' lo mid x
  end.

(** A candidate enclosure [(lo, lo + 1)] of [linearize c * scale]. *)
Definition guessEnclosure (c : Z) : Z * Z :=
  let lo :=
    if c <=? 10 then (c * 100 * scale) / 329460
    else root5 64 0 (scale + 1) ((powNum c) ^ 12 * scale ^ 5 / powDen ^ 12) in
  (lo, lo + 1).

(** What makes [(lo, hi)] an enclosure of [linearize c * scale]. *)
Definition enclosure_ok (c : Z) (e : Z * Z) : bool :=
  let '(lo, hi) := e in
  if c <=? 10 then
    (lo * 329460 <=? c * 100 * scale) && (c * 100 * scale <=? hi * 329460)
  else
    (0 <=? lo) && (0 <=? hi)
    && (lo ^ 5 * powDen ^ 12 <=? (powNum c) ^ 12 * scale ^ 5)
    && ((powNum c) ^ 12 * scale ^ 5 <=? hi ^ 5 * powDen ^ 12).

(** The enclosures of the 256 channel values. *)
Definition enclosureTable : list (Z * Z) :=
  Eval vm_compute in map guessEnclosure (int_range 0 255 1).

Definition channelEnclosure (c : Z) : option (Z * Z) :=
  if (0 <=? c) && (c <=? 255) then
    nth_error enclosureTable (Z.to_nat c)
  else None.

(** An enclosure of [calculateLuminance rgb * (10000 * scale)]. *)
Definition luminanceEnclosure (rgb : RGB) : option (Z * Z) :=
  let '(r, g, b) := rgb in
  match channelEnclosure r, channelEnclosure g, channelEnclosure b with
  | Some (rlo, rhi), Some (glo, ghi), Some (blo, bhi) =>
      Some (2126 * rlo + 7152 * glo + 722 * blo,
            2126 * rhi + 7152 * ghi + 722 * bhi)
  | _, _, _ => None
  end.

(** The contrast test of [findAccessibleColor], decided when the
    enclosure is on one side of both thresholds: the ratio against black
    is at least 4.5 from luminance 0.175 up, the ratio against white from
    luminance 11/60 down. *)
Definition decideBoth (rgb : RGB) : option bool :=
  match luminanceEnclosure rgb with
  | None => None
  | Some (lo, hi) =>
      if (0 <=? lo) && (hi <=? 10000 * scale) then
        if (1750 * scale <=? lo) && (60 * hi <=? 110000 * scale) then Some true
        else if (hi <? 1750 * scale) || (110000 * scale <? 60 * lo) then Some false
        else None
      else None
  end.

(** The executable candidate test. *)
Definition passesBothQ (testHSL : HSL) : bool :=
  match decideBoth (hslToRgb testHSL) with
  | Some b => b
  | None => false
  end.

Definition decided (testHSL : HSL) : bool :=
  match decideBoth (hslToRgb testHSL) with
  | Some _ => true
  | None => false
  end.

(** Every colour [findAccessibleColor] can test. *)
Definition allCandidates (originalHSL : HSL) : list HSL :=
  let '(h, s, _) := originalHSL in
  phase1Candidates h s ++ phase2Candidates h s ++ phase3Candidates h s.

End Enclosure.
Import Enclosure.

(** ** Notions the statements are written with *)

Module Notions.

Local Open Scope Q_scope.

(** The components of an HSL triple. *)
Definition hue (c : HSL) : Q := fst (fst c).
Definition saturation (c : HSL) : Q := snd (fst c).
Definition lightness (c : HSL) : Q := snd c.

(** A colour is accessible when its contrast ratio against black and
  against white is at least 4.5. *)
Definition Accessible (c : HSL) : Prop :=
(4.5 <= getContrastRatio (hslToRgb c) black)%R /\
(4.5 <= getContrastRatio (hslToRgb c) white)%R.

(** What the search state records once the candidates [seen] were
  considered, when it started with [minDistance = Infinity]. *)
Definition BestOf (passes : HSL -> bool) (distance : HSL -> Q) (seen : list HSL)
  (st : SearchState) : Prop :=
match fst st with
| None => forall c, In c seen -> passes c = false
| Some m =>
    In (snd st) seen /\ passes (snd st) = true /\ m = distance (snd st) /\
    forall c, In c seen -> passes c = true -> m <= distance c
end.

(** The three phases of [findAccessibleColorWith] over arbitrary distances
  and candidate lists. *)
Definition searchOver (passes : HSL -> bool) (d1 d2 d3 : HSL -> Q)
  (c1 c2 c3 : list HSL) (orig : HSL) : HSL :=
let st1 := runPhase passes d1 c1 (None, orig) in
let st2 := if isInfinity (fst st1) then runPhase passes d2 c2 st1 else st1 in
let st3 := if isInfinity (fst st2) then runPhase passes d3 c3 st2 else st2 in
if isInfinity (fst st3) then fallbackHSL else snd st3.

(** The channel values of [hslToRgb] before [Math.round], in units of 255. *)
Definition unitChannels (hsl : HSL) : Q * Q * Q :=
let '(h, s, l) := hsl in
let h := h / 360 in
let s := s / 100 in
let l := l / 100 in
if Qeq_bool s 0 then (l, l, l)
else
  let q := if Qlt_bool l 0.5 then l * (1 + s) else l + s - l * s in
  let p := 2 * l - q in
  (hue2rgb p q (h + 1 / 3), hue2rgb p q h, hue2rgb p q (h - 1 / 3)).

(** [rgbToHSL] on channels already divided by 255. *)
Definition unitHSL (r g b : Q) : HSL :=
let max := Math_max3 r g b in
let min := Math_min3 r g b in
let l := (max + min) / 2 in
let '(h, s) :=
  if Qeq_bool max min then (0, 0)
  else
    let d := max - min in
    let s := if Qlt_bool 0.5 l then d / (2 - max - min) else d / (max + min) in
    let h :=
      if Qeq_bool max r then (g - b) / d + (if Qlt_bool g b then 6 else 0)
      else if Qeq_bool max g then (b - r) / d + 2
      else (r - g) / d + 4 in
    (h / 6, s) in
(h * 360, s * 100, l * 100).

(** The hex field of the level-400 record of the scale generated from a hex
  string, as [updateColorScales] computes it: the outer [None] is a NaN
  colour, the inner one a scale without a level-400 record. *)
Definition level400Hex (input : string) : option (option string) :=
option_map (fun base => option_map hex (findLevel 400 (generateColorScale base)))
           (hexToHSL input).

End Notions.
Import Notions.

(** ** Domains of the data model *)

Module Domains.

(** HSL triples in the domain of the data model: a hue from 0 to 360, a
    saturation and a lightness from 0 to 100. *)
Definition inDomain (c : HSL) : Prop :=
  (0 <= hue c <= 360 /\ 0 <= saturation c <= 100 /\ 0 <= lightness c <= 100)%Q.

(** RGB triples with every channel between 0 and 255. *)
Definition inGamut (rgb : RGB) : Prop :=
  let '(r, g, b) := rgb in
  (0 <= r <= 255 /\ 0 <= g <= 255 /\ 0 <= b <= 255)%Z.

(** The texts that stand for a colour: 3 or 6 hex digits, with or without
    a '#' in front. *)
Definition HexColorText (text : string) : Prop :=
  exists digits,
    allHexDigits digits = true /\
    (String.length digits = 3 \/ String.length digits = 6)%nat /\
    (text = digits \/ text = String "#" digits).

(** A record whose fields agree: the HSL is in the domain, the RGB is its
    conversion and lies in the gamut, the hex string is its conversion, is
    a valid hex colour and reads back as the RGB. *)
Definition WellFormed (record : ShadeRecord) : Prop :=
  inDomain (hsl record) /\
  rgb record = hslToRgb (hsl record) /\ inGamut (rgb record) /\
  hex record = hslToHex (hsl record) /\ isValidHex (hex record) = true /\
  hexToRgb (hex record) =
    (Some (fst (fst (rgb record))), Some (snd (fst (rgb record))), Some (snd (rgb record))).

End Domains.
Import Domains.

(** ** Sample evaluations *)

Example hslToRgb_teal : hslToRgb (195, 60, 55)%Q = (71, 175, 209)%Z.
Proof. reflexivity. Qed.

Example hexToHSL_3366CC :
  option_map hslToHex (hexToHSL "#3366CC") = Some "#3366cc"%string.
Proof. vm_compute. reflexivity. Qed.

Example hexToRgb_short : hexToRgb "fa0" = (Some 255, Some 170, Some 0)%Z.
Proof. reflexivity. Qed.

Example decide_gray46 : decideBoth (hslToRgb (0, 0, 46)%Q) = Some true.
Proof. vm_compute. reflexivity. Qed.

Example decide_teal : decideBoth (hslToRgb fallbackHSL) = Some false.
Proof. vm_compute. reflexivity. Qed.

Section RealFacts.
Local Open Scope R_scope.

Lemma Rle_bool_true_iff x y : Rle_bool x y = true <-> x <= y.
Proof. unfold Rle_bool. destruct (Rle_dec x y); split; intros; auto; discriminate. Qed.

Lemma Rle_bool_false_iff x y : Rle_bool x y = false <-> y < x.
Proof.
  unfold Rle_bool. destruct (Rle_dec x y); split; intros; try discriminate; try lra; auto.
Qed.

Lemma pow_lt_base x y n : 0 <= x -> x < y -> x ^ S n < y ^ S n.
Proof.
  intros Hx Hxy. induction n as [|n IH].
  - simpl. lra.
  - change (x * x ^ S n < y * y ^ S n).
    assert (0 <= x ^ S n) by (apply pow_le; exact Hx).
    nra.
Qed.

Lemma pow_le_inv x y n : 0 <= x -> 0 <= y -> x ^ S n <= y ^ S n -> x <= y.
Proof.
  intros Hx Hy H. destruct (Rle_lt_dec x y) as [|Hlt]; [assumption|].
  pose proof (pow_lt_base y x n Hy Hlt). lra.
Qed.

(** The fifth power of [Rpower y 2.4] is [y ^ 12]. *)
Lemma Rpower_24_pow5 y : 0 < y -> Rpower y 2.4 ^ 5 = y ^ 12.
Proof.
  intros Hy.
  rewrite <- (Rpower_pow 5 (Rpower y 2.4)) by apply exp_pos.
  rewrite Rpower_mult.
  replace (2.4 * INR 5) with (INR 12) by (simpl; lra).
  apply Rpower_pow. exact Hy.
Qed.

Lemma Rpower_24_lower y a : 0 < y -> 0 <= a -> a ^ 5 <= y ^ 12 -> a <= Rpower y 2.4.
Proof.
  intros Hy Ha H. apply (pow_le_inv a (Rpower y 2.4) 4 Ha).
  - left. apply exp_pos.
  - rewrite Rpower_24_pow5 by exact Hy. exact H.
Qed.

Lemma Rpower_24_upper y a : 0 < y -> 0 <= a -> y ^ 12 <= a ^ 5 -> Rpower y 2.4 <= a.
Proof.
  intros Hy Ha H. apply (pow_le_inv (Rpower y 2.4) a 4).
  - left. apply exp_pos.
  - exact Ha.
  - rewrite Rpower_24_pow5 by exact Hy. exact H.
Qed.

Lemma linearize_low c : (c <= 10)%Z -> linearize c = IZR c * 100 / 329460.
Proof.
  intros Hc. unfold linearize.
  assert (IZR c <= 10) by (apply (IZR_le c 10); exact Hc).
  replace (Rle_bool (IZR c / 255) 0.03928) with true
    by (symmetry; apply Rle_bool_true_iff; lra).
  lra.
Qed.

Lemma linearize_high c :
  (11 <= c)%Z -> linearize c = Rpower (IZR (powNum c) / IZR powDen) 2.4.
Proof.
  intros Hc. unfold linearize.
  assert (11 <= IZR c) by (apply (IZR_le 11 c); exact Hc).
  replace (Rle_bool (IZR c / 255) 0.03928) with false
    by (symmetry; apply Rle_bool_false_iff; lra).
  f_equal. unfold powNum, powDen. rewrite plus_IZR, mult_IZR. lra.
Qed.

Lemma enclosure_sound c lo hi :
  enclosure_ok c (lo, hi) = true ->
  IZR lo <= linearize c * IZR scale <= IZR hi.
Proof.
  unfold enclosure_ok. destruct (Z.leb_spec c 10) as [Hc|Hc].
  - rewrite andb_true_iff, !Z.leb_le. intros [H1 H2].
    rewrite linearize_low by exact Hc.
    apply IZR_le in H1, H2. rewrite !mult_IZR in H1, H2.
    unfold scale in *. lra.
  - rewrite !andb_true_iff, !Z.leb_le. intros [[[H0 H0'] H1] H2].
    rewrite linearize_high by lia.
    assert (Hn : 0 < IZR (powNum c)) by (apply (IZR_lt 0); unfold powNum; lia).
    assert (Hd : 0 < IZR powDen) by (apply (IZR_lt 0); reflexivity).
    assert (Hs : 0 < IZR scale) by (apply (IZR_lt 0); reflexivity).
    assert (Hy : 0 < IZR (powNum c) / IZR powDen) by (apply Rdiv_lt_0_compat; assumption).
    apply IZR_le in H0, H0', H1, H2.
    rewrite !mult_IZR in H1, H2.
    change 5%Z with (Z.of_nat 5) in H1, H2. change 12%Z with (Z.of_nat 12) in H1, H2.
    rewrite <- !pow_IZR in H1, H2.
    assert (Hd12 : 0 < IZR powDen ^ 12) by (apply pow_lt; exact Hd).
    assert (Hs5 : 0 < IZR scale ^ 5) by (apply pow_lt; exact Hs).
    assert (Hexp : (IZR (powNum c) / IZR powDen) ^ 12 * (IZR powDen ^ 12)
                   = IZR (powNum c) ^ 12).
    { rewrite <- Rpow_mult_distr. f_equal. field. lra. }
    split.
    + apply (Rmult_le_reg_r (/ IZR scale)); [apply Rinv_0_lt_compat; exact Hs|].
      rewrite Rmult_assoc, Rinv_r, Rmult_1_r by lra.
      apply Rpower_24_lower; [exact Hy| |].
      * apply Rmult_le_pos; [exact H0|]. left. apply Rinv_0_lt_compat; exact Hs.
      * apply (Rmult_le_reg_r (IZR powDen ^ 12 * IZR scale ^ 5)).
        { apply Rmult_lt_0_compat; assumption. }
        replace ((IZR lo * / IZR scale) ^ 5 * (IZR powDen ^ 12 * IZR scale ^ 5))
          with (IZR lo ^ 5 * IZR powDen ^ 12 * ((/ IZR scale * IZR scale) ^ 5)).
        2:{ rewrite !Rpow_mult_distr. ring. }
        rewrite Rinv_l, pow1, Rmult_1_r by lra.
        rewrite <- Rmult_assoc, Hexp. exact H1.
    + apply (Rmult_le_reg_r (/ IZR scale)); [apply Rinv_0_lt_compat; exact Hs|].
      rewrite Rmult_assoc, Rinv_r, Rmult_1_r by lra.
      apply Rpower_24_upper; [exact Hy| |].
      * apply Rmult_le_pos; [exact H0'|]. left. apply Rinv_0_lt_compat; exact Hs.
      * apply (Rmult_le_reg_r (IZR powDen ^ 12 * IZR scale ^ 5)).
        { apply Rmult_lt_0_compat; assumption. }
        replace ((IZR hi * / IZR scale) ^ 5 * (IZR powDen ^ 12 * IZR scale ^ 5))
          with (IZR hi ^ 5 * IZR powDen ^ 12 * ((/ IZR scale * IZR scale) ^ 5)).
        2:{ rewrite !Rpow_mult_distr. ring. }
        rewrite Rinv_l, pow1, Rmult_1_r by lra.
        rewrite <- Rmult_assoc, Hexp. exact H2.
Qed.
End RealFacts.

Section TableFacts.
Local Open Scope Z_scope.

Lemma enclosureTable_ok :
  forallb (fun ce => enclosure_ok (fst ce) (snd ce))
          (combine (int_range 0 255 1) enclosureTable) = true.
Proof. vm_compute. reflexivity. Qed.

Lemma int_range_nth lo hi k :
  (Z.of_nat k <= hi - lo) ->
  nth_error (int_range lo hi 1) k = Some (lo + Z.of_nat k).
Proof.
  intros Hk. unfold int_range.
  rewrite nth_error_map, nth_error_seq.
  replace (Nat.ltb k (Z.to_nat ((hi - lo) / 1 + 1))) with true.
  - simpl. f_equal. lia.
  - symmetry. apply Nat.ltb_lt. rewrite Z.div_1_r. lia.
Qed.

Lemma nth_error_combine {A B} (xs : list A) (ys : list B) k x y :
  nth_error xs k = Some x -> nth_error ys k = Some y ->
  nth_error (combine xs ys) k = Some (x, y).
Proof.
  revert ys k. induction xs as [|a xs IH]; intros [|b ys] [|k]; simpl; try discriminate.
  - intros [= ->] [= ->]. reflexivity.
  - apply IH.
Qed.

Lemma channelEnclosure_ok c e : channelEnclosure c = Some e -> enclosure_ok c e = true.
Proof.
  unfold channelEnclosure.
  destruct (Z.leb_spec 0 c) as [H0|]; [|discriminate].
  destruct (Z.leb_spec c 255) as [H1|]; [|discriminate].
  simpl. intros He.
  pose proof (proj1 (forallb_forall _ _) enclosureTable_ok (c, e)) as Hall.
  apply Hall.
  apply (nth_error_In _ (Z.to_nat c)).
  apply nth_error_combine; [|exact He].
  rewrite int_range_nth by lia. f_equal. lia.
Qed.
End TableFacts.

Section DecisionFacts.
Local Open Scope R_scope.

Lemma channelEnclosure_sound c lo hi :
  channelEnclosure c = Some (lo, hi) ->
  IZR lo <= linearize c * IZR scale <= IZR hi.
Proof. intros H. apply enclosure_sound, channelEnclosure_ok, H. Qed.

Lemma luminanceEnclosure_sound rgb lo hi :
  luminanceEnclosure rgb = Some (lo, hi) ->
  IZR lo <= calculateLuminance rgb * (10000 * IZR scale) <= IZR hi.
Proof.
  destruct rgb as [[r g] b]. unfold luminanceEnclosure, calculateLuminance.
  destruct (channelEnclosure r) as [[rlo rhi]|] eqn:Hr; [|discriminate].
  destruct (channelEnclosure g) as [[glo ghi]|] eqn:Hg; [|discriminate].
  destruct (channelEnclosure b) as [[blo bhi]|] eqn:Hb; [|discriminate].
  intros H.
  assert (Hlo : lo = (2126 * rlo + 7152 * glo + 722 * blo)%Z) by congruence.
  assert (Hhi : hi = (2126 * rhi + 7152 * ghi + 722 * bhi)%Z) by congruence.
  clear H. subst lo hi.
  apply channelEnclosure_sound in Hr, Hg, Hb.
  rewrite !plus_IZR, !mult_IZR. lra.
Qed.

Lemma luminance_black : calculateLuminance black = 0.
Proof.
  unfold calculateLuminance, black. rewrite linearize_low by lia. lra.
Qed.

Lemma luminance_white : calculateLuminance white = 1.
Proof.
  unfold calculateLuminance, white. rewrite linearize_high by lia.
  replace (IZR (powNum 255) / IZR powDen) with 1.
  - unfold Rpower. rewrite ln_1, Rmult_0_r, exp_0. lra.
  - unfold powNum, powDen. simpl. lra.
Qed.

(** Against black the ratio is [(L + 0.05) / 0.05]; against white it is
    [1.05 / (L + 0.05)]. *)
Lemma contrast_black rgb :
  0 <= calculateLuminance rgb ->
  getContrastRatio rgb black = (calculateLuminance rgb + 0.05) / 0.05.
Proof.
  intros H. unfold getContrastRatio. rewrite luminance_black.
  rewrite Rmax_left, Rmin_right by exact H. f_equal. lra.
Qed.

Lemma contrast_white rgb :
  calculateLuminance rgb <= 1 ->
  getContrastRatio rgb white = 1.05 / (calculateLuminance rgb + 0.05).
Proof.
  intros H. unfold getContrastRatio. rewrite luminance_white.
  rewrite Rmax_right, Rmin_left by exact H. f_equal. lra.
Qed.

Lemma black_threshold L : 0 <= L -> (4.5 <= (L + 0.05) / 0.05 <-> 0.175 <= L).
Proof. intros H. split; intros; lra. Qed.

Lemma white_threshold L : 0 <= L -> (4.5 <= 1.05 / (L + 0.05) <-> L <= 11 / 60).
Proof.
  intros H. assert (Hp : 0 < L + 0.05) by lra. split; intros H1.
  - apply (Rmult_le_compat_r (L + 0.05)) in H1; [|lra].
    unfold Rdiv in H1. rewrite Rmult_assoc, Rinv_l, Rmult_1_r in H1 by lra. lra.
  - apply (Rmult_le_reg_r (L + 0.05)); [exact Hp|].
    unfold Rdiv. rewrite Rmult_assoc, Rinv_l, Rmult_1_r by lra. lra.
Qed.

Lemma passesBoth_true_iff c : passesBoth c = true <-> Accessible c.
Proof.
  unfold passesBoth, Accessible. rewrite andb_true_iff, !Rle_bool_true_iff. tauto.
Qed.

Lemma decideBoth_sound rgb b :
  decideBoth rgb = Some b ->
  ((4.5 <= getContrastRatio rgb black /\ 4.5 <= getContrastRatio rgb white)
   <-> b = true).
Proof.
  unfold decideBoth.
  destruct (luminanceEnclosure rgb) as [[lo hi]|] eqn:He; [|discriminate].
  apply luminanceEnclosure_sound in He.
  destruct (Z.leb_spec 0 lo) as [H0|]; [|discriminate].
  destruct (Z.leb_spec hi (10000 * scale)) as [H1|]; [|discriminate].
  cbn [andb].
  apply IZR_le in H0, H1. rewrite mult_IZR in H1.
  assert (Hs : IZR scale = 1000000000000) by reflexivity.
  assert (HL0 : 0 <= calculateLuminance rgb) by (rewrite Hs in *; lra).
  assert (HL1 : calculateLuminance rgb <= 1) by (rewrite Hs in *; lra).
  rewrite contrast_black, contrast_white by assumption.
  rewrite black_threshold, white_threshold by assumption.
  intros Hd.
  assert (Hfalse : (hi <? 1750 * scale)%Z || (110000 * scale <? 60 * lo)%Z = true ->
                   ~ (0.175 <= calculateLuminance rgb /\ calculateLuminance rgb <= 11 / 60)).
  { rewrite orb_true_iff, !Z.ltb_lt. intros [H|H]; apply IZR_lt in H;
      repeat rewrite mult_IZR in H; rewrite Hs in *; lra. }
  destruct ((1750 * scale <=? lo)%Z && (60 * hi <=? 110000 * scale)%Z) eqn:Ht.
  - apply andb_true_iff in Ht. rewrite !Z.leb_le in Ht. destruct Ht as [H2 H3].
    apply IZR_le in H2, H3.
    repeat rewrite mult_IZR in H2. repeat rewrite mult_IZR in H3.
    assert (b = true) by congruence. subst b. rewrite Hs in *.
    split; [reflexivity|]. intros _. split; lra.
  - destruct ((hi <? 1750 * scale)%Z || (110000 * scale <? 60 * lo)%Z) eqn:Hf;
      [|discriminate].
    assert (b = false) by congruence. subst b.
    split; [|discriminate]. intros Hacc. exfalso. exact (Hfalse eq_refl Hacc).
Qed.

Lemma decided_passesBoth c :
  decided c = true -> passesBoth c = passesBothQ c.
Proof.
  unfold decided, passesBothQ.
  destruct (decideBoth (hslToRgb c)) as [b|] eqn:Hd; [|discriminate].
  intros _. apply decideBoth_sound in Hd.
  destruct b.
  - apply passesBoth_true_iff. apply Hd. reflexivity.
  - destruct (passesBoth c) eqn:Hp; [|reflexivity].
    apply passesBoth_true_iff in Hp. apply Hd in Hp. discriminate.
Qed.
End DecisionFacts.

Section NumFacts.
Local Open Scope Q_scope.

Lemma Qlt_bool_true_iff x y : Qlt_bool x y = true <-> x < y.
Proof.
  unfold Qlt_bool. rewrite negb_true_iff.
  destruct (Qle_bool y x) eqn:H.
  - apply Qle_bool_iff in H. split; [discriminate|]. intros. lra.
  - split; [|reflexivity]. intros _.
    destruct (Qlt_le_dec x y) as [|Hle]; [assumption|].
    apply Qle_bool_iff in Hle. congruence.
Qed.

Lemma Qlt_bool_false_iff x y : Qlt_bool x y = false <-> y <= x.
Proof.
  unfold Qlt_bool. rewrite negb_false_iff. apply Qle_bool_iff.
Qed.
End NumFacts.

Section RangeFacts.
Local Open Scope Z_scope.

Lemma int_range_In lo hi x : In x (int_range lo hi 1) <-> lo <= x <= hi.
Proof.
  unfold int_range. rewrite in_map_iff. rewrite Z.div_1_r. split.
  - intros [k [<- Hk]]. apply in_seq in Hk. lia.
  - intros H. exists (Z.to_nat (x - lo)). split; [lia|]. apply in_seq. lia.
Qed.

Lemma int_range_bounds lo hi step x :
  0 < step -> In x (int_range lo hi step) -> lo <= x <= hi.
Proof.
  intros Hs. unfold int_range. rewrite in_map_iff. intros [k [<- Hk]].
  apply in_seq in Hk.
  assert (Z.of_nat k <= (hi - lo) / step) by lia.
  pose proof (Z.mul_div_le (hi - lo) step Hs). nia.
Qed.
End RangeFacts.

Section SearchFacts.
Local Open Scope Q_scope.

Variable passes : HSL -> bool.

Lemma consider_BestOf distance seen st c :
  BestOf passes distance seen st -> BestOf passes distance (seen ++ [c]) (consider passes distance st c).
Proof.
  unfold BestOf, consider. destruct st as [[m|] best]; simpl.
  - intros (Hin & Hp & Hm & Hmin).
    destruct (passes c) eqn:Hc; simpl.
    + destruct (Qlt_bool (distance c) m) eqn:Hlt; simpl.
      * apply Qlt_bool_true_iff in Hlt. repeat split; auto.
        -- apply in_or_app. right. left. reflexivity.
        -- intros c' Hc' Hp'. apply in_app_or in Hc'. destruct Hc' as [Hc'|[<-|[]]].
           ++ specialize (Hmin c' Hc' Hp'). lra.
           ++ lra.
      * apply Qlt_bool_false_iff in Hlt. repeat split; auto.
        -- apply in_or_app. left. exact Hin.
        -- intros c' Hc' Hp'. apply in_app_or in Hc'. destruct Hc' as [Hc'|[<-|[]]].
           ++ exact (Hmin c' Hc' Hp').
           ++ exact Hlt.
    + repeat split; auto.
      * apply in_or_app. left. exact Hin.
      * intros c' Hc' Hp'. apply in_app_or in Hc'. destruct Hc' as [Hc'|[<-|[]]].
        -- exact (Hmin c' Hc' Hp').
        -- congruence.
  - intros Hnone. destruct (passes c) eqn:Hc; simpl.
    + repeat split; auto.
      * apply in_or_app. right. left. reflexivity.
      * intros c' Hc' Hp'. apply in_app_or in Hc'. destruct Hc' as [Hc'|[<-|[]]].
        -- rewrite (Hnone c' Hc') in Hp'. discriminate.
        -- lra.
    + intros c' Hc'. apply in_app_or in Hc'. destruct Hc' as [Hc'|[<-|[]]]; auto.
Qed.

Lemma runPhase_BestOf distance candidates : forall seen st,
  BestOf passes distance seen st ->
  BestOf passes distance (seen ++ candidates) (runPhase passes distance candidates st).
Proof.
  unfold runPhase. induction candidates as [|c cs IH]; intros seen st H; simpl.
  - rewrite app_nil_r. exact H.
  - replace (seen ++ c :: cs) with ((seen ++ [c]) ++ cs)
      by (rewrite <- app_assoc; reflexivity).
    apply IH, consider_BestOf, H.
Qed.

Lemma runPhase_fresh distance candidates st :
  fst st = None ->
  BestOf passes distance candidates (runPhase passes distance candidates st).
Proof.
  intros Hst. apply (runPhase_BestOf distance candidates [] st).
  unfold BestOf. rewrite Hst. intros c [].
Qed.

Lemma findAccessibleColorWith_searchOver h s l :
  findAccessibleColorWith passes (h, s, l) =
  searchOver passes (distance1 l) (distance2 s l) (distance3 h s l)
    (phase1Candidates h s) (phase2Candidates h s) (phase3Candidates h s) (h, s, l).
Proof.
  cbv beta iota zeta delta [findAccessibleColorWith phase1 phase2 phase3 searchOver].
  reflexivity.
Qed.

Lemma phase1_runPhase h s l :
  phase1 passes (h, s, l) =
  runPhase passes (distance1 l) (phase1Candidates h s) (None, (h, s, l)).
Proof. reflexivity. Qed.

Lemma searchOver_cases d1 d2 d3 (c1 c2 c3 : list HSL) (orig : HSL) :
  (searchOver passes d1 d2 d3 c1 c2 c3 orig = fallbackHSL /\
   forall c, In c (c1 ++ c2 ++ c3) -> passes c = false)
  \/ (In (searchOver passes d1 d2 d3 c1 c2 c3 orig) (c1 ++ c2 ++ c3) /\
      passes (searchOver passes d1 d2 d3 c1 c2 c3 orig) = true).
Proof.
  unfold searchOver. cbv zeta.
  pose proof (runPhase_fresh d1 c1 (None, orig) eq_refl) as H1.
  revert H1. generalize (runPhase passes d1 c1 (None, orig)). intros st1 H1.
  unfold BestOf in H1.
  destruct st1 as [[m1|] best1]; cbn [fst snd isInfinity] in *.
  { right. destruct H1 as (Hin & Hp & _). split; [|exact Hp].
    apply in_or_app. left. exact Hin. }
  pose proof (runPhase_fresh d2 c2 (None, best1) eq_refl) as H2.
  revert H2. generalize (runPhase passes d2 c2 (None, best1)). intros st2 H2.
  unfold BestOf in H2.
  destruct st2 as [[m2|] best2]; cbn [fst snd isInfinity] in *.
  { right. destruct H2 as (Hin & Hp & _). split; [|exact Hp].
    apply in_or_app. right. apply in_or_app. left. exact Hin. }
  pose proof (runPhase_fresh d3 c3 (None, best2) eq_refl) as H3.
  revert H3. generalize (runPhase passes d3 c3 (None, best2)). intros st3 H3.
  unfold BestOf in H3.
  destruct st3 as [[m3|] best3]; cbn [fst snd isInfinity] in *.
  { right. destruct H3 as (Hin & Hp & _). split; [|exact Hp].
    apply in_or_app. right. apply in_or_app. right. exact Hin. }
  left. split; [reflexivity|]. intros c Hc.
  apply in_app_or in Hc. destruct Hc as [Hc|Hc]; [exact (H1 c Hc)|].
  apply in_app_or in Hc. destruct Hc as [Hc|Hc]; [exact (H2 c Hc)|exact (H3 c Hc)].
Qed.

Lemma searchOver_phase1 d1 d2 d3 (c1 c2 c3 : list HSL) (orig : HSL) :
  (exists c, In c c1 /\ passes c = true) ->
  searchOver passes d1 d2 d3 c1 c2 c3 orig = snd (runPhase passes d1 c1 (None, orig)) /\
  In (searchOver passes d1 d2 d3 c1 c2 c3 orig) c1 /\
  passes (searchOver passes d1 d2 d3 c1 c2 c3 orig) = true /\
  forall c, In c c1 -> passes c = true ->
            d1 (searchOver passes d1 d2 d3 c1 c2 c3 orig) <= d1 c.
Proof.
  intros [c0 [Hc0 Hp0]]. unfold searchOver. cbv zeta.
  pose proof (runPhase_fresh d1 c1 (None, orig) eq_refl) as H1.
  revert H1. generalize (runPhase passes d1 c1 (None, orig)). intros st1 H1.
  unfold BestOf in H1.
  destruct st1 as [[m1|] best1]; cbn [fst snd isInfinity] in *.
  - destruct H1 as (Hin & Hp & Hm & Hmin).
    repeat split; auto. intros c Hc Hpc. rewrite <- Hm. exact (Hmin c Hc Hpc).
  - rewrite (H1 c0 Hc0) in Hp0. discriminate.
Qed.

(** The result is the fallback when every candidate of every phase fails,
    and otherwise a candidate that passes. *)
Lemma findAccessibleColorWith_cases originalHSL :
  (findAccessibleColorWith passes originalHSL = fallbackHSL /\
   forall c, In c (allCandidates originalHSL) -> passes c = false)
  \/ (In (findAccessibleColorWith passes originalHSL) (allCandidates originalHSL) /\
      passes (findAccessibleColorWith passes originalHSL) = true).
Proof.
  destruct originalHSL as [[h s] l].
  rewrite findAccessibleColorWith_searchOver.
  change (allCandidates (h, s, l))
    with (phase1Candidates h s ++ phase2Candidates h s ++ phase3Candidates h s).
  apply searchOver_cases.
Qed.

(** When a candidate of phase 1 passes, the result is the state of
    phase 1: a passing candidate of that phase at least distance. *)
Lemma findAccessibleColorWith_phase1 h s l :
  (exists c, In c (phase1Candidates h s) /\ passes c = true) ->
  exists best,
    findAccessibleColorWith passes (h, s, l) = best /\
    snd (phase1 passes (h, s, l)) = best /\
    In best (phase1Candidates h s) /\ passes best = true /\
    forall c, In c (phase1Candidates h s) -> passes c = true ->
              distance1 l best <= distance1 l c.
Proof.
  intros H. rewrite findAccessibleColorWith_searchOver, phase1_runPhase.
  destruct (searchOver_phase1 (distance1 l) (distance2 s l) (distance3 h s l)
              (phase1Candidates h s) (phase2Candidates h s) (phase3Candidates h s)
              (h, s, l) H) as (Hst & Hin & Hp & Hmin).
  revert Hst Hin Hp Hmin.
  generalize (searchOver passes (distance1 l) (distance2 s l) (distance3 h s l)
                (phase1Candidates h s) (phase2Candidates h s) (phase3Candidates h s)
                (h, s, l)).
  intros best Hst Hin Hp Hmin. exists best. auto.
Qed.
End SearchFacts.

Section SearchExt.
Variables passes passes' : HSL -> bool.

Lemma runPhase_ext distance candidates : forall st,
  (forall c, In c candidates -> passes c = passes' c) ->
  runPhase passes distance candidates st = runPhase passes' distance candidates st.
Proof.
  unfold runPhase. induction candidates as [|c cs IH]; intros st H; simpl; [reflexivity|].
  unfold consider at 2 4. rewrite (H c (or_introl eq_refl)).
  apply IH. intros c' Hc'. apply H. right. exact Hc'.
Qed.

Lemma searchOver_ext d1 d2 d3 (c1 c2 c3 : list HSL) (orig : HSL) :
  (forall c, In c (c1 ++ c2 ++ c3) -> passes c = passes' c) ->
  searchOver passes d1 d2 d3 c1 c2 c3 orig = searchOver passes' d1 d2 d3 c1 c2 c3 orig.
Proof.
  intros H. unfold searchOver. cbv zeta.
  rewrite !(runPhase_ext d1 c1).
  2:{ intros c Hc. apply H. apply in_or_app. left. exact Hc. }
  generalize (runPhase passes' d1 c1 (None, orig)). intros st1.
  rewrite !(runPhase_ext d2 c2).
  2:{ intros c Hc. apply H. apply in_or_app. right. apply in_or_app. left. exact Hc. }
  generalize (if isInfinity (fst st1) then runPhase passes' d2 c2 st1 else st1).
  intros st2.
  rewrite !(runPhase_ext d3 c3).
  2:{ intros c Hc. apply H. apply in_or_app. right. apply in_or_app. right. exact Hc. }
  reflexivity.
Qed.

Lemma findAccessibleColorWith_ext originalHSL :
  (forall c, In c (allCandidates originalHSL) -> passes c = passes' c) ->
  findAccessibleColorWith passes originalHSL = findAccessibleColorWith passes' originalHSL.
Proof.
  destruct originalHSL as [[h s] l]. intros H.
  rewrite !findAccessibleColorWith_searchOver.
  apply searchOver_ext. exact H.
Qed.
End SearchExt.

Section CandidateFacts.
Local Open Scope Q_scope.

Lemma inject_Z_between (n : Z) : (45 <= n <= 65)%Z -> 45 <= inject_Z n <= 65.
Proof. intros [H1 H2]. unfold Qle, inject_Z. simpl. lia. Qed.

Lemma phase1Candidates_In h s c :
  In c (phase1Candidates h s) <->
  exists newL, (45 <= newL <= 65)%Z /\ c = (h, s, inject_Z newL).
Proof.
  unfold phase1Candidates. rewrite in_map_iff. split.
  - intros [n [<- Hn]]. exists n. apply int_range_In in Hn. auto.
  - intros [n [Hn ->]]. exists n. split; [reflexivity|]. apply int_range_In. exact Hn.
Qed.

Lemma allCandidates_lightness originalHSL c :
  In c (allCandidates originalHSL) -> 45 <= lightness c <= 65.
Proof.
  destruct originalHSL as [[h s] l]. unfold allCandidates. intros Hc.
  apply in_app_or in Hc. destruct Hc as [Hc|Hc].
  - apply phase1Candidates_In in Hc. destruct Hc as [n [Hn ->]].
    apply inject_Z_between, Hn.
  - apply in_app_or in Hc. destruct Hc as [Hc|Hc].
    + unfold phase2Candidates in Hc. apply in_flat_map in Hc.
      destruct Hc as [n [Hn Hc]]. apply in_map_iff in Hc. destruct Hc as [x [<- _]].
      apply inject_Z_between. apply (int_range_bounds 45 65 1); [lia|exact Hn].
    + unfold phase3Candidates in Hc. apply in_flat_map in Hc.
      destruct Hc as [k [_ Hc]]. apply in_flat_map in Hc.
      destruct Hc as [n [Hn Hc]]. apply in_map_iff in Hc. destruct Hc as [x [<- _]].
      apply inject_Z_between. apply (int_range_bounds 45 65 2); [lia|exact Hn].
Qed.
End CandidateFacts.

(** C1.  For every input HSL colour, the result of [findAccessibleColor]
    has a contrast ratio of at least 4.5 against black and against white, or
    it is the fixed fallback (195, 60, 55).  The function is total: it
    returns an HSL triple on every input. *)
Theorem findAccessibleColor_accessible_or_fallback (originalHSL : HSL) :
  Accessible (findAccessibleColor originalHSL)
  \/ findAccessibleColor originalHSL = fallbackHSL.
Proof.
  unfold findAccessibleColor.
  destruct (findAccessibleColorWith_cases passesBoth originalHSL) as [[H _]|[_ H]].
  - right. exact H.
  - left. apply passesBoth_true_iff. exact H.
Qed.

(** C10.  For every input HSL colour, the lightness of the result of
    [findAccessibleColor] is between 45 and 65: every candidate of the three
    phases has such a lightness, and the fallback has lightness 55. *)
Theorem findAccessibleColor_lightness_range (originalHSL : HSL) :
  (45 <= lightness (findAccessibleColor originalHSL) <= 65)%Q.
Proof.
  unfold findAccessibleColor.
  destruct (findAccessibleColorWith_cases passesBoth originalHSL) as [[H _]|[H _]].
  - rewrite H. unfold lightness, fallbackHSL. simpl. lra.
  - exact (allCandidates_lightness originalHSL _ H).
Qed.

(** C6.  When some integer lightness between 45 and 65 makes [h, s, newL]
    accessible, [findAccessibleColor] returns hue and saturation unchanged
    with an integer lightness between 45 and 65 that is accessible and
    minimizes [|l - newL|] among the accessible ones; the result is the
    state phase 1 leaves, the later phases are not run. *)
Theorem findAccessibleColor_phase1_nearest (h s l : Q) :
  (exists newL : Z, (45 <= newL <= 65)%Z /\ Accessible (h, s, inject_Z newL)) ->
  exists bestL : Z,
    (45 <= bestL <= 65)%Z /\
    findAccessibleColor (h, s, l) = (h, s, inject_Z bestL) /\
    Accessible (h, s, inject_Z bestL) /\
    (forall newL : Z, (45 <= newL <= 65)%Z -> Accessible (h, s, inject_Z newL) ->
       (Qabs (l - inject_Z bestL) <= Qabs (l - inject_Z newL))%Q) /\
    findAccessibleColor (h, s, l) = snd (phase1 passesBoth (h, s, l)).
Proof.
  intros [n0 [Hn0 Ha0]]. unfold findAccessibleColor.
  destruct (findAccessibleColorWith_phase1 passesBoth h s l)
    as (best & Hres & Hst & Hin & Hp & Hmin).
  { exists (h, s, inject_Z n0). split.
    - apply phase1Candidates_In. exists n0. auto.
    - apply passesBoth_true_iff. exact Ha0. }
  rewrite Hres, Hst. clear Hres Hst.
  apply phase1Candidates_In in Hin. destruct Hin as [bestL [Hb Hbest]]. subst best.
  exists bestL.
  split; [exact Hb|]. split; [reflexivity|].
  split; [apply passesBoth_true_iff; exact Hp|].
  split; [|reflexivity].
  intros newL Hn Ha.
  apply (Hmin (h, s, inject_Z newL)).
  - apply phase1Candidates_In. exists newL. auto.
  - apply passesBoth_true_iff. exact Ha.
Qed.

Lemma gray46_accessible : Accessible (0, 0, inject_Z 46)%Q.
Proof.
  apply (proj2 (decideBoth_sound (hslToRgb (0, 0, inject_Z 46)%Q) true eq_refl)).
  reflexivity.
Qed.

Lemma findAccessibleColor_phase1_nearest_witness :
  exists bestL : Z,
    (45 <= bestL <= 65)%Z /\
    findAccessibleColor (0, 0, 50)%Q = (0, 0, inject_Z bestL)%Q /\
    Accessible (0, 0, inject_Z bestL)%Q /\
    (forall newL : Z, (45 <= newL <= 65)%Z -> Accessible (0, 0, inject_Z newL)%Q ->
       (Qabs (50 - inject_Z bestL) <= Qabs (50 - inject_Z newL))%Q) /\
    findAccessibleColor (0, 0, 50)%Q = snd (phase1 passesBoth (0, 0, 50)%Q).
Proof.
  apply (findAccessibleColor_phase1_nearest 0 0 50).
  exists 46%Z. split; [lia|]. exact gray46_accessible.
Defined.

Lemma yellow_candidates_decided :
  forallb decided (allCandidates (60, 100, 50)%Q) = true.
Proof. vm_compute. reflexivity. Qed.

Lemma findAccessibleColor_decided originalHSL :
  forallb decided (allCandidates originalHSL) = true ->
  findAccessibleColor originalHSL = findAccessibleColorWith passesBothQ originalHSL.
Proof.
  intros H. apply findAccessibleColorWith_ext. intros c Hc.
  apply decided_passesBoth. exact (proj1 (forallb_forall _ _) H c Hc).
Qed.

(** C2.  The fallback (195, 60, 55) is returned for pure yellow
    (60, 100, 50), the HSL of #FFFF00, and it is not accessible: it
    converts to RGB (71, 175, 209), whose contrast ratio against black is at
    least 4.5 but whose contrast ratio against white is below 4.5. *)
Theorem fallback_not_accessible :
  findAccessibleColor (60, 100, 50)%Q = fallbackHSL /\
  hslToRgb fallbackHSL = (71, 175, 209)%Z /\
  (4.5 <= getContrastRatio (hslToRgb fallbackHSL) black)%R /\
  (getContrastRatio (hslToRgb fallbackHSL) white < 4.5)%R.
Proof.
  split.
  { rewrite (findAccessibleColor_decided _ yellow_candidates_decided).
    vm_compute. reflexivity. }
  split; [reflexivity|].
  assert (Hlum : luminanceEnclosure (hslToRgb fallbackHSL)
                 = Some (3660298672330122, 3660298672340122)%Z).
  { vm_compute. reflexivity. }
  apply luminanceEnclosure_sound in Hlum.
  assert (Hs : IZR scale = 1000000000000%R) by reflexivity. rewrite Hs in Hlum.
  assert (H0 : (0 <= calculateLuminance (hslToRgb fallbackHSL))%R) by lra.
  assert (H1 : (calculateLuminance (hslToRgb fallbackHSL) <= 1)%R) by lra.
  rewrite contrast_black, contrast_white by assumption.
  split.
  - apply black_threshold; lra.
  - apply Rnot_le_lt. intros H. apply white_threshold in H; lra.
Qed.

Section HueFacts.
Local Open Scope Q_scope.

Lemma Qlt_bool_comp x x' y y' : x == x' -> y == y' -> Qlt_bool x y = Qlt_bool x' y'.
Proof.
  intros Hx Hy.
  destruct (Qlt_bool x y) eqn:H1; destruct (Qlt_bool x' y') eqn:H2; try reflexivity.
  - apply Qlt_bool_true_iff in H1. apply Qlt_bool_false_iff in H2. lra.
  - apply Qlt_bool_false_iff in H1. apply Qlt_bool_true_iff in H2. lra.
Qed.

#[local] Instance Qlt_bool_Proper : Proper (Qeq ==> Qeq ==> eq) Qlt_bool.
Proof. intros x x' Hx y y' Hy. apply Qlt_bool_comp; assumption. Qed.

Ltac hue_bools :=
  repeat match goal with
  | |- context [Qlt_bool ?a ?b] =>
      lazymatch a with
      | context [if _ then _ else _] => fail
      | _ =>
          lazymatch b with
          | context [if _ then _ else _] => fail
          | _ =>
              let H := fresh "Hb" in
              destruct (Qlt_bool a b) eqn:H;
              [apply Qlt_bool_true_iff in H | apply Qlt_bool_false_iff in H];
              cbv beta iota
          end
      end
  end.

Ltac hue_start :=
  unfold hue2rgb;
  change (1 / 6) with (1 # 6); change (1 / 2) with (1 # 2); change (2 / 3) with (2 # 3).

#[local] Instance hue2rgb_Proper : Proper (Qeq ==> Qeq ==> Qeq ==> Qeq) hue2rgb.
Proof.
  intros p p' Hp q q' Hq t t' Ht. unfold hue2rgb.
  rewrite (Qlt_bool_comp t t' 0 0 Ht (Qeq_refl 0)).
  destruct (Qlt_bool t' 0).
  - assert (Ht1 : t + 1 == t' + 1) by (rewrite Ht; reflexivity).
    rewrite (Qlt_bool_comp 1 1 (t + 1) (t' + 1) (Qeq_refl 1) Ht1).
    destruct (Qlt_bool 1 (t' + 1)).
    + assert (Ht2 : t + 1 - 1 == t' + 1 - 1) by (rewrite Ht; reflexivity).
      rewrite (Qlt_bool_comp _ _ (1/6) (1/6) Ht2 (Qeq_refl _)).
      rewrite (Qlt_bool_comp _ _ (1/2) (1/2) Ht2 (Qeq_refl _)).
      rewrite (Qlt_bool_comp _ _ (2/3) (2/3) Ht2 (Qeq_refl _)).
      destruct (Qlt_bool _ (1/6)); [rewrite Hp, Hq, Ht; reflexivity|].
      destruct (Qlt_bool _ (1/2)); [exact Hq|].
      destruct (Qlt_bool _ (2/3)); [rewrite Hp, Hq, Ht; reflexivity|exact Hp].
    + rewrite (Qlt_bool_comp _ _ (1/6) (1/6) Ht1 (Qeq_refl _)).
      rewrite (Qlt_bool_comp _ _ (1/2) (1/2) Ht1 (Qeq_refl _)).
      rewrite (Qlt_bool_comp _ _ (2/3) (2/3) Ht1 (Qeq_refl _)).
      destruct (Qlt_bool _ (1/6)); [rewrite Hp, Hq, Ht; reflexivity|].
      destruct (Qlt_bool _ (1/2)); [exact Hq|].
      destruct (Qlt_bool _ (2/3)); [rewrite Hp, Hq, Ht; reflexivity|exact Hp].
  - rewrite (Qlt_bool_comp 1 1 t t' (Qeq_refl 1) Ht).
    destruct (Qlt_bool 1 t').
    + assert (Ht2 : t - 1 == t' - 1) by (rewrite Ht; reflexivity).
      rewrite (Qlt_bool_comp _ _ (1/6) (1/6) Ht2 (Qeq_refl _)).
      rewrite (Qlt_bool_comp _ _ (1/2) (1/2) Ht2 (Qeq_refl _)).
      rewrite (Qlt_bool_comp _ _ (2/3) (2/3) Ht2 (Qeq_refl _)).
      destruct (Qlt_bool _ (1/6)); [rewrite Hp, Hq, Ht; reflexivity|].
      destruct (Qlt_bool _ (1/2)); [exact Hq|].
      destruct (Qlt_bool _ (2/3)); [rewrite Hp, Hq, Ht; reflexivity|exact Hp].
    + rewrite (Qlt_bool_comp _ _ (1/6) (1/6) Ht (Qeq_refl _)).
      rewrite (Qlt_bool_comp _ _ (1/2) (1/2) Ht (Qeq_refl _)).
      rewrite (Qlt_bool_comp _ _ (2/3) (2/3) Ht (Qeq_refl _)).
      destruct (Qlt_bool _ (1/6)); [rewrite Hp, Hq, Ht; reflexivity|].
      destruct (Qlt_bool _ (1/2)); [exact Hq|].
      destruct (Qlt_bool _ (2/3)); [rewrite Hp, Hq, Ht; reflexivity|exact Hp].
Qed.

Variables p q : Q.

(** The graph of [hue2rgb p q] on [-1/3, 4/3]. *)
Lemma hue2rgb_rise t : 0 <= t <= 1 # 6 -> hue2rgb p q t == p + (q - p) * 6 * t.
Proof.
  intros [H0 H1]. hue_start. hue_bools; try lra; try reflexivity.
  assert (Ht : t == 1 # 6) by lra. rewrite Ht. ring.
Qed.

Lemma hue2rgb_top t : 1 # 6 <= t <= 1 # 2 -> hue2rgb p q t == q.
Proof.
  intros [H0 H1]. hue_start. hue_bools; try lra; try reflexivity.
  assert (Ht : t == 1 # 2) by lra. rewrite Ht. ring.
Qed.

Lemma hue2rgb_fall t :
  1 # 2 <= t <= 2 # 3 -> hue2rgb p q t == p + (q - p) * ((2 # 3) - t) * 6.
Proof.
  intros [H0 H1]. hue_start. hue_bools; try lra; try reflexivity.
  assert (Ht : t == 2 # 3) by lra. rewrite Ht. ring.
Qed.

Lemma hue2rgb_bottom t : 2 # 3 <= t <= 1 -> hue2rgb p q t == p.
Proof. intros [H0 H1]. hue_start. hue_bools; try lra; reflexivity. Qed.

Lemma hue2rgb_below t : - (1 # 3) <= t < 0 -> hue2rgb p q t == p.
Proof. intros [H0 H1]. hue_start. hue_bools; try lra; reflexivity. Qed.

Lemma hue2rgb_above_rise t :
  1 <= t <= 7 # 6 -> hue2rgb p q t == p + (q - p) * 6 * (t - 1).
Proof.
  intros [H0 H1]. hue_start. hue_bools; try lra; try reflexivity.
  - assert (Ht : t == 7 # 6) by lra. rewrite Ht. ring.
  - assert (Ht : t == 1) by lra. rewrite Ht. ring.
Qed.

Lemma hue2rgb_above_top t : 7 # 6 <= t <= 4 # 3 -> hue2rgb p q t == q.
Proof. intros [H0 H1]. hue_start. hue_bools; try lra; reflexivity. Qed.
End HueFacts.

#[local] Existing Instance Qlt_bool_Proper.
#[local] Existing Instance hue2rgb_Proper.

Section UnitFacts.
Local Open Scope Q_scope.

Lemma hslToRgb_unitChannels hsl :
hslToRgb hsl =
let '(r, g, b) := unitChannels hsl in
(Math_round (r * 255), Math_round (g * 255), Math_round (b * 255)).
Proof. destruct hsl as [[h s] l]. reflexivity. Qed.

Lemma rgbToHSL_unitHSL r g b :
rgbToHSL (r, g, b) = unitHSL (inject_Z r / 255) (inject_Z g / 255) (inject_Z b / 255).
Proof. reflexivity. Qed.

Lemma max3_spec x y z :
x <= Math_max3 x y z /\ y <= Math_max3 x y z /\ z <= Math_max3 x y z /\
(Math_max3 x y z == x \/ Math_max3 x y z == y \/ Math_max3 x y z == z).
Proof.
unfold Math_max3.
destruct (Q.max_spec x y) as [[H1 E1]|[H1 E1]];
  destruct (Q.max_spec (Qmax x y) z) as [[H2 E2]|[H2 E2]];
  rewrite E2; rewrite ?E1 in *; repeat split; try lra; auto.
Qed.

Lemma min3_spec x y z :
Math_min3 x y z <= x /\ Math_min3 x y z <= y /\ Math_min3 x y z <= z /\
(Math_min3 x y z == x \/ Math_min3 x y z == y \/ Math_min3 x y z == z).
Proof.
unfold Math_min3.
destruct (Q.min_spec x y) as [[H1 E1]|[H1 E1]];
  destruct (Q.min_spec (Qmin x y) z) as [[H2 E2]|[H2 E2]];
  rewrite E2; rewrite ?E1 in *; repeat split; try lra; auto.
Qed.

Lemma Qeq_bool_false_iff x y : Qeq_bool x y = false <-> ~ x == y.
Proof.
split.
- intros H E. apply Qeq_bool_iff in E. congruence.
- intros H. destruct (Qeq_bool x y) eqn:E; [|reflexivity].
  apply Qeq_bool_iff in E. contradiction.
Qed.

Lemma Qdiv_bounds n d u : 0 < d -> u == n / d -> u * d == n.
Proof. intros Hd ->. field. lra. Qed.

End UnitFacts.

(** The six sectors of the hue circle. *)
Section Sectors.
Local Open Scope Q_scope.
Variables p q H : Q.

Ltac sector_start := change (1 / 3) with (1 # 3).

Lemma sector_red_yellow :
  0 <= H <= 1 # 6 ->
  hue2rgb p q (H + 1 / 3) == q /\ hue2rgb p q H == p + (q - p) * 6 * H /\
  hue2rgb p q (H - 1 / 3) == p.
Proof.
  intros HH. sector_start. split; [|split].
  - apply hue2rgb_top. lra.
  - apply hue2rgb_rise. lra.
  - apply hue2rgb_below. lra.
Qed.

Lemma sector_yellow_green :
  1 # 6 <= H <= 1 # 3 ->
  hue2rgb p q (H + 1 / 3) == p + (q - p) * (2 - 6 * H) /\ hue2rgb p q H == q /\
  hue2rgb p q (H - 1 / 3) == p.
Proof.
  intros HH. sector_start. split; [|split].
  - rewrite hue2rgb_fall by lra. ring.
  - apply hue2rgb_top. lra.
  - destruct (Qlt_le_dec (H - (1 # 3)) 0) as [Hneg|Hpos].
    + apply hue2rgb_below. lra.
    + rewrite hue2rgb_rise by lra.
      assert (E : H == 1 # 3) by lra. rewrite E. ring.
Qed.

Lemma sector_green_cyan :
  1 # 3 <= H <= 1 # 2 ->
  hue2rgb p q (H + 1 / 3) == p /\ hue2rgb p q H == q /\
  hue2rgb p q (H - 1 / 3) == p + (q - p) * (6 * H - 2).
Proof.
  intros HH. sector_start. split; [|split].
  - apply hue2rgb_bottom. lra.
  - apply hue2rgb_top. lra.
  - rewrite hue2rgb_rise by lra. ring.
Qed.

Lemma sector_cyan_blue :
  1 # 2 <= H <= 2 # 3 ->
  hue2rgb p q (H + 1 / 3) == p /\ hue2rgb p q H == p + (q - p) * (4 - 6 * H) /\
  hue2rgb p q (H - 1 / 3) == q.
Proof.
  intros HH. sector_start. split; [|split].
  - apply hue2rgb_bottom. lra.
  - rewrite hue2rgb_fall by lra. ring.
  - apply hue2rgb_top. lra.
Qed.

Lemma sector_blue_magenta :
  2 # 3 <= H <= 5 # 6 ->
  hue2rgb p q (H + 1 / 3) == p + (q - p) * (6 * H - 4) /\ hue2rgb p q H == p /\
  hue2rgb p q (H - 1 / 3) == q.
Proof.
  intros HH. sector_start. split; [|split].
  - rewrite hue2rgb_above_rise by lra. ring.
  - apply hue2rgb_bottom. lra.
  - apply hue2rgb_top. lra.
Qed.

Lemma sector_magenta_red :
  5 # 6 <= H <= 1 ->
  hue2rgb p q (H + 1 / 3) == q /\ hue2rgb p q H == p /\
  hue2rgb p q (H - 1 / 3) == p + (q - p) * (6 - 6 * H).
Proof.
  intros HH. sector_start. split; [|split].
  - apply hue2rgb_above_top. lra.
  - apply hue2rgb_bottom. lra.
  - rewrite hue2rgb_fall by lra. ring.
Qed.
End Sectors.

Section UnitRoundTrip.
Local Open Scope Q_scope.

Lemma lightness_q_light (M m l : Q) :
l == (M + m) * (1 # 2) -> 0 < 2 - M - m ->
l * 100 / 100 + (M - m) / (2 - M - m) * 100 / 100
- l * 100 / 100 * ((M - m) / (2 - M - m) * 100 / 100) == M.
Proof. intros -> H. field. lra. Qed.

Lemma lightness_q_dark (M m l : Q) :
l == (M + m) * (1 # 2) -> 0 < M + m ->
l * 100 / 100 * (1 + (M - m) / (M + m) * 100 / 100) == M.
Proof. intros -> H. field. lra. Qed.

Lemma lightness_q_half (M m l : Q) :
l == (M + m) * (1 # 2) -> M + m == 1 ->
l * 100 / 100 + (M - m) / (M + m) * 100 / 100
- l * 100 / 100 * ((M - m) / (M + m) * 100 / 100) == M.
Proof.
intros -> H. rewrite H.
assert (E : forall a, a * 100 / 100 == a) by (intros; field).
assert (E1 : (M - m) / 1 == M - m) by field.
rewrite !E, E1. lra.
Qed.

Lemma unit_roundtrip x y z :
0 <= x <= 1 -> 0 <= y <= 1 -> 0 <= z <= 1 ->
let '(r', g', b') := unitChannels (unitHSL x y z) in
r' == x /\ g' == y /\ b' == z.
Proof.
intros Hx Hy Hz. unfold unitHSL.
destruct (max3_spec x y z) as (Mx & My & Mz & HM).
destruct (min3_spec x y z) as (mx & my & mz & Hm).
revert Mx My Mz HM mx my mz Hm.
generalize (Math_max3 x y z) (Math_min3 x y z). intros M m Mx My Mz HM mx my mz Hm.
cbv zeta.
destruct (Qeq_bool M m) eqn:E.
- apply Qeq_bool_iff in E. unfold unitChannels.
  replace (Qeq_bool (0 * 100 / 100) 0) with true by reflexivity.
  assert (El : (M + m) / 2 * 100 / 100 == (M + m) * (1 # 2)) by field.
  rewrite El. repeat split; lra.
- apply Qeq_bool_false_iff in E.
  assert (Hd : 0 < M - m) by lra.
  set (l := (M + m) / 2).
  assert (Hl : l == (M + m) * (1 # 2)) by (unfold l; field).
  set (S := if Qlt_bool 0.5 l then (M - m) / (2 - M - m) else (M - m) / (M + m)).
  set (Hh := (if Qeq_bool M x then (y - z) / (M - m) + (if Qlt_bool y z then 6 else 0)
              else if Qeq_bool M y then (z - x) / (M - m) + 2
              else (x - y) / (M - m) + 4) / 6).
  (* saturation is positive, and q and p are the largest and the smallest channel *)
  assert (HS : 0 < S /\ (if Qlt_bool (l * 100 / 100) 0.5
                         then l * 100 / 100 * (1 + S * 100 / 100)
                         else l * 100 / 100 + S * 100 / 100
                              - l * 100 / 100 * (S * 100 / 100)) == M).
  { assert (El : l * 100 / 100 == l) by field.
    rewrite (Qlt_bool_comp _ l 0.5 0.5 El (Qeq_refl _)).
    unfold S. destruct (Qlt_bool 0.5 l) eqn:B1.
    - apply Qlt_bool_true_iff in B1.
      replace (Qlt_bool l 0.5) with false
        by (symmetry; apply Qlt_bool_false_iff; lra).
      cbv beta iota. split.
      + apply Qlt_shift_div_l; lra.
      + apply lightness_q_light; [exact Hl|lra].
    - apply Qlt_bool_false_iff in B1.
      split; [apply Qlt_shift_div_l; lra|].
      destruct (Qlt_bool l 0.5) eqn:B2.
      + apply lightness_q_dark; [exact Hl|lra].
      + apply Qlt_bool_false_iff in B2.
        apply lightness_q_half; [exact Hl|lra]. }
  destruct HS as [HSpos Hq].
  unfold unitChannels.
  replace (Qeq_bool (S * 100 / 100) 0) with false.
  2:{ symmetry. apply Qeq_bool_false_iff. intros E0.
      assert (S * 100 / 100 == S) by field. lra. }
  set (qq := if Qlt_bool (l * 100 / 100) 0.5 then _ else _) in *.
  assert (Hp : 2 * (l * 100 / 100) - qq == m).
  { rewrite Hq. assert (El : l * 100 / 100 == l) by field. rewrite El, Hl. ring. }
  assert (HT : Hh * 360 / 360 == Hh) by field.
  rewrite Hp, Hq, HT.
  (* the sector of the hue *)
  unfold Hh.
  destruct (Qeq_bool M x) eqn:Ex.
  + apply Qeq_bool_iff in Ex.
    set (u := (y - z) / (M - m)).
    assert (Hu : u * (M - m) == y - z) by (unfold u; field; lra).
    destruct (Qlt_bool y z) eqn:Byz.
    * apply Qlt_bool_true_iff in Byz.
      assert (Em : m == y) by (destruct Hm as [Hm|[Hm|Hm]]; lra).
      assert (EH : (u + 6) / 6 == u * (1 # 6) + 1) by field.
      rewrite EH.
      destruct (sector_magenta_red m M (u * (1 # 6) + 1)) as (R1 & G1 & B1); [nra|].
      rewrite R1, G1, B1. repeat split; nra.
    * apply Qlt_bool_false_iff in Byz.
      assert (Em : m == z) by (destruct Hm as [Hm|[Hm|Hm]]; lra).
      assert (EH : (u + 0) / 6 == u * (1 # 6)) by field.
      rewrite EH.
      destruct (sector_red_yellow m M (u * (1 # 6))) as (R1 & G1 & B1); [nra|].
      rewrite R1, G1, B1. repeat split; nra.
  + apply Qeq_bool_false_iff in Ex.
    destruct (Qeq_bool M y) eqn:Ey.
    * apply Qeq_bool_iff in Ey.
      set (u := (z - x) / (M - m)).
      assert (Hu : u * (M - m) == z - x) by (unfold u; field; lra).
      assert (EH : (u + 2) / 6 == u * (1 # 6) + (1 # 3)) by field.
      rewrite EH.
      destruct (Qlt_le_dec z x) as [Hzx|Hzx].
      -- assert (Em : m == z) by (destruct Hm as [Hm|[Hm|Hm]]; lra).
         destruct (sector_yellow_green m M (u * (1 # 6) + (1 # 3))) as (R1 & G1 & B1); [nra|].
         rewrite R1, G1, B1. repeat split; nra.
      -- assert (Em : m == x) by (destruct Hm as [Hm|[Hm|Hm]]; lra).
         destruct (sector_green_cyan m M (u * (1 # 6) + (1 # 3))) as (R1 & G1 & B1); [nra|].
         rewrite R1, G1, B1. repeat split; nra.
    * apply Qeq_bool_false_iff in Ey.
      assert (Ez : M == z) by (destruct HM as [HM|[HM|HM]]; tauto).
      set (u := (x - y) / (M - m)).
      assert (Hu : u * (M - m) == x - y) by (unfold u; field; lra).
      assert (EH : (u + 4) / 6 == u * (1 # 6) + (2 # 3)) by field.
      rewrite EH.
      destruct (Qlt_le_dec x y) as [Hxy|Hxy].
      -- assert (Em : m == x) by (destruct Hm as [Hm|[Hm|Hm]]; lra).
         destruct (sector_cyan_blue m M (u * (1 # 6) + (2 # 3))) as (R1 & G1 & B1); [nra|].
         rewrite R1, G1, B1. repeat split; nra.
      -- assert (Em : m == y) by (destruct Hm as [Hm|[Hm|Hm]]; lra).
         destruct (sector_blue_magenta m M (u * (1 # 6) + (2 # 3))) as (R1 & G1 & B1); [nra|].
         rewrite R1, G1, B1. repeat split; nra.
Qed.
End UnitRoundTrip.

Section RoundTrip.
Local Open Scope Q_scope.

Lemma Math_round_inject q n : q == inject_Z n -> Math_round q = n.
Proof.
  intros E. unfold Math_round.
  rewrite (Qfloor_comp (q + 0.5) (inject_Z n + 0.5)) by (rewrite E; reflexivity).
  unfold Qfloor, Qplus, inject_Z. simpl.
  symmetry. apply Z.div_unique with (r := 5%Z); lia.
Qed.

Lemma unit_channel_bounds n : (0 <= n <= 255)%Z -> 0 <= inject_Z n / 255 <= 1.
Proof.
  intros [H0 H1].
  assert (E : inject_Z n / 255 == inject_Z n * (1 # 255)) by field.
  rewrite E. rewrite (Zle_Qle 0 n) in H0. rewrite (Zle_Qle n 255) in H1.
  change (inject_Z 0) with 0 in H0. change (inject_Z 255) with 255 in H1. lra.
Qed.

(** Converting an RGB colour to HSL and back gives the colour itself. *)
Lemma hslToRgb_rgbToHSL r g b :
  (0 <= r <= 255)%Z -> (0 <= g <= 255)%Z -> (0 <= b <= 255)%Z ->
  hslToRgb (rgbToHSL (r, g, b)) = (r, g, b).
Proof.
  intros Hr Hg Hb.
  rewrite rgbToHSL_unitHSL, hslToRgb_unitChannels.
  pose proof (unit_roundtrip _ _ _ (unit_channel_bounds r Hr)
                (unit_channel_bounds g Hg) (unit_channel_bounds b Hb)) as H.
  destruct (unitChannels _) as [[r' g'] b']. destruct H as (Er & Eg & Eb).
  f_equal; [f_equal|]; apply Math_round_inject.
  - rewrite Er. field.
  - rewrite Eg. field.
  - rewrite Eb. field.
Qed.
End RoundTrip.

(** C9.  For every RGB triple of integers between 0 and 255,
    [hslToRgb (rgbToHSL rgb)] differs from [rgb] by at most 1 in each
    channel. *)
Theorem hslToRgb_rgbToHSL_within_one (r g b : Z) :
  (0 <= r <= 255)%Z -> (0 <= g <= 255)%Z -> (0 <= b <= 255)%Z ->
  let '(r', g', b') := hslToRgb (rgbToHSL (r, g, b)) in
  (Z.abs (r' - r) <= 1 /\ Z.abs (g' - g) <= 1 /\ Z.abs (b' - b) <= 1)%Z.
Proof.
  intros Hr Hg Hb. rewrite (hslToRgb_rgbToHSL r g b Hr Hg Hb). lia.
Qed.

Lemma hslToRgb_rgbToHSL_within_one_witness :
  let '(r', g', b') := hslToRgb (rgbToHSL (51, 102, 204)%Z) in
  (Z.abs (r' - 51) <= 1 /\ Z.abs (g' - 102) <= 1 /\ Z.abs (b' - 204) <= 1)%Z.
Proof.
  apply (hslToRgb_rgbToHSL_within_one 51 102 204); lia.
Defined.

Section HexFacts.
Local Open Scope string_scope.
Local Open Scope Z_scope.

(** What [parseInt] and [toString] need to know of a hexadecimal digit. *)
Lemma hexDigit_facts c v :
  hexDigitValue c = Some v ->
  isWhiteSpace c = false /\ Ascii.eqb c "#" = false /\ Ascii.eqb c "-" = false /\
  Ascii.eqb c "+" = false /\ Ascii.eqb c "x" = false /\ Ascii.eqb c "X" = false /\
  (0 <=? v) && (v <? 16) = true /\ hexDigitChar v = lowerChar c.
Proof.
  intros H.
  destruct c as [[] [] [] [] [] [] [] []]; vm_compute in H; try discriminate;
    injection H as <-; vm_compute; repeat split; reflexivity.
Qed.

Lemma isHexDigit_value c : isHexDigit c = true -> exists v, hexDigitValue c = Some v.
Proof.
  unfold isHexDigit. destruct (hexDigitValue c) as [v|]; [|discriminate].
  intros _. exists v. reflexivity.
Qed.

Lemma parseInt16_pair c1 c2 v1 v2 :
  hexDigitValue c1 = Some v1 -> hexDigitValue c2 = Some v2 ->
  parseInt16 (String c1 (String c2 "")) = Some (16 * v1 + v2).
Proof.
  intros H1 H2.
  destruct (hexDigit_facts c1 v1 H1) as (W1 & _ & M1 & P1 & _).
  destruct (hexDigit_facts c2 v2 H2) as (_ & _ & _ & _ & X2 & X2' & _).
  unfold parseInt16. cbn [trimStart]. rewrite W1, M1, P1, X2, X2'.
  rewrite andb_false_r. cbn [hexPrefix]. rewrite H1, H2. cbn [option_map].
  f_equal. lia.
Qed.

Lemma hexToRgb_six c1 c2 c3 c4 c5 c6 v1 v2 v3 v4 v5 v6 :
  hexDigitValue c1 = Some v1 -> hexDigitValue c2 = Some v2 ->
  hexDigitValue c3 = Some v3 -> hexDigitValue c4 = Some v4 ->
  hexDigitValue c5 = Some v5 -> hexDigitValue c6 = Some v6 ->
  hexToRgb (String c1 (String c2 (String c3 (String c4 (String c5 (String c6 ""))))))
  = (Some (16 * v1 + v2), Some (16 * v3 + v4), Some (16 * v5 + v6)).
Proof.
  intros H1 H2 H3 H4 H5 H6.
  destruct (hexDigit_facts c1 v1 H1) as (_ & N1 & _).
  unfold hexToRgb. cbn [stripHash]. rewrite N1. cbn [substring].
  rewrite (parseInt16_pair c1 c2 v1 v2 H1 H2), (parseInt16_pair c3 c4 v3 v4 H3 H4),
    (parseInt16_pair c5 c6 v5 v6 H5 H6).
  reflexivity.
Qed.

Lemma toHex_table :
  forallb (fun v1 => forallb (fun v2 =>
    String.eqb (toHex (16 * v1 + v2))
               (String (hexDigitChar v1) (String (hexDigitChar v2) "")))
    (int_range 0 15 1)) (int_range 0 15 1) = true.
Proof. vm_compute. reflexivity. Qed.

Lemma toHex_byte v1 v2 :
  (0 <=? v1) && (v1 <? 16) = true -> (0 <=? v2) && (v2 <? 16) = true ->
  toHex (16 * v1 + v2) = String (hexDigitChar v1) (String (hexDigitChar v2) "").
Proof.
  intros H1 H2. apply andb_true_iff in H1, H2.
  rewrite Z.leb_le, Z.ltb_lt in H1, H2.
  pose proof (proj1 (forallb_forall _ _) toHex_table v1) as T1.
  assert (I1 : In v1 (int_range 0 15 1)) by (apply int_range_In; lia).
  specialize (T1 I1).
  pose proof (proj1 (forallb_forall _ _) T1 v2) as T2.
  assert (I2 : In v2 (int_range 0 15 1)) by (apply int_range_In; lia).
  apply String.eqb_eq. exact (T2 I2).
Qed.
End HexFacts.

Section ScaleFacts.
Local Open Scope Z_scope.

Lemma findLevel_map (f : Z -> HSL) (levels : list Z) (lv : Z) :
  findLevel lv (map (fun level => shadeRecord level (f level)) levels) =
  option_map (fun level => shadeRecord level (f level))
             (find (fun level => level =? lv) levels).
Proof.
  unfold findLevel. induction levels as [|a levels IH]; [reflexivity|].
  cbn [map find]. change (level (shadeRecord a (f a))) with a.
  destruct (a =? lv); [reflexivity|exact IH].
Qed.

Lemma calculateHSL_400 base : calculateHSL base 400 = base.
Proof. destruct base as [[h s] l]. reflexivity. Qed.

Lemma findLevel_generateColorScale base lv :
  findLevel lv (generateColorScale base) =
  if existsb (Z.eqb lv) COLOR_LEVELS then Some (shadeRecord lv (calculateHSL base lv))
  else None.
Proof.
  unfold generateColorScale. rewrite findLevel_map. unfold COLOR_LEVELS.
  cbn [find existsb].
  repeat match goal with
         | |- context [?a =? lv] =>
             rewrite (Z.eqb_sym a lv); destruct (Z.eqb_spec lv a) as [->|]
         end; reflexivity.
Qed.

Lemma level400_hex base :
  option_map hex (findLevel 400 (generateColorScale base)) = Some (hslToHex base).
Proof.
  rewrite findLevel_generateColorScale. cbn [existsb COLOR_LEVELS orb Z.eqb Pos.eqb].
  cbn [option_map]. rewrite calculateHSL_400. reflexivity.
Qed.
End ScaleFacts.

Section HexScale.
Local Open Scope string_scope.

Lemma hslToHex_rgbToHSL r g b :
  (0 <= r <= 255)%Z -> (0 <= g <= 255)%Z -> (0 <= b <= 255)%Z ->
  hslToHex (rgbToHSL (r, g, b)) = String "#" (toHex r ++ toHex g ++ toHex b).
Proof.
  intros Hr Hg Hb. unfold hslToHex. rewrite (hslToRgb_rgbToHSL r g b Hr Hg Hb).
  reflexivity.
Qed.

Lemma byte_range v1 v2 :
  (0 <=? v1)%Z && (v1 <? 16)%Z = true -> (0 <=? v2)%Z && (v2 <? 16)%Z = true ->
  (0 <= 16 * v1 + v2 <= 255)%Z.
Proof.
  intros H1 H2. apply andb_true_iff in H1, H2.
  rewrite Z.leb_le, Z.ltb_lt in H1, H2. lia.
Qed.

Lemma six_digits (digits : string) :
  String.length digits = 6%nat -> allHexDigits digits = true ->
  exists c1 c2 c3 c4 c5 c6 v1 v2 v3 v4 v5 v6,
    digits = String c1 (String c2 (String c3 (String c4 (String c5 (String c6 ""))))) /\
    hexDigitValue c1 = Some v1 /\ hexDigitValue c2 = Some v2 /\
    hexDigitValue c3 = Some v3 /\ hexDigitValue c4 = Some v4 /\
    hexDigitValue c5 = Some v5 /\ hexDigitValue c6 = Some v6.
Proof.
  intros Hlen Hall.
  destruct digits as [|c1 [|c2 [|c3 [|c4 [|c5 [|c6 [|c7 rest]]]]]]]; try discriminate.
  cbn [allHexDigits] in Hall. rewrite !andb_true_iff in Hall.
  destruct Hall as (A1 & A2 & A3 & A4 & A5 & A6 & _).
  destruct (isHexDigit_value _ A1) as [v1 E1]. destruct (isHexDigit_value _ A2) as [v2 E2].
  destruct (isHexDigit_value _ A3) as [v3 E3]. destruct (isHexDigit_value _ A4) as [v4 E4].
  destruct (isHexDigit_value _ A5) as [v5 E5]. destruct (isHexDigit_value _ A6) as [v6 E6].
  exists c1, c2, c3, c4, c5, c6, v1, v2, v3, v4, v5, v6. auto 10.
Qed.

Lemma level400Hex_six c1 c2 c3 c4 c5 c6 v1 v2 v3 v4 v5 v6 :
  hexDigitValue c1 = Some v1 -> hexDigitValue c2 = Some v2 ->
  hexDigitValue c3 = Some v3 -> hexDigitValue c4 = Some v4 ->
  hexDigitValue c5 = Some v5 -> hexDigitValue c6 = Some v6 ->
  let digits := String c1 (String c2 (String c3 (String c4 (String c5 (String c6 ""))))) in
  level400Hex digits = Some (Some (String "#" (toLowerCase digits))) /\
  level400Hex (String "#" digits) = Some (Some (String "#" (toLowerCase digits))) /\
  normalizeHex digits = String "#" digits /\
  normalizeHex (String "#" digits) = String "#" digits.
Proof.
  intros H1 H2 H3 H4 H5 H6 digits.
  pose proof (hexToRgb_six _ _ _ _ _ _ _ _ _ _ _ _ H1 H2 H3 H4 H5 H6) as Hrgb.
  fold digits in Hrgb.
  destruct (hexDigit_facts c1 v1 H1) as (W1 & N1 & _ & _ & _ & _ & R1 & L1).
  destruct (hexDigit_facts c2 v2 H2) as (W2 & _ & _ & _ & _ & _ & R2 & L2).
  destruct (hexDigit_facts c3 v3 H3) as (W3 & _ & _ & _ & _ & _ & R3 & L3).
  destruct (hexDigit_facts c4 v4 H4) as (W4 & _ & _ & _ & _ & _ & R4 & L4).
  destruct (hexDigit_facts c5 v5 H5) as (W5 & _ & _ & _ & _ & _ & R5 & L5).
  destruct (hexDigit_facts c6 v6 H6) as (W6 & _ & _ & _ & _ & _ & R6 & L6).
  assert (Hhash : hexToRgb (String "#" digits) = hexToRgb digits).
  { unfold hexToRgb. change (stripHash (String "#" digits)) with digits.
    unfold digits. cbn [stripHash]. rewrite N1. reflexivity. }
  assert (Hlow : level400Hex digits = Some (Some (String "#" (toLowerCase digits)))).
  { unfold level400Hex, hexToHSL. rewrite Hrgb. cbn [option_map].
    rewrite level400_hex.
    rewrite hslToHex_rgbToHSL by (apply byte_range; assumption).
    rewrite !toHex_byte by assumption.
    rewrite L1, L2, L3, L4, L5, L6. reflexivity. }
  split; [exact Hlow|]. split.
  - unfold level400Hex, hexToHSL in *. rewrite Hhash. exact Hlow.
  - unfold normalizeHex, trim, digits. cbn [trimStart]. rewrite W1.
    cbn [trimEnd]. rewrite W6. cbn [startsWithHash negb]. rewrite N1.
    cbn [negb]. split; [reflexivity|].
    change (isWhiteSpace "#") with false. cbn [trimEnd]. rewrite W6.
    reflexivity.
Qed.
End HexScale.

(** C3, amended.  For every string of six hex digits, given with or without
    the leading '#', the hex field of the level-400 record of the generated
    scale is the normalized input in lower case. *)
Theorem level400_hex_is_lowercase_input (digits input : string) :
  String.length digits = 6%nat -> allHexDigits digits = true ->
  input = digits \/ input = String "#" digits ->
  level400Hex input = Some (Some (toLowerCase (normalizeHex input))).
Proof.
  intros Hlen Hall Hin.
  destruct (six_digits digits Hlen Hall)
    as (c1 & c2 & c3 & c4 & c5 & c6 & v1 & v2 & v3 & v4 & v5 & v6 & -> &
        H1 & H2 & H3 & H4 & H5 & H6).
  destruct (level400Hex_six _ _ _ _ _ _ _ _ _ _ _ _ H1 H2 H3 H4 H5 H6)
    as (A & B & C & D).
  destruct Hin as [-> | ->].
  - rewrite A, C. reflexivity.
  - rewrite B, D. reflexivity.
Qed.

Lemma level400_hex_is_lowercase_input_witness :
  level400Hex "#3366CC" = Some (Some (toLowerCase (normalizeHex "#3366CC"))).
Proof.
  apply (level400_hex_is_lowercase_input "3366CC" "#3366CC");
    [reflexivity | reflexivity | right; reflexivity].
Defined.

(** C3 as stated fails on upper-case digits: for "#3366CC" the level-400
    hex is "#3366cc", which is not the normalized input "#3366CC". *)
Lemma level400_hex_not_input :
  String.length "3366CC" = 6%nat /\ allHexDigits "3366CC" = true /\
  isValidHex "#3366CC" = true /\
  normalizeHex "#3366CC" = "#3366CC"%string /\
  level400Hex "#3366CC" = Some (Some "#3366cc"%string) /\
  level400Hex "#3366CC" <> Some (Some (normalizeHex "#3366CC")).
Proof.
  assert (H : level400Hex "#3366CC" = Some (Some "#3366cc"%string)).
  { exact (proj1 (proj2 (level400Hex_six "3" "3" "6" "6" "C" "C" 3 3 6 6 12 12
                           eq_refl eq_refl eq_refl eq_refl eq_refl eq_refl))). }
  repeat split; try reflexivity; try exact H.
  rewrite H. discriminate.
Qed.

Section CalculateFacts.
Local Open Scope Q_scope.

Lemma calculateHSL_hue base lv : hue (calculateHSL base lv) = hue base.
Proof.
  destruct base as [[h s] l]. unfold calculateHSL.
  destruct (lv =? 400)%Z; [reflexivity|].
  destruct (Qlt_bool s 10); destruct (lv <? 400)%Z; reflexivity.
Qed.

Lemma generateColorScale_levels base :
  map level (generateColorScale base) = COLOR_LEVELS.
Proof. reflexivity. Qed.

Lemma generateColorScale_In base record :
  In record (generateColorScale base) ->
  exists lv, In lv COLOR_LEVELS /\ record = shadeRecord lv (calculateHSL base lv).
Proof.
  unfold generateColorScale. rewrite in_map_iff. intros [lv [<- Hlv]].
  exists lv. auto.
Qed.

Lemma clamp100_id x : 0 <= x <= 100 -> clamp100 x == x.
Proof.
  intros [H0 H1]. unfold clamp100.
  rewrite (Q.min_r 100 x H1). apply Q.max_r. exact H0.
Qed.

Lemma clamp100_comp x y : x == y -> clamp100 x == clamp100 y.
Proof. intros E. unfold clamp100. rewrite E. reflexivity. Qed.

Lemma calculateHSL_chromatic_light h s l lv :
  10 <= s -> (lv < 400)%Z ->
  calculateHSL (h, s, l) lv =
  (h,
   clamp100 (s - inject_Z (400 - lv) / 300 * (s - Qmax 0 (s - 1))),
   clamp100 (l - inject_Z (400 - lv) / 300 * (l - Qmin 94 (l + 44)))).
Proof.
  intros Hs Hlv. unfold calculateHSL.
  replace (lv =? 400)%Z with false by (symmetry; apply Z.eqb_neq; lia).
  replace (Qlt_bool s 10) with false by (symmetry; apply Qlt_bool_false_iff; exact Hs).
  replace (lv <? 400)%Z with true by (symmetry; apply Z.ltb_lt; exact Hlv).
  reflexivity.
Qed.

Lemma calculateHSL_chromatic_dark h s l lv :
  10 <= s -> (400 < lv)%Z ->
  calculateHSL (h, s, l) lv =
  (h,
   clamp100 (s + inject_Z (lv - 400) / 300 * (Qmin 100 (s + 28) - s)),
   clamp100 (l - inject_Z (lv - 400) / 300 * (l - Qmax 24 (l - 26)))).
Proof.
  intros Hs Hlv. unfold calculateHSL.
  replace (lv =? 400)%Z with false by (symmetry; apply Z.eqb_neq; lia).
  replace (Qlt_bool s 10) with false by (symmetry; apply Qlt_bool_false_iff; exact Hs).
  replace (lv <? 400)%Z with false by (symmetry; apply Z.ltb_ge; lia).
  reflexivity.
Qed.
End CalculateFacts.

(** C7.  For a base colour with saturation between 10 and 100 and lightness
    between 0 and 100, [calculateHSL] gives at level 100 the lightness
    [min (94, l + 44)] and the saturation [max (0, s - 1)], at level 700 the
    lightness [max (24, l - 26)] and the saturation [min (100, s + 28)], and
    at a level below (above) 400 the interpolation between the base and the
    light (dark) endpoint with factor [(400 - level) / 300]
    ([(level - 400) / 300]), clamped to [0, 100]; the hue is unchanged. *)
Theorem calculateHSL_chromatic (h s l : Q) :
  (10 <= s <= 100)%Q -> (0 <= l <= 100)%Q ->
  let l100 := Qmin 94 (l + 44) in
  let s100 := Qmax 0 (s - 1) in
  let l700 := Qmax 24 (l - 26) in
  let s700 := Qmin 100 (s + 28) in
  (hue (calculateHSL (h, s, l) 100) = h /\
   saturation (calculateHSL (h, s, l) 100) == s100 /\
   lightness (calculateHSL (h, s, l) 100) == l100)%Q /\
  (hue (calculateHSL (h, s, l) 700) = h /\
   saturation (calculateHSL (h, s, l) 700) == s700 /\
   lightness (calculateHSL (h, s, l) 700) == l700)%Q /\
  (forall lv, (lv < 400)%Z ->
     let factor := (inject_Z (400 - lv) / 300)%Q in
     hue (calculateHSL (h, s, l) lv) = h /\
     saturation (calculateHSL (h, s, l) lv) == clamp100 (s + factor * (s100 - s)) /\
     lightness (calculateHSL (h, s, l) lv) == clamp100 (l + factor * (l100 - l)))%Q /\
  (forall lv, (400 < lv)%Z ->
     let factor := (inject_Z (lv - 400) / 300)%Q in
     hue (calculateHSL (h, s, l) lv) = h /\
     saturation (calculateHSL (h, s, l) lv) == clamp100 (s + factor * (s700 - s)) /\
     lightness (calculateHSL (h, s, l) lv) == clamp100 (l + factor * (l700 - l)))%Q.
Proof.
  intros Hs Hl l100 s100 l700 s700.
  assert (Hl100 : (0 <= l100 <= 100)%Q).
  { unfold l100. destruct (Q.min_spec 94 (l + 44)) as [[? ->]|[? ->]]; lra. }
  assert (Hs100 : (s100 == s - 1)%Q) by (unfold s100; apply Q.max_r; lra).
  assert (Hl700 : (0 <= l700 <= 100)%Q).
  { unfold l700. destruct (Q.max_spec 24 (l - 26)) as [[? ->]|[? ->]]; lra. }
  assert (Hs700 : (0 <= s700 <= 100)%Q).
  { unfold s700. destruct (Q.min_spec 100 (s + 28)) as [[? ->]|[? ->]]; lra. }
  assert (Hone : (inject_Z 300 / 300 == 1)%Q) by reflexivity.
  split; [|split; [|split]].
  - rewrite calculateHSL_chromatic_light by (lra || lia).
    unfold hue, saturation, lightness. cbn [fst snd].
    change (400 - 100)%Z with 300%Z. fold s100 l100.
    split; [reflexivity|]. split.
    + rewrite <- (clamp100_id s100) at 2 by lra.
      apply clamp100_comp. rewrite Hone. ring.
    + rewrite <- (clamp100_id l100) at 2 by lra.
      apply clamp100_comp. rewrite Hone. ring.
  - rewrite calculateHSL_chromatic_dark by (lra || lia).
    unfold hue, saturation, lightness. cbn [fst snd].
    change (700 - 400)%Z with 300%Z. fold s700 l700.
    split; [reflexivity|]. split.
    + rewrite <- (clamp100_id s700) at 2 by lra.
      apply clamp100_comp. rewrite Hone. ring.
    + rewrite <- (clamp100_id l700) at 2 by lra.
      apply clamp100_comp. rewrite Hone. ring.
  - intros lv Hlv factor.
    rewrite calculateHSL_chromatic_light by (lra || lia).
    unfold hue, saturation, lightness. cbn [fst snd]. fold s100 l100 factor.
    split; [reflexivity|]. split; apply clamp100_comp; ring.
  - intros lv Hlv factor.
    rewrite calculateHSL_chromatic_dark by (lra || lia).
    unfold hue, saturation, lightness. cbn [fst snd]. fold s700 l700 factor.
    split; [reflexivity|]. split; apply clamp100_comp; ring.
Qed.

Lemma calculateHSL_chromatic_witness :
  (hue (calculateHSL (220, 60, 50)%Q 100) = 220%Q /\
   saturation (calculateHSL (220, 60, 50)%Q 100) == Qmax 0 (60 - 1) /\
   lightness (calculateHSL (220, 60, 50)%Q 100) == Qmin 94 (50 + 44))%Q.
Proof.
  apply (calculateHSL_chromatic 220 60 50); split; unfold Qle; simpl; lia.
Defined.

(** C8.  For a base colour with saturation below 10, the scale of
    [generateColorScale] has the seven levels 100 to 700 and every record of
    it has the hue of the base. *)
Theorem neutral_scale_keeps_hue (h s l : Q) :
  (s < 10)%Q ->
  map level (generateColorScale (h, s, l)) = [100; 200; 300; 400; 500; 600; 700]%Z /\
  forall record, In record (generateColorScale (h, s, l)) -> hue (hsl record) = h.
Proof.
  intros _. split; [reflexivity|].
  intros record Hin. apply generateColorScale_In in Hin.
  destruct Hin as [lv [_ ->]].
  change (hsl (shadeRecord lv (calculateHSL (h, s, l) lv))) with (calculateHSL (h, s, l) lv).
  apply calculateHSL_hue.
Qed.

Lemma neutral_scale_keeps_hue_witness :
  map level (generateColorScale (0, 0, 50)%Q) = [100; 200; 300; 400; 500; 600; 700]%Z /\
  forall record, In record (generateColorScale (0, 0, 50)%Q) -> hue (hsl record) = 0%Q.
Proof.
  apply (neutral_scale_keeps_hue 0 0 50). reflexivity.
Defined.

Section DarkFacts.

Lemma mapM_nth {A B} (f : A -> option B) xs ys :
  mapM f xs = Some ys ->
  forall i x, nth_error xs i = Some x ->
  exists y, nth_error ys i = Some y /\ f x = Some y.
Proof.
  revert ys. induction xs as [|a xs IH]; intros ys H i x Hi.
  - destruct i; discriminate.
  - cbn [mapM] in H. destruct (f a) as [b|] eqn:Fa; [|discriminate].
    destruct (mapM f xs) as [bs|] eqn:Fs; [|discriminate].
    injection H as <-. destruct i as [|i]; cbn [nth_error] in *.
    + injection Hi as <-. exists b. auto.
    + exact (IH bs eq_refl i x Hi).
Qed.

Lemma mapM_length {A B} (f : A -> option B) xs ys :
  mapM f xs = Some ys -> List.length ys = List.length xs.
Proof.
  revert ys. induction xs as [|a xs IH]; intros ys H.
  - injection H as <-. reflexivity.
  - cbn [mapM] in H. destruct (f a) as [b|]; [|discriminate].
    destruct (mapM f xs) as [bs|]; [|discriminate].
    injection H as <-. cbn [List.length]. f_equal. exact (IH bs eq_refl).
Qed.

Lemma mapM_total {A B} (f : A -> option B) xs :
  (forall x, In x xs -> exists y, f x = Some y) ->
  exists ys, mapM f xs = Some ys.
Proof.
  induction xs as [|a xs IH]; intros H.
  - exists []. reflexivity.
  - destruct (H a (or_introl eq_refl)) as [b Fa].
    destruct IH as [bs Fs]; [intros x Hx; apply H; right; exact Hx|].
    exists (b :: bs). cbn [mapM]. rewrite Fa, Fs. reflexivity.
Qed.

Lemma levelMap_paired lv :
  In lv [100; 200; 300; 500; 600; 700]%Z -> levelMap lv = Some (800 - lv)%Z.
Proof.
  intros H. cbn [In] in H.
  destruct H as [<-|[<-|[<-|[<-|[<-|[<-|[]]]]]]]; reflexivity.
Qed.

(** The scale is produced whenever the basis holds a level-400 record. *)
Lemma generateDarkModeScale_total lightModeScale accessibleScale basis base :
  basisScale lightModeScale accessibleScale = Some basis ->
  findLevel 400 basis = Some base ->
  exists out, generateDarkModeScale lightModeScale accessibleScale = Some out.
Proof.
  intros Hb H400. unfold generateDarkModeScale. rewrite Hb.
  apply mapM_total. intros color _. unfold darkModeHSL.
  destruct (level color =? 400)%Z.
  - rewrite H400. eexists. reflexivity.
  - destruct (match levelMap (level color) with
              | Some reversedLevel => findLevel reversedLevel basis
              | None => None
              end); eexists; reflexivity.
Qed.
End DarkFacts.

(** C5.  In the result of [generateDarkModeScale], the record at level 400
    has the HSL of the basis scale's level-400 record, and the record at any
    other level L of 100 to 700 has the HSL of the basis scale's record at
    the paired level 800 - L, with the saturation multiplied by 1.1 and
    capped at 100, hue and lightness unchanged. *)
Theorem generateDarkModeScale_reverses
    (lightModeScale : list ShadeRecord) (accessibleScale : option (list ShadeRecord))
    (basis out : list ShadeRecord) :
  basisScale lightModeScale accessibleScale = Some basis ->
  generateDarkModeScale lightModeScale accessibleScale = Some out ->
  forall i color, nth_error lightModeScale i = Some color ->
  exists dark,
    nth_error out i = Some dark /\ level dark = level color /\
    (level color = 400%Z ->
       exists base, findLevel 400 basis = Some base /\ hsl dark = hsl base) /\
    (In (level color) [100; 200; 300; 500; 600; 700]%Z ->
       forall reversed, findLevel (800 - level color) basis = Some reversed ->
         hsl dark = (hue (hsl reversed),
                     Qmin (saturation (hsl reversed) * 1.1) 100,
                     lightness (hsl reversed))).
Proof.
  intros Hb Hout i color Hi. unfold generateDarkModeScale in Hout. rewrite Hb in Hout.
  destruct (mapM_nth _ _ _ Hout i color Hi) as [dark [Hd Hf]].
  exists dark. split; [exact Hd|].
  unfold darkModeHSL in Hf.
  destruct (Z.eqb_spec (level color) 400) as [E|E].
  - destruct (findLevel 400 basis) as [base|] eqn:H400; [|discriminate].
    cbn [option_map] in Hf. injection Hf as <-.
    split; [reflexivity|]. split.
    + intros _. exists base. split; reflexivity.
    + intros Hin. rewrite E in Hin. cbn [In] in Hin.
      repeat (destruct Hin as [Hin|Hin]; [discriminate|]). contradiction.
  - split; [|split; [intros E'; contradiction|]].
    + destruct (match levelMap (level color) with
                | Some reversedLevel => findLevel reversedLevel basis
                | None => None
                end); cbn [option_map] in Hf; injection Hf as <-; reflexivity.
    + intros Hin reversed Hrev.
      rewrite (levelMap_paired _ Hin), Hrev in Hf.
      cbn [option_map] in Hf. injection Hf as <-.
      change (hsl (shadeRecord (level color) (adjustForDarkMode (hsl reversed))))
        with (adjustForDarkMode (hsl reversed)).
      destruct (hsl reversed) as [[h0 s0] l0]. reflexivity.
Qed.

Section DarkWitness.
Local Open Scope Q_scope.

Lemma gray46_basis :
  basisScale (generateColorScale (0, 0, inject_Z 46)) None
  = Some (generateColorScale (0, 0, inject_Z 46)).
Proof.
  unfold basisScale. rewrite findLevel_generateColorScale.
  cbn [existsb COLOR_LEVELS orb Z.eqb Pos.eqb]. rewrite calculateHSL_400.
  destruct gray46_accessible as [Hb Hw].
  change (blackPassesNormal (shadeRecord 400 (0, 0, inject_Z 46)))
    with (Rle_bool 4.5 (getContrastRatio (hslToRgb (0, 0, inject_Z 46)) black)).
  change (whitePassesNormal (shadeRecord 400 (0, 0, inject_Z 46)))
    with (Rle_bool 4.5 (getContrastRatio (hslToRgb (0, 0, inject_Z 46)) white)).
  rewrite (proj2 (Rle_bool_true_iff _ _) Hb), (proj2 (Rle_bool_true_iff _ _) Hw).
  reflexivity.
Qed.
End DarkWitness.

Lemma generateDarkModeScale_reverses_witness :
  exists out,
    generateDarkModeScale (generateColorScale (0, 0, inject_Z 46)%Q) None = Some out /\
    forall i color,
      nth_error (generateColorScale (0, 0, inject_Z 46)%Q) i = Some color ->
      exists dark,
        nth_error out i = Some dark /\ level dark = level color /\
        (level color = 400%Z ->
           exists base,
             findLevel 400 (generateColorScale (0, 0, inject_Z 46)%Q) = Some base /\
             hsl dark = hsl base) /\
        (In (level color) [100; 200; 300; 500; 600; 700]%Z ->
           forall reversed,
             findLevel (800 - level color) (generateColorScale (0, 0, inject_Z 46)%Q)
             = Some reversed ->
             hsl dark = (hue (hsl reversed),
                         Qmin (saturation (hsl reversed) * 1.1) 100,
                         lightness (hsl reversed))).
Proof.
  destruct (generateDarkModeScale_total _ None _
              (shadeRecord 400 (0, 0, inject_Z 46)%Q) gray46_basis)
    as [out Hout].
  { rewrite findLevel_generateColorScale. reflexivity. }
  exists out. split; [exact Hout|].
  exact (generateDarkModeScale_reverses _ None _ out gray46_basis Hout).
Defined.

Section ValidHex.
Local Open Scope string_scope.

Lemma isValidHex_iff color :
  isValidHex color = true <->
  exists digits,
    color = String "#" digits /\ allHexDigits digits = true /\
    (String.length digits = 3 \/ String.length digits = 6)%nat.
Proof.
  unfold isValidHex. split.
  - destruct color as [|c digits]; [discriminate|].
    rewrite !andb_true_iff, orb_true_iff, !Nat.eqb_eq.
    intros [[Hc Hlen] Hall]. apply Ascii.eqb_eq in Hc. subst c.
    exists digits. tauto.
  - intros [digits [-> [Hall Hlen]]].
    rewrite Hall, andb_true_r. change (Ascii.eqb "#" "#") with true.
    cbn [andb]. apply orb_true_iff. rewrite !Nat.eqb_eq. tauto.
Qed.

Lemma isValidHex_bare digits :
  allHexDigits digits = true -> isValidHex digits = false.
Proof.
  destruct digits as [|c rest]; [reflexivity|].
  cbn [allHexDigits]. rewrite andb_true_iff. intros [Hc _].
  destruct (isHexDigit_value c Hc) as [v Hv].
  destruct (hexDigit_facts c v Hv) as (_ & N & _).
  unfold isValidHex. rewrite N. reflexivity.
Qed.

Lemma hexToRgb_hash digits :
  allHexDigits digits = true -> hexToRgb (String "#" digits) = hexToRgb digits.
Proof.
  intros Hall. unfold hexToRgb. change (stripHash (String "#" digits)) with digits.
  destruct digits as [|c rest]; [reflexivity|].
  cbn [allHexDigits] in Hall. apply andb_true_iff in Hall. destruct Hall as [Hc _].
  destruct (isHexDigit_value c Hc) as [v Hv].
  destruct (hexDigit_facts c v Hv) as (_ & N & _).
  cbn [stripHash]. rewrite N. reflexivity.
Qed.

Lemma hexToRgb_three c0 c1 c2 v0 v1 v2 :
  hexDigitValue c0 = Some v0 -> hexDigitValue c1 = Some v1 ->
  hexDigitValue c2 = Some v2 ->
  hexToRgb (String c0 (String c1 (String c2 ""))) =
  hexToRgb (String c0 (String c0 (String c1 (String c1 (String c2 (String c2 "")))))) /\
  hexToRgb (String c0 (String c1 (String c2 ""))) =
  (Some (17 * v0)%Z, Some (17 * v1)%Z, Some (17 * v2)%Z).
Proof.
  intros H0 H1 H2.
  destruct (hexDigit_facts c0 v0 H0) as (_ & N & _).
  assert (E : hexToRgb (String c0 (String c1 (String c2 ""))) =
              hexToRgb (String c0 (String c0 (String c1 (String c1
                          (String c2 (String c2 ""))))))).
  { unfold hexToRgb. cbn [stripHash]. rewrite N. reflexivity. }
  split; [exact E|]. rewrite E.
  rewrite (hexToRgb_six _ _ _ _ _ _ _ _ _ _ _ _ H0 H0 H1 H1 H2 H2).
  f_equal; [f_equal|]; f_equal; lia.
Qed.
End ValidHex.

(** C4, amended.  For a string of exactly 3 or 6 hex digits, [isValidHex]
    accepts it with the leading '#' and rejects it without; [hexToRgb]
    reads it alike with or without the '#', into channels between 0 and
    255, a 3-digit form as the 6-digit form with each digit doubled.
    [isValidHex] accepts no other string than '#' and 3 or 6 hex digits. *)
Theorem hex_input_forms (digits : string) :
  allHexDigits digits = true ->
  (String.length digits = 3 \/ String.length digits = 6)%nat ->
  isValidHex (String "#" digits) = true /\
  isValidHex digits = false /\
  hexToRgb (String "#" digits) = hexToRgb digits /\
  (exists r g b,
     hexToRgb digits = (Some r, Some g, Some b) /\
     (0 <= r <= 255 /\ 0 <= g <= 255 /\ 0 <= b <= 255)%Z) /\
  (forall c0 c1 c2, digits = String c0 (String c1 (String c2 EmptyString)) ->
     hexToRgb digits =
     hexToRgb (String c0 (String c0 (String c1 (String c1
                 (String c2 (String c2 EmptyString))))))) /\
  (forall color, isValidHex color = true ->
     exists ds, color = String "#" ds /\ allHexDigits ds = true /\
                (String.length ds = 3 \/ String.length ds = 6)%nat).
Proof.
  intros Hall Hlen.
  split; [apply isValidHex_iff; exists digits; auto|].
  split; [apply isValidHex_bare; exact Hall|].
  split; [apply hexToRgb_hash; exact Hall|].
  split; [|split].
  - destruct Hlen as [Hlen|Hlen].
    + destruct digits as [|c0 [|c1 [|c2 [|c3 rest]]]]; try discriminate.
      cbn [allHexDigits] in Hall. rewrite !andb_true_iff in Hall.
      destruct Hall as (A0 & A1 & A2 & _).
      destruct (isHexDigit_value _ A0) as [v0 E0].
      destruct (isHexDigit_value _ A1) as [v1 E1].
      destruct (isHexDigit_value _ A2) as [v2 E2].
      destruct (hexToRgb_three c0 c1 c2 v0 v1 v2 E0 E1 E2) as [_ E].
      exists (17 * v0)%Z, (17 * v1)%Z, (17 * v2)%Z. split; [exact E|].
      destruct (hexDigit_facts c0 v0 E0) as (_ & _ & _ & _ & _ & _ & R0 & _).
      destruct (hexDigit_facts c1 v1 E1) as (_ & _ & _ & _ & _ & _ & R1 & _).
      destruct (hexDigit_facts c2 v2 E2) as (_ & _ & _ & _ & _ & _ & R2 & _).
      apply andb_true_iff in R0, R1, R2. rewrite Z.leb_le, Z.ltb_lt in R0, R1, R2. lia.
    + destruct (six_digits digits Hlen Hall)
        as (c1 & c2 & c3 & c4 & c5 & c6 & v1 & v2 & v3 & v4 & v5 & v6 & -> &
            H1 & H2 & H3 & H4 & H5 & H6).
      rewrite (hexToRgb_six _ _ _ _ _ _ _ _ _ _ _ _ H1 H2 H3 H4 H5 H6).
      do 3 eexists. split; [reflexivity|].
      destruct (hexDigit_facts c1 v1 H1) as (_ & _ & _ & _ & _ & _ & R1 & _).
      destruct (hexDigit_facts c2 v2 H2) as (_ & _ & _ & _ & _ & _ & R2 & _).
      destruct (hexDigit_facts c3 v3 H3) as (_ & _ & _ & _ & _ & _ & R3 & _).
      destruct (hexDigit_facts c4 v4 H4) as (_ & _ & _ & _ & _ & _ & R4 & _).
      destruct (hexDigit_facts c5 v5 H5) as (_ & _ & _ & _ & _ & _ & R5 & _).
      destruct (hexDigit_facts c6 v6 H6) as (_ & _ & _ & _ & _ & _ & R6 & _).
      pose proof (byte_range v1 v2 R1 R2). pose proof (byte_range v3 v4 R3 R4).
      pose proof (byte_range v5 v6 R5 R6). lia.
  - intros c0 c1 c2 ->.
    cbn [allHexDigits] in Hall. rewrite !andb_true_iff in Hall.
    destruct Hall as (A0 & A1 & A2 & _).
    destruct (isHexDigit_value _ A0) as [v0 E0].
    destruct (isHexDigit_value _ A1) as [v1 E1].
    destruct (isHexDigit_value _ A2) as [v2 E2].
    exact (proj1 (hexToRgb_three c0 c1 c2 v0 v1 v2 E0 E1 E2)).
  - intros color. apply isValidHex_iff.
Qed.

Lemma hex_input_forms_witness :
  isValidHex "#fa0" = true /\
  isValidHex "fa0" = false /\
  hexToRgb "#fa0" = hexToRgb "fa0" /\
  (exists r g b,
     hexToRgb "fa0" = (Some r, Some g, Some b) /\
     (0 <= r <= 255 /\ 0 <= g <= 255 /\ 0 <= b <= 255)%Z) /\
  (forall c0 c1 c2, "fa0"%string = String c0 (String c1 (String c2 EmptyString)) ->
     hexToRgb "fa0" =
     hexToRgb (String c0 (String c0 (String c1 (String c1
                 (String c2 (String c2 EmptyString))))))) /\
  (forall color, isValidHex color = true ->
     exists ds, color = String "#" ds /\ allHexDigits ds = true /\
                (String.length ds = 3 \/ String.length ds = 6)%nat).
Proof.
  apply (hex_input_forms "fa0"); [reflexivity | left; reflexivity].
Defined.

(** C4 as stated fails: strings of 3 or 6 hex digits without the leading
    '#' are rejected by [isValidHex]. *)
Lemma isValidHex_rejects_bare_digits :
  String.length "abc" = 3%nat /\ allHexDigits "abc" = true /\ isValidHex "abc" = false /\
  String.length "3366cc" = 6%nat /\ allHexDigits "3366cc" = true /\
  isValidHex "3366cc" = false.
Proof. repeat split; reflexivity. Qed.

(** * Further properties of the colour pipeline *)

Section DomainFacts.
Local Open Scope Q_scope.

(** [hue2rgb p q] stays between [p] and [q] on the arguments [hslToRgb]
    passes. *)
Lemma hue2rgb_between p q t :
  p <= q -> - (1 # 3) <= t <= 4 # 3 -> p <= hue2rgb p q t <= q.
Proof.
  intros Hpq [H0 H1].
  destruct (Qlt_le_dec t 0) as [A|A].
  { rewrite (hue2rgb_below p q t) by lra. lra. }
  destruct (Qlt_le_dec t (1 # 6)) as [B|B].
  { rewrite (hue2rgb_rise p q t) by lra. split; nra. }
  destruct (Qlt_le_dec t (1 # 2)) as [C|C].
  { rewrite (hue2rgb_top p q t) by lra. lra. }
  destruct (Qlt_le_dec t (2 # 3)) as [D|D].
  { rewrite (hue2rgb_fall p q t) by lra. split; nra. }
  destruct (Qlt_le_dec t 1) as [E|E].
  { rewrite (hue2rgb_bottom p q t) by lra. lra. }
  destruct (Qlt_le_dec t (7 # 6)) as [F|F].
  { rewrite (hue2rgb_above_rise p q t) by lra. split; nra. }
  rewrite (hue2rgb_above_top p q t) by lra. lra.
Qed.

Lemma Math_round_unit c : 0 <= c <= 1 -> (0 <= Math_round (c * 255) <= 255)%Z.
Proof.
  intros [H0 H1]. unfold Math_round.
  assert (A : (Qfloor 0.5 <= Qfloor (c * 255 + 0.5))%Z) by (apply Qfloor_resp_le; lra).
  assert (B : (Qfloor (c * 255 + 0.5) <= Qfloor 255.5)%Z) by (apply Qfloor_resp_le; lra).
  change (Qfloor 0.5) with 0%Z in A. change (Qfloor 255.5) with 255%Z in B. lia.
Qed.

Lemma unitChannels_range h s l :
  0 <= h <= 360 -> 0 <= s <= 100 -> 0 <= l <= 100 ->
  let '(r, g, b) := unitChannels (h, s, l) in
  0 <= r <= 1 /\ 0 <= g <= 1 /\ 0 <= b <= 1.
Proof.
  intros Hh Hs Hl. unfold unitChannels.
  assert (Hh' : 0 <= h / 360 <= 1).
  { assert (E : h / 360 == h * (1 # 360)) by field. rewrite E. lra. }
  assert (Hs' : 0 <= s / 100 <= 1).
  { assert (E : s / 100 == s * (1 # 100)) by field. rewrite E. lra. }
  assert (Hl' : 0 <= l / 100 <= 1).
  { assert (E : l / 100 == l * (1 # 100)) by field. rewrite E. lra. }
  revert Hh' Hs' Hl'. generalize (h / 360) (s / 100) (l / 100).
  clear. intros h s l Hh Hs Hl.
  destruct (Qeq_bool s 0).
  - repeat split; lra.
  - set (q := if Qlt_bool l 0.5 then _ else _).
    assert (Hq : 2 * l - q <= q /\ 0 <= 2 * l - q /\ q <= 1).
    { unfold q. destruct (Qlt_bool l 0.5) eqn:B.
      - apply Qlt_bool_true_iff in B. repeat split; nra.
      - apply Qlt_bool_false_iff in B. repeat split; nra. }
    destruct Hq as (Hpq & Hp & Hq1).
    change (1 / 3) with (1 # 3).
    pose proof (hue2rgb_between (2 * l - q) q (h + (1 # 3)) Hpq ltac:(lra)) as R.
    pose proof (hue2rgb_between (2 * l - q) q h Hpq ltac:(lra)) as G.
    pose proof (hue2rgb_between (2 * l - q) q (h - (1 # 3)) Hpq ltac:(lra)) as B.
    repeat split; lra.
Qed.

Lemma hslToRgb_range h s l :
  0 <= h <= 360 -> 0 <= s <= 100 -> 0 <= l <= 100 ->
  let '(r, g, b) := hslToRgb (h, s, l) in
  (0 <= r <= 255 /\ 0 <= g <= 255 /\ 0 <= b <= 255)%Z.
Proof.
  intros Hh Hs Hl. rewrite hslToRgb_unitChannels.
  pose proof (unitChannels_range h s l Hh Hs Hl) as H.
  destruct (unitChannels (h, s, l)) as [[r g] b]. destruct H as (Hr & Hg & Hb).
  repeat split; apply Math_round_unit; assumption.
Qed.
End DomainFacts.

(** X1.  [hslToRgb] maps every HSL triple of the domain (hue from 0 to
    360, saturation and lightness from 0 to 100) to an RGB triple whose
    three channels are integers between 0 and 255. *)
Theorem hslToRgb_in_gamut (c : HSL) : inDomain c -> inGamut (hslToRgb c).
Proof.
  destruct c as [[h s] l]. unfold inDomain, hue, saturation, lightness. cbn [fst snd].
  intros (Hh & Hs & Hl). unfold inGamut.
  exact (hslToRgb_range h s l Hh Hs Hl).
Qed.

Lemma hslToRgb_in_gamut_witness : inGamut (hslToRgb (195, 60, 55)%Q).
Proof.
  apply (hslToRgb_in_gamut (195, 60, 55)%Q).
  unfold inDomain, hue, saturation, lightness. cbn [fst snd].
  repeat split; unfold Qle; simpl; lia.
Defined.

Section HSLRange.
Local Open Scope Q_scope.

Lemma ratio_unit n d : 0 < d -> 0 <= n <= d -> 0 <= n / d <= 1.
Proof.
  intros Hd Hn. assert (E : n / d * d == n) by (field; lra).
  revert E. generalize (n / d). intros u E. split; nra.
Qed.

Lemma ratio_signed n d : 0 < d -> - d <= n <= d -> -1 <= n / d <= 1.
Proof.
  intros Hd Hn. assert (E : n / d * d == n) by (field; lra).
  revert E. generalize (n / d). intros u E. split; nra.
Qed.

Lemma ratio_neg n d : 0 < d -> n < 0 -> n / d < 0.
Proof.
  intros Hd Hn. assert (E : n / d * d == n) by (field; lra).
  revert E. generalize (n / d). intros u E. nra.
Qed.

Lemma ratio_nonneg n d : 0 < d -> 0 <= n -> 0 <= n / d.
Proof.
  intros Hd Hn. assert (E : n / d * d == n) by (field; lra).
  revert E. generalize (n / d). intros u E. nra.
Qed.

Lemma unitHSL_range x y z :
  0 <= x <= 1 -> 0 <= y <= 1 -> 0 <= z <= 1 ->
  let '(h, s, l) := unitHSL x y z in
  0 <= h < 360 /\ 0 <= s <= 100 /\ 0 <= l <= 100.
Proof.
  intros Hx Hy Hz. unfold unitHSL.
  destruct (max3_spec x y z) as (Mx & My & Mz & HM).
  destruct (min3_spec x y z) as (mx & my & mz & Hm).
  revert Mx My Mz HM mx my mz Hm.
  generalize (Math_max3 x y z) (Math_min3 x y z). intros M m Mx My Mz HM mx my mz Hm.
  cbv zeta.
  assert (Hl : 0 <= (M + m) / 2 * 100 <= 100).
  { assert (E : (M + m) / 2 * 100 == (M + m) * 50) by field. rewrite E.
    destruct HM as [HM|[HM|HM]]; lra. }
  destruct (Qeq_bool M m) eqn:E.
  { repeat split; try lra; reflexivity || (unfold Qlt, Qle; simpl; lia). }
  apply Qeq_bool_false_iff in E.
  assert (Hd : 0 < M - m) by lra.
  assert (HM1 : M <= 1) by (destruct HM as [HM|[HM|HM]]; lra).
  assert (Hm0 : 0 <= m) by (destruct Hm as [Hm|[Hm|Hm]]; lra).
  split; [|split; [|exact Hl]].
  - (* hue *)
    set (H6 := if Qeq_bool M x then _ else _).
    assert (HH : 0 <= H6 < 6).
    { unfold H6. destruct (Qeq_bool M x) eqn:Ex.
      - apply Qeq_bool_iff in Ex. destruct (Qlt_bool y z) eqn:Byz.
        + apply Qlt_bool_true_iff in Byz.
          pose proof (ratio_signed (y - z) (M - m) Hd ltac:(lra)).
          pose proof (ratio_neg (y - z) (M - m) Hd ltac:(lra)). lra.
        + apply Qlt_bool_false_iff in Byz.
          pose proof (ratio_unit (y - z) (M - m) Hd ltac:(lra)). lra.
      - apply Qeq_bool_false_iff in Ex. destruct (Qeq_bool M y) eqn:Ey.
        + apply Qeq_bool_iff in Ey.
          pose proof (ratio_signed (z - x) (M - m) Hd ltac:(lra)). lra.
        + apply Qeq_bool_false_iff in Ey.
          pose proof (ratio_signed (x - y) (M - m) Hd ltac:(lra)). lra. }
    assert (E6 : H6 / 6 * 360 == H6 * 60) by field. rewrite E6. lra.
  - (* saturation *)
    destruct (Qlt_bool 0.5 ((M + m) / 2)) eqn:B.
    + apply Qlt_bool_true_iff in B.
      pose proof (ratio_unit (M - m) (2 - M - m) ltac:(lra) ltac:(lra)). lra.
    + pose proof (ratio_unit (M - m) (M + m) ltac:(lra) ltac:(lra)). lra.
Qed.

Lemma rgbToHSL_range rgb :
  inGamut rgb ->
  0 <= hue (rgbToHSL rgb) < 360 /\ 0 <= saturation (rgbToHSL rgb) <= 100 /\
  0 <= lightness (rgbToHSL rgb) <= 100.
Proof.
  destruct rgb as [[r g] b]. intros (Hr & Hg & Hb).
  rewrite rgbToHSL_unitHSL.
  pose proof (unitHSL_range _ _ _ (unit_channel_bounds r Hr)
                (unit_channel_bounds g Hg) (unit_channel_bounds b Hb)) as H.
  destruct (unitHSL _ _ _) as [[h s] l]. exact H.
Qed.
End HSLRange.

(** X2.  [rgbToHSL] maps every RGB triple with channels between 0 and 255
    into the HSL domain, and the hue it gives is below 360. *)
Theorem rgbToHSL_in_domain (rgb : RGB) :
  inGamut rgb -> inDomain (rgbToHSL rgb) /\ (hue (rgbToHSL rgb) < 360)%Q.
Proof.
  intros H. destruct (rgbToHSL_range rgb H) as (Hh & Hs & Hl).
  unfold inDomain. repeat split; try tauto; apply Qlt_le_weak; tauto.
Qed.

Lemma rgbToHSL_in_domain_witness :
  inDomain (rgbToHSL (51, 102, 204)%Z) /\ (hue (rgbToHSL (51, 102, 204)%Z) < 360)%Q.
Proof.
  apply (rgbToHSL_in_domain (51, 102, 204)%Z). cbn. lia.
Defined.

Section HexOutput.
Local Open Scope string_scope.
Local Open Scope Z_scope.

Lemma hexDigitChar_table :
  forallb (fun v => match hexDigitValue (hexDigitChar v) with
                    | Some v' => v' =? v
                    | None => false
                    end) (int_range 0 15 1) = true.
Proof. vm_compute. reflexivity. Qed.

Lemma hexDigitChar_value v :
  0 <= v < 16 -> hexDigitValue (hexDigitChar v) = Some v.
Proof.
  intros Hv.
  pose proof (proj1 (forallb_forall _ _) hexDigitChar_table v) as T.
  assert (I : In v (int_range 0 15 1)) by (apply int_range_In; lia).
  specialize (T I). cbv beta in T.
  destruct (hexDigitValue (hexDigitChar v)) as [v'|]; [|discriminate T].
  apply Z.eqb_eq in T. congruence.
Qed.

Lemma toHex_digits c :
  0 <= c <= 255 ->
  toHex c = String (hexDigitChar (c / 16)) (String (hexDigitChar (c mod 16)) "").
Proof.
  intros Hc. rewrite (Z.div_mod c 16) at 1 by lia.
  apply toHex_byte.
  - apply andb_true_iff. rewrite Z.leb_le, Z.ltb_lt.
    split; [apply Z.div_pos; lia|apply Z.div_lt_upper_bound; lia].
  - apply andb_true_iff. rewrite Z.leb_le, Z.ltb_lt.
    pose proof (Z.mod_pos_bound c 16). lia.
Qed.

(** The string [hslToHex] builds from three channels between 0 and 255 is
    a valid hex colour and reads back as those channels. *)
Lemma hex_of_channels r g b :
  0 <= r <= 255 -> 0 <= g <= 255 -> 0 <= b <= 255 ->
  isValidHex (String "#" (toHex r ++ toHex g ++ toHex b)) = true /\
  hexToRgb (String "#" (toHex r ++ toHex g ++ toHex b)) = (Some r, Some g, Some b).
Proof.
  intros Hr Hg Hb.
  rewrite (toHex_digits r Hr), (toHex_digits g Hg), (toHex_digits b Hb).
  cbn [append].
  assert (D : forall c, 0 <= c <= 255 -> 0 <= c / 16 < 16 /\ 0 <= c mod 16 < 16).
  { intros c Hc. split.
    - split; [apply Z.div_pos; lia|apply Z.div_lt_upper_bound; lia].
    - apply Z.mod_pos_bound. lia. }
  destruct (D r Hr) as [R1 R2]. destruct (D g Hg) as [G1 G2]. destruct (D b Hb) as [B1 B2].
  pose proof (hexDigitChar_value _ R1) as VR1. pose proof (hexDigitChar_value _ R2) as VR2.
  pose proof (hexDigitChar_value _ G1) as VG1. pose proof (hexDigitChar_value _ G2) as VG2.
  pose proof (hexDigitChar_value _ B1) as VB1. pose proof (hexDigitChar_value _ B2) as VB2.
  split.
  - unfold isValidHex. cbn [String.length allHexDigits]. unfold isHexDigit.
    rewrite VR1, VR2, VG1, VG2, VB1, VB2. reflexivity.
  - rewrite hexToRgb_hash.
    + rewrite (hexToRgb_six _ _ _ _ _ _ _ _ _ _ _ _ VR1 VR2 VG1 VG2 VB1 VB2).
      rewrite <- !Z.div_mod by lia. reflexivity.
    + cbn [allHexDigits]. unfold isHexDigit.
      rewrite VR1, VR2, VG1, VG2, VB1, VB2. reflexivity.
Qed.

Lemma hslToHex_decodes (c : HSL) :
  inDomain c ->
  isValidHex (hslToHex c) = true /\
  hexToRgb (hslToHex c) =
    (Some (fst (fst (hslToRgb c))), Some (snd (fst (hslToRgb c))), Some (snd (hslToRgb c))).
Proof.
  destruct c as [[h s] l]. unfold inDomain, hue, saturation, lightness. cbn [fst snd].
  intros (Hh & Hs & Hl).
  pose proof (hslToRgb_range h s l Hh Hs Hl) as H.
  unfold hslToHex. destruct (hslToRgb (h, s, l)) as [[r g] b].
  destruct H as (Hr & Hg & Hb). cbn [fst snd].
  exact (hex_of_channels r g b Hr Hg Hb).
Qed.

End HexOutput.

(** X3.  For an HSL triple of the domain, the string [hslToHex] returns is
    accepted by [isValidHex], and [hexToRgb] reads it back as the three
    channels of [hslToRgb]. *)
Theorem hslToHex_valid_and_decodes (c : HSL) :
  inDomain c ->
  isValidHex (hslToHex c) = true /\
  hexToRgb (hslToHex c) =
    (Some (fst (fst (hslToRgb c))), Some (snd (fst (hslToRgb c))), Some (snd (hslToRgb c))).
Proof. exact (hslToHex_decodes c). Qed.

Lemma hslToHex_valid_and_decodes_witness :
  isValidHex (hslToHex (195, 60, 55)%Q) = true /\
  hexToRgb (hslToHex (195, 60, 55)%Q) =
    (Some (fst (fst (hslToRgb (195, 60, 55)%Q))),
     Some (snd (fst (hslToRgb (195, 60, 55)%Q))),
     Some (snd (hslToRgb (195, 60, 55)%Q))).
Proof.
  apply (hslToHex_valid_and_decodes (195, 60, 55)%Q).
  unfold inDomain, hue, saturation, lightness. cbn [fst snd].
  repeat split; unfold Qle; simpl; lia.
Defined.

(** X4.  An RGB colour with channels between 0 and 255 survives the trip
    through HSL and a hex string: [hexToHSL] of [hslToHex] of its HSL is
    that HSL again, with no loss. *)
Theorem hexToHSL_hslToHex_rgbToHSL (rgb : RGB) :
  inGamut rgb ->
  hexToHSL (hslToHex (rgbToHSL rgb)) = Some (rgbToHSL rgb).
Proof.
  destruct rgb as [[r g] b]. intros (Hr & Hg & Hb). unfold hexToHSL, hslToHex.
  rewrite (hslToRgb_rgbToHSL r g b Hr Hg Hb).
  rewrite (proj2 (hex_of_channels r g b Hr Hg Hb)). reflexivity.
Qed.

Lemma hexToHSL_hslToHex_rgbToHSL_witness :
  hexToHSL (hslToHex (rgbToHSL (51, 102, 204)%Z)) = Some (rgbToHSL (51, 102, 204)%Z).
Proof.
  apply (hexToHSL_hslToHex_rgbToHSL (51, 102, 204)%Z). cbn. lia.
Defined.

Section TrimFacts.
Local Open Scope string_scope.

Lemma trimStart_length s : (String.length (trimStart s) <= String.length s)%nat.
Proof.
  induction s as [|c s IH]; [apply Nat.le_refl|].
  cbn [trimStart]. destruct (isWhiteSpace c); cbn [String.length]; lia.
Qed.

Lemma trimStart_fixed s :
  trimStart s = s <->
  match s with String c _ => isWhiteSpace c = false | EmptyString => True end.
Proof.
  destruct s as [|c s]; [tauto|]. cbn [trimStart]. destruct (isWhiteSpace c).
  - split; [|discriminate]. intros E.
    pose proof (trimStart_length s) as L. rewrite E in L. cbn [String.length] in L. lia.
  - tauto.
Qed.

Lemma trimStart_idempotent s : trimStart (trimStart s) = trimStart s.
Proof.
  induction s as [|c s IH]; [reflexivity|].
  cbn [trimStart]. destruct (isWhiteSpace c) eqn:W; [exact IH|].
  cbn [trimStart]. rewrite W. reflexivity.
Qed.

Lemma trimEnd_cons c s :
  trimEnd (String c s) =
  match trimEnd s with
  | "" => if isWhiteSpace c then "" else String c ""
  | t => String c t
  end.
Proof. reflexivity. Qed.

Lemma trimEnd_idempotent s : trimEnd (trimEnd s) = trimEnd s.
Proof.
  induction s as [|c s IH]; [reflexivity|].
  rewrite trimEnd_cons. destruct (trimEnd s) as [|d t] eqn:E.
  - destruct (isWhiteSpace c) eqn:W; [reflexivity|].
    rewrite trimEnd_cons. cbn [trimEnd]. rewrite W. reflexivity.
  - rewrite trimEnd_cons, IH. reflexivity.
Qed.

Lemma trimEnd_keeps_start s :
  trimStart s = s -> trimStart (trimEnd s) = trimEnd s.
Proof.
  intros H. apply trimStart_fixed in H. destruct s as [|c s]; [reflexivity|].
  rewrite trimEnd_cons. destruct (trimEnd s); rewrite ?H; cbn [trimStart]; rewrite ?H; reflexivity.
Qed.

Lemma trim_idempotent s : trim (trim s) = trim s.
Proof.
  unfold trim.
  rewrite (trimEnd_keeps_start (trimStart s) (trimStart_idempotent s)).
  apply trimEnd_idempotent.
Qed.

Lemma trim_hash t : trim t = t -> trim (String "#" t) = String "#" t.
Proof.
  unfold trim. intros H.
  assert (E : trimEnd t = t).
  { rewrite <- H at 2. rewrite <- H.
    rewrite (trimEnd_keeps_start (trimStart t) (trimStart_idempotent t)).
    symmetry. rewrite trimEnd_idempotent. reflexivity. }
  cbn [trimStart]. change (isWhiteSpace "#") with false. cbv iota.
  rewrite trimEnd_cons, E. destruct t; reflexivity.
Qed.
End TrimFacts.

Section InputFacts.
Local Open Scope string_scope.

Lemma normalizeHex_cases value :
  (startsWithHash (trim value) = true /\ normalizeHex value = trim value) \/
  (startsWithHash (trim value) = false /\ normalizeHex value = String "#" (trim value)).
Proof.
  unfold normalizeHex. destruct (startsWithHash (trim value)); [left|right]; auto.
Qed.

Lemma hex_not_hash digits :
  allHexDigits digits = true -> startsWithHash digits = false.
Proof.
  destruct digits as [|c rest]; [reflexivity|].
  cbn [allHexDigits startsWithHash]. rewrite andb_true_iff. intros [Hc _].
  destruct (isHexDigit_value c Hc) as [v Hv].
  destruct (hexDigit_facts c v Hv) as (_ & N & _). exact N.
Qed.

Lemma startsWithHash_true s :
  startsWithHash s = true -> exists rest, s = String "#" rest.
Proof.
  destruct s as [|c rest]; [discriminate|]. cbn [startsWithHash].
  intros H. apply Ascii.eqb_eq in H. subst c. exists rest. reflexivity.
Qed.

Lemma normalized_valid_iff text normalized :
  (startsWithHash text = true /\ normalized = text) \/
  (startsWithHash text = false /\ normalized = String "#" text) ->
  (isValidHex normalized = true <-> HexColorText text).
Proof.
  intros H. rewrite isValidHex_iff. unfold HexColorText. split.
  - intros [digits [E [Hall Hlen]]]. exists digits. split; [exact Hall|]. split; [exact Hlen|].
    destruct H as [[_ ->]|[_ ->]]; [right; exact E|left; congruence].
  - intros [digits [Hall [Hlen Ht]]]. exists digits.
    split; [|split; assumption].
    destruct H as [[Hs ->]|[Hs ->]].
    + destruct Ht as [->| ->]; [|reflexivity].
      rewrite (hex_not_hash digits Hall) in Hs. discriminate.
    + destruct Ht as [->| ->]; [reflexivity|discriminate].
Qed.
End InputFacts.

(** X5.  [normalizeHex] always returns a string that starts with '#', and
    normalizing a second time changes nothing. *)
Theorem normalizeHex_idempotent (color : string) :
  startsWithHash (normalizeHex color) = true /\
  normalizeHex (normalizeHex color) = normalizeHex color.
Proof.
  destruct (normalizeHex_cases color) as [[Hs E]|[Hs E]]; rewrite E.
  - split; [exact Hs|]. unfold normalizeHex. rewrite trim_idempotent, Hs. reflexivity.
  - split; [reflexivity|]. unfold normalizeHex at 1.
    rewrite (trim_hash (trim color) (trim_idempotent color)). reflexivity.
Qed.

(** X6.  [handleColorInput] accepts the text of the input field exactly
    when, once trimmed, it is 3 or 6 hex digits with or without a '#' in
    front; [isValidHex] accepts [normalizeHex] of a text under the same
    condition. *)
Theorem acceptsInput_iff (value : string) :
  (acceptsInput value = true <-> HexColorText (trim value)) /\
  (isValidHex (normalizeHex value) = true <-> HexColorText (trim value)).
Proof.
  split.
  - unfold acceptsInput, inputColor.
    destruct (trim value) as [|c rest] eqn:E.
    + split; [discriminate|]. intros [digits [Hall [Hlen Ht]]].
      destruct Ht as [Ht|Ht]; [|discriminate].
      subst digits. destruct Hlen; discriminate.
    + apply normalized_valid_iff.
      destruct (startsWithHash (String c rest)); [left|right]; auto.
  - apply normalized_valid_iff. apply normalizeHex_cases.
Qed.

Section ContrastFacts.
Local Open Scope R_scope.

Lemma linearize_range c : (0 <= c <= 255)%Z -> 0 <= linearize c <= 1.
Proof.
  intros [H0 H1]. destruct (Z_le_gt_dec c 10) as [Hc|Hc].
  - rewrite linearize_low by exact Hc.
    apply IZR_le in H0, Hc. lra.
  - rewrite linearize_high by lia.
    assert (Hn : 0 < IZR (powNum c)) by (apply (IZR_lt 0); unfold powNum; lia).
    assert (Hd : 0 < IZR powDen) by (apply (IZR_lt 0); reflexivity).
    assert (Hy : 0 < IZR (powNum c) / IZR powDen) by (apply Rdiv_lt_0_compat; assumption).
    split; [left; apply exp_pos|].
    apply Rpower_24_upper; [exact Hy|lra|].
    rewrite pow1. rewrite <- (pow1 12). apply pow_incr. split; [lra|].
    apply (Rmult_le_reg_r (IZR powDen)); [exact Hd|].
    unfold Rdiv. rewrite Rmult_assoc, Rinv_l, Rmult_1_r, Rmult_1_l by lra.
    apply IZR_le. unfold powNum, powDen. lia.
Qed.

Lemma calculateLuminance_range rgb : inGamut rgb -> 0 <= calculateLuminance rgb <= 1.
Proof.
  destruct rgb as [[r g] b]. intros (Hr & Hg & Hb). unfold calculateLuminance.
  pose proof (linearize_range r Hr). pose proof (linearize_range g Hg).
  pose proof (linearize_range b Hb). lra.
Qed.

Lemma ratio_bounds lo hi : 0 <= lo -> lo <= hi -> hi <= 1 ->
  1 <= (hi + 0.05) / (lo + 0.05) <= 21.
Proof.
  intros H0 H1 H2. assert (Hp : 0 < lo + 0.05) by lra. split.
  - apply (Rmult_le_reg_r (lo + 0.05)); [exact Hp|].
    unfold Rdiv. rewrite Rmult_assoc, Rinv_l, Rmult_1_r by lra. lra.
  - apply (Rmult_le_reg_r (lo + 0.05)); [exact Hp|].
    unfold Rdiv. rewrite Rmult_assoc, Rinv_l, Rmult_1_r by lra. lra.
Qed.

Lemma getContrastRatio_bounds rgb1 rgb2 :
  inGamut rgb1 -> inGamut rgb2 -> 1 <= getContrastRatio rgb1 rgb2 <= 21.
Proof.
  intros H1 H2.
  pose proof (calculateLuminance_range rgb1 H1) as L1.
  pose proof (calculateLuminance_range rgb2 H2) as L2.
  unfold getContrastRatio. cbv zeta. apply ratio_bounds.
  - apply Rmin_glb; lra.
  - apply Rminmax.
  - apply Rmax_lub; lra.
Qed.
End ContrastFacts.

(** X7.  For two RGB colours with channels between 0 and 255 the contrast
    ratio lies between 1 and 21, does not depend on the order of the two
    colours, and is 1 for a colour against itself. *)
Theorem getContrastRatio_range (rgb1 rgb2 : RGB) :
  inGamut rgb1 -> inGamut rgb2 ->
  (1 <= getContrastRatio rgb1 rgb2 <= 21)%R /\
  getContrastRatio rgb1 rgb2 = getContrastRatio rgb2 rgb1 /\
  getContrastRatio rgb1 rgb1 = 1%R.
Proof.
  intros H1 H2.
  pose proof (calculateLuminance_range rgb1 H1) as L1.
  pose proof (calculateLuminance_range rgb2 H2) as L2.
  split; [exact (getContrastRatio_bounds rgb1 rgb2 H1 H2)|].
  unfold getContrastRatio. cbv zeta. split.
  - rewrite (Rmax_comm (calculateLuminance rgb1)), (Rmin_comm (calculateLuminance rgb1)).
    reflexivity.
  - rewrite Rmax_left, Rmin_left by lra. field. lra.
Qed.

Lemma getContrastRatio_range_witness :
  (1 <= getContrastRatio (71, 175, 209)%Z white <= 21)%R /\
  getContrastRatio (71, 175, 209)%Z white = getContrastRatio white (71, 175, 209)%Z /\
  getContrastRatio (71, 175, 209)%Z (71, 175, 209)%Z = 1%R.
Proof.
  apply (getContrastRatio_range (71, 175, 209)%Z white); cbn; lia.
Defined.

Section TextFacts.
Local Open Scope R_scope.

(** The two ratios of one colour, against black and against white,
    multiply to 21. *)
Lemma contrast_product rgb :
  inGamut rgb ->
  getContrastRatio rgb black * getContrastRatio rgb white = 21.
Proof.
  intros H. pose proof (calculateLuminance_range rgb H) as [L0 L1].
  rewrite (contrast_black rgb L0), (contrast_white rgb L1).
  generalize dependent (calculateLuminance rgb). intros L L0 L1.
  assert (E : (L + 0.05) * / (L + 0.05) = 1) by (apply Rinv_r; lra).
  unfold Rdiv. revert E. generalize (/ (L + 0.05)). intros u E. nra.
Qed.

Lemma Rlt_bool_true_iff x y : Rlt_bool x y = true <-> x < y.
Proof. unfold Rlt_bool. destruct (Rlt_dec x y); split; intros; auto; discriminate. Qed.

Lemma Rlt_bool_false_iff x y : Rlt_bool x y = false <-> y <= x.
Proof.
  unfold Rlt_bool. destruct (Rlt_dec x y); split; intros; try discriminate; try lra; auto.
Qed.

Lemma preferred_passes rgb :
  inGamut rgb ->
  if Rlt_bool (getContrastRatio rgb black) (getContrastRatio rgb white)
  then 4.5 <= getContrastRatio rgb white
  else 4.5 <= getContrastRatio rgb black.
Proof.
  intros H. pose proof (contrast_product rgb H) as P.
  destruct (getContrastRatio_bounds rgb black H) as [B1 _]; [cbn; lia|].
  destruct (getContrastRatio_bounds rgb white H) as [W1 _]; [cbn; lia|].
  revert P B1 W1.
  generalize (getContrastRatio rgb black) (getContrastRatio rgb white).
  intros cb cw P B1 W1.
  destruct (Rlt_bool cb cw) eqn:E.
  - apply Rlt_bool_true_iff in E. nra.
  - apply Rlt_bool_false_iff in E. nra.
Qed.
End TextFacts.

(** X8.  For every HSL colour of the domain the contrast ratios of its
    record against black and against white multiply to 21, so the text
    colour the record prefers ([preferWhiteText]: white when its ratio is
    the larger, black otherwise) always passes the 4.5 threshold for
    normal text, and the 3.0 threshold for large text with it. *)
Theorem preferred_text_passes (lv : Z) (c : HSL) :
  inDomain c ->
  (blackContrast (shadeRecord lv c) * whiteContrast (shadeRecord lv c) = 21)%R /\
  (if preferWhiteText (shadeRecord lv c)
   then whitePassesNormal (shadeRecord lv c) = true /\
        whitePassesLarge (shadeRecord lv c) = true
   else blackPassesNormal (shadeRecord lv c) = true /\
        blackPassesLarge (shadeRecord lv c) = true).
Proof.
  intros Hc. destruct c as [[h s] l].
  assert (G : inGamut (hslToRgb (h, s, l))).
  { unfold inDomain, hue, saturation, lightness in Hc. cbn [fst snd] in Hc.
    destruct Hc as (Hh & Hs & Hl). exact (hslToRgb_range h s l Hh Hs Hl). }
  cbn [shadeRecord blackContrast whiteContrast preferWhiteText whitePassesNormal
       whitePassesLarge blackPassesNormal blackPassesLarge].
  split; [exact (contrast_product _ G)|].
  pose proof (preferred_passes _ G) as P.
  destruct (Rlt_bool _ _); rewrite !Rle_bool_true_iff; split; lra.
Qed.

Lemma preferred_text_passes_witness :
  (blackContrast (shadeRecord 400 (195, 60, 55)%Q)
   * whiteContrast (shadeRecord 400 (195, 60, 55)%Q) = 21)%R /\
  (if preferWhiteText (shadeRecord 400 (195, 60, 55)%Q)
   then whitePassesNormal (shadeRecord 400 (195, 60, 55)%Q) = true /\
        whitePassesLarge (shadeRecord 400 (195, 60, 55)%Q) = true
   else blackPassesNormal (shadeRecord 400 (195, 60, 55)%Q) = true /\
        blackPassesLarge (shadeRecord 400 (195, 60, 55)%Q) = true).
Proof.
  apply (preferred_text_passes 400 (195, 60, 55)%Q).
  unfold inDomain, hue, saturation, lightness. cbn [fst snd].
  repeat split; unfold Qle; simpl; lia.
Defined.

(** X9.  A colour of the domain is accessible (both ratios at least 4.5)
    exactly when its relative luminance lies in the narrow band from
    0.175 to 11/60. *)
Theorem Accessible_luminance_band (c : HSL) :
  inDomain c ->
  (Accessible c <->
   (0.175 <= calculateLuminance (hslToRgb c) <= 11 / 60)%R).
Proof.
  intros Hc. destruct c as [[h s] l].
  assert (G : inGamut (hslToRgb (h, s, l))).
  { unfold inDomain, hue, saturation, lightness in Hc. cbn [fst snd] in Hc.
    destruct Hc as (Hh & Hs & Hl). exact (hslToRgb_range h s l Hh Hs Hl). }
  pose proof (calculateLuminance_range _ G) as [L0 L1].
  unfold Accessible.
  rewrite (contrast_black _ L0), (contrast_white _ L1).
  rewrite (black_threshold _ L0), (white_threshold _ L0). tauto.
Qed.

Lemma Accessible_luminance_band_witness :
  Accessible (0, 0, inject_Z 46)%Q <->
  (0.175 <= calculateLuminance (hslToRgb (0, 0, inject_Z 46)%Q) <= 11 / 60)%R.
Proof.
  apply (Accessible_luminance_band (0, 0, inject_Z 46)%Q).
  unfold inDomain, hue, saturation, lightness. cbn [fst snd].
  repeat split; unfold Qle; simpl; lia.
Defined.

Section LoopFacts.
Local Open Scope Q_scope.



End LoopFacts.



Section SearchSpace.
Local Open Scope Q_scope.

Lemma fallbackHSL_not_Accessible : ~ Accessible fallbackHSL.
Proof.
  intros H.
  pose proof (proj1 (decideBoth_sound _ _ decide_teal) H) as F.
  clear - F. discriminate F.
Qed.

Lemma for_values_bounds fuel : forall x hi step y,
  0 <= step -> In y (for_values fuel x hi step) -> x <= y <= hi.
Proof.
  induction fuel as [|fuel IH]; intros x hi step y Hs H; [contradiction|].
  cbn [for_values] in H. destruct (Qle_bool x hi) eqn:B; [|contradiction].
  apply Qle_bool_iff in B. destruct H as [<-|H]; [lra|].
  destruct (IH _ _ _ _ Hs H). lra.
Qed.

Lemma js_rem_360 x : 0 <= x -> 0 <= js_rem x 360 < 360.
Proof.
  intros Hx. unfold js_rem, Qtrunc.
  assert (E : x / 360 == x * (1 # 360)) by field.
  assert (Hq : 0 <= x / 360) by (rewrite E; lra).
  rewrite (proj2 (Qle_bool_iff 0 (x / 360)) Hq).
  pose proof (Qfloor_le (x / 360)) as F1. pose proof (Qlt_floor (x / 360)) as F2.
  rewrite inject_Z_plus in F2. change (inject_Z 1) with 1 in F2.
  assert (E' : x == 360 * (x / 360)) by field.
  revert F1 F2 E'. generalize (inject_Z (Qfloor (x / 360))) (x / 360).
  intros k u F1 F2 E'. lra.
Qed.

(** The shape of the candidates: an integer lightness from 45 to 65, the
    hue of the original or a hue the remainder brings into [0, 360), a
    saturation within [0, 100] when that of the original is. *)
Lemma allCandidates_shape h s l c :
  In c (allCandidates (h, s, l)) ->
  (exists n, (45 <= n <= 65)%Z /\ lightness c = inject_Z n) /\
  (0 <= h -> hue c = h \/ 0 <= hue c < 360) /\
  (0 <= s <= 100 -> 0 <= saturation c <= 100).
Proof.
  unfold allCandidates. intros Hc.
  apply in_app_or in Hc. destruct Hc as [Hc|Hc].
  - apply phase1Candidates_In in Hc. destruct Hc as [n [Hn ->]].
    unfold hue, saturation, lightness. cbn [fst snd].
    split; [exists n; auto|]. split; intros; [left; reflexivity|lra].
  - apply in_app_or in Hc. destruct Hc as [Hc|Hc].
    + unfold phase2Candidates in Hc. apply in_flat_map in Hc.
      destruct Hc as [n [Hn Hc]]. apply in_map_iff in Hc. destruct Hc as [x [<- Hx]].
      unfold hue, saturation, lightness. cbn [fst snd].
      apply (int_range_bounds 45 65 1) in Hn; [|lia].
      split; [exists n; auto|]. split; [intros; left; reflexivity|]. intros Hs.
      apply for_values_bounds in Hx; [|lra].
      pose proof (Q.le_max_l 0 (s - 20)). pose proof (Q.le_min_l 100 (s + 20)). lra.
    + unfold phase3Candidates in Hc. apply in_flat_map in Hc.
      destruct Hc as [k [Hk Hc]]. apply in_flat_map in Hc.
      destruct Hc as [n [Hn Hc]]. apply in_map_iff in Hc. destruct Hc as [x [<- Hx]].
      unfold hue, saturation, lightness. cbn [fst snd].
      apply (int_range_bounds 45 65 2) in Hn; [|lia].
      apply (int_range_bounds (-30) 30 5) in Hk; [|lia].
      split; [exists n; auto|]. split.
      * intros H0. right. apply js_rem_360.
        assert (-30 <= inject_Z k) by (rewrite <- (Zle_Qle (-30)); lia). lra.
      * intros Hs. apply for_values_bounds in Hx; [|lra].
        pose proof (Q.le_max_l 0 (s - 30)). pose proof (Q.le_min_l 100 (s + 30)). lra.
Qed.
End SearchSpace.

Lemma findAccessibleColor_cases (originalHSL : HSL) :
  (findAccessibleColor originalHSL = fallbackHSL /\
   forall c, In c (allCandidates originalHSL) -> ~ Accessible c)
  \/ (In (findAccessibleColor originalHSL) (allCandidates originalHSL) /\
      Accessible (findAccessibleColor originalHSL)).
Proof.
  unfold findAccessibleColor.
  destruct (findAccessibleColorWith_cases passesBoth originalHSL) as [[E Hall]|[Hin Hp]].
  - left. split; [exact E|]. intros c Hc Ha. apply passesBoth_true_iff in Ha.
    rewrite (Hall c Hc) in Ha. discriminate.
  - right. split; [exact Hin|]. apply passesBoth_true_iff. exact Hp.
Qed.

(** X11.  The colour [findAccessibleColor] returns is accessible exactly
    when some candidate of its three phases is accessible: the search
    misses no accessible candidate, and the fallback, returned when there
    is none, is itself not accessible. *)
Theorem findAccessibleColor_accessible_iff (originalHSL : HSL) :
  Accessible (findAccessibleColor originalHSL) <->
  exists c, In c (allCandidates originalHSL) /\ Accessible c.
Proof.
  destruct (findAccessibleColor_cases originalHSL) as [[E Hall]|[Hin Ha]].
  - rewrite E. split.
    + intros H. exfalso. exact (fallbackHSL_not_Accessible H).
    + intros [c [Hc Ha]]. exfalso. exact (Hall c Hc Ha).
  - split; [|intros _; exact Ha].
    intros _. eexists. split; [exact Hin|exact Ha].
Qed.

Lemma findAccessibleColor_keeps (h s : Q) (n : Z) :
  (45 <= n <= 65)%Z -> Accessible (h, s, inject_Z n) ->
  findAccessibleColor (h, s, inject_Z n) = (h, s, inject_Z n).
Proof.
  intros Hn Ha. unfold findAccessibleColor.
  destruct (findAccessibleColorWith_phase1 passesBoth h s (inject_Z n))
    as (best & Hres & _ & Hin & _ & Hmin).
  { exists (h, s, inject_Z n). split.
    - apply phase1Candidates_In. exists n. auto.
    - apply passesBoth_true_iff. exact Ha. }
  rewrite Hres.
  apply phase1Candidates_In in Hin. destruct Hin as [b [Hb ->]].
  assert (Hd := Hmin (h, s, inject_Z n)).
  unfold distance1 in Hd.
  assert (In (h, s, inject_Z n) (phase1Candidates h s)) as I
    by (apply phase1Candidates_In; exists n; auto).
  specialize (Hd I (proj2 (passesBoth_true_iff _) Ha)).
  assert (E0 : (inject_Z n - inject_Z n == 0)%Q) by ring.
  rewrite E0 in Hd. change (Qabs 0) with 0%Q in Hd.
  apply Qabs_Qle_condition in Hd.
  assert (Eq : (inject_Z n - inject_Z b == 0)%Q) by lra.
  assert (b = n).
  { assert (Eq' : (inject_Z b == inject_Z n)%Q) by lra.
    unfold Qeq, inject_Z in Eq'. simpl in Eq'. lia. }
  subst b. reflexivity.
Qed.

(** X12.  An accessible colour whose lightness is an integer from 45 to 65
    is returned unchanged by [findAccessibleColor]. *)
Theorem findAccessibleColor_fixes_accessible (h s : Q) (n : Z) :
  (45 <= n <= 65)%Z -> Accessible (h, s, inject_Z n) ->
  findAccessibleColor (h, s, inject_Z n) = (h, s, inject_Z n).
Proof. exact (findAccessibleColor_keeps h s n). Qed.

Lemma findAccessibleColor_fixes_accessible_witness :
  findAccessibleColor (0, 0, inject_Z 46)%Q = (0, 0, inject_Z 46)%Q.
Proof.
  apply (findAccessibleColor_fixes_accessible 0 0 46); [lia|exact gray46_accessible].
Defined.

(** X13.  Whenever the colour [findAccessibleColor] returns is accessible,
    searching again from that colour returns it unchanged. *)
Theorem findAccessibleColor_idempotent (originalHSL : HSL) :
  Accessible (findAccessibleColor originalHSL) ->
  findAccessibleColor (findAccessibleColor originalHSL) = findAccessibleColor originalHSL.
Proof.
  destruct originalHSL as [[h s] l].
  destruct (findAccessibleColor_cases (h, s, l)) as [[E _]|[Hin _]].
  - rewrite E. intros Ha. exfalso. exact (fallbackHSL_not_Accessible Ha).
  - destruct (allCandidates_shape h s l _ Hin) as ((n & Hn & En) & _).
    revert En. generalize (findAccessibleColor (h, s, l)). intros [[h' s'] l'] En Ha.
    unfold lightness in En. cbn [snd] in En. subst l'.
    apply findAccessibleColor_keeps; assumption.
Qed.

Lemma findAccessibleColor_idempotent_witness :
  findAccessibleColor (findAccessibleColor (0, 0, inject_Z 46)%Q)
  = findAccessibleColor (0, 0, inject_Z 46)%Q.
Proof.
  apply (findAccessibleColor_idempotent (0, 0, inject_Z 46)%Q).
  rewrite (findAccessibleColor_keeps 0 0 46 ltac:(lia) gray46_accessible).
  exact gray46_accessible.
Defined.

Lemma findAccessibleColor_inDomain (h s l : Q) :
  (0 <= h <= 360)%Q -> (0 <= s <= 100)%Q ->
  inDomain (findAccessibleColor (h, s, l)) /\
  ((h < 360)%Q -> (hue (findAccessibleColor (h, s, l)) < 360)%Q).
Proof.
  intros Hh Hs.
  destruct (findAccessibleColor_cases (h, s, l)) as [[E _]|[Hin _]].
  - rewrite E. unfold inDomain, hue, saturation, lightness, fallbackHSL. cbn [fst snd].
    repeat split; unfold Qle, Qlt; simpl; lia.
  - destruct (allCandidates_shape h s l _ Hin) as ((n & Hn & En) & Hhue & Hsat).
    pose proof (inject_Z_between n Hn) as Hl.
    unfold inDomain. rewrite En.
    destruct (Hhue (proj1 Hh)) as [Eh|Hr].
    + rewrite Eh. split; [|tauto]. split; [exact Hh|]. split; [exact (Hsat Hs)|]. lra.
    + split; [|intros _; tauto]. split; [lra|]. split; [exact (Hsat Hs)|]. lra.
Qed.

(** X14.  From a colour whose hue is between 0 and 360 and whose
    saturation is between 0 and 100, whatever its lightness,
    [findAccessibleColor] returns a colour of the HSL domain; when the
    hue is below 360 so is the hue returned. *)
Theorem findAccessibleColor_in_domain (h s l : Q) :
  (0 <= h <= 360)%Q -> (0 <= s <= 100)%Q ->
  inDomain (findAccessibleColor (h, s, l)) /\
  ((h < 360)%Q -> (hue (findAccessibleColor (h, s, l)) < 360)%Q).
Proof. exact (findAccessibleColor_inDomain h s l). Qed.

Lemma findAccessibleColor_in_domain_witness :
  inDomain (findAccessibleColor (60, 100, 50)%Q) /\
  ((60 < 360)%Q -> (hue (findAccessibleColor (60, 100, 50)%Q) < 360)%Q).
Proof.
  apply (findAccessibleColor_in_domain 60 100 50); split; unfold Qle, Qlt; simpl; lia.
Defined.

Section ClampFacts.
Local Open Scope Q_scope.

Lemma clamp100_range x : 0 <= clamp100 x <= 100.
Proof.
  unfold clamp100. split; [apply Q.le_max_l|].
  apply Q.max_lub; [unfold Qle; simpl; lia|apply Q.le_min_l].
Qed.

Lemma clamp100_mono x y : x <= y -> clamp100 x <= clamp100 y.
Proof.
  intros H. unfold clamp100.
  apply Q.max_le_compat_l. apply Q.min_le_compat_l. exact H.
Qed.

Lemma calculateHSL_clamped h s l lv :
  lv <> 400%Z ->
  exists newS newL, calculateHSL (h, s, l) lv = (h, clamp100 newS, clamp100 newL).
Proof.
  intros Hlv. unfold calculateHSL.
  replace (lv =? 400)%Z with false by (symmetry; apply Z.eqb_neq; exact Hlv).
  destruct (Qlt_bool s 10); destruct (lv <? 400)%Z; eexists; eexists; reflexivity.
Qed.
End ClampFacts.

Lemma calculateHSL_inDomain (base : HSL) (lv : Z) :
  inDomain base -> inDomain (calculateHSL base lv).
Proof.
  intros Hb. destruct (Z.eq_dec lv 400) as [->|Hlv].
  - rewrite calculateHSL_400. exact Hb.
  - destruct base as [[h s] l].
    destruct (calculateHSL_clamped h s l lv Hlv) as (newS & newL & ->).
    destruct Hb as (Hh & _ & _). unfold inDomain, hue, saturation, lightness in *.
    cbn [fst snd] in *. split; [exact Hh|]. split; apply clamp100_range.
Qed.

Lemma shadeRecord_WellFormed (lv : Z) (c : HSL) :
  inDomain c -> WellFormed (shadeRecord lv c).
Proof.
  intros Hd. unfold WellFormed.
  change (hsl (shadeRecord lv c)) with c.
  change (rgb (shadeRecord lv c)) with (hslToRgb c).
  change (hex (shadeRecord lv c)) with (hslToHex c).
  destruct (hslToHex_decodes c Hd) as [Hv Hdec].
  split; [exact Hd|]. split; [reflexivity|].
  split; [|split; [reflexivity|split; [exact Hv|exact Hdec]]].
  clear Hv Hdec.
  destruct c as [[h s] l]. destruct Hd as (Hh & Hs & Hl).
  unfold hue, saturation, lightness in *. cbn [fst snd] in *.
  exact (hslToRgb_range h s l Hh Hs Hl).
Qed.

(** X15.  [calculateHSL] keeps the hue of the base colour at every level,
    and from a base colour of the HSL domain it gives a colour of the
    domain at every level, listed or not. *)
Theorem calculateHSL_in_domain (base : HSL) (lv : Z) :
  inDomain base ->
  inDomain (calculateHSL base lv) /\ hue (calculateHSL base lv) = hue base.
Proof.
  intros Hb. split; [exact (calculateHSL_inDomain base lv Hb)|].
  destruct base as [[h s] l]. apply calculateHSL_hue.
Qed.

Lemma calculateHSL_in_domain_witness :
  inDomain (calculateHSL (220, 60, 50)%Q 100) /\
  hue (calculateHSL (220, 60, 50)%Q 100) = hue (220, 60, 50)%Q.
Proof.
  apply (calculateHSL_in_domain (220, 60, 50)%Q 100).
  unfold inDomain, hue, saturation, lightness. cbn [fst snd].
  repeat split; unfold Qle; simpl; lia.
Defined.

(** X16.  Every record of the scale [generateColorScale] builds from a
    base colour of the HSL domain carries one of the seven levels, the
    HSL [calculateHSL] gives for that level, and fields that agree: the
    RGB and the hex string are the conversions of the HSL, the RGB lies in
    the gamut, the hex string is valid and reads back as the RGB. *)
Theorem generateColorScale_records (base : HSL) (record : ShadeRecord) :
  inDomain base -> In record (generateColorScale base) ->
  In (level record) COLOR_LEVELS /\
  hsl record = calculateHSL base (level record) /\
  WellFormed record.
Proof.
  intros Hb Hin. apply generateColorScale_In in Hin. destruct Hin as [lv [Hlv ->]].
  change (level (shadeRecord lv (calculateHSL base lv))) with lv.
  change (hsl (shadeRecord lv (calculateHSL base lv))) with (calculateHSL base lv).
  split; [exact Hlv|]. split; [reflexivity|].
  apply shadeRecord_WellFormed. apply calculateHSL_inDomain. exact Hb.
Qed.

Lemma generateColorScale_records_witness :
  In (level (shadeRecord 100 (calculateHSL (220, 60, 50)%Q 100))) COLOR_LEVELS /\
  hsl (shadeRecord 100 (calculateHSL (220, 60, 50)%Q 100))
  = calculateHSL (220, 60, 50)%Q
      (level (shadeRecord 100 (calculateHSL (220, 60, 50)%Q 100))) /\
  WellFormed (shadeRecord 100 (calculateHSL (220, 60, 50)%Q 100)).
Proof.
  apply (generateColorScale_records (220, 60, 50)%Q).
  - unfold inDomain, hue, saturation, lightness. cbn [fst snd].
    repeat split; unfold Qle; simpl; lia.
  - left. reflexivity.
Defined.

Section Monotone.
Local Open Scope Q_scope.

(** The lightness of a level other than 400: the clamped interpolation
    from the base toward [light] below 400 and toward [dark] above. *)
Lemma calculateHSL_lightness h s l lv :
  lv <> 400%Z ->
  let light := if Qlt_bool s 10 then 95 else Qmin 94 (l + 44) in
  let dark := if Qlt_bool s 10 then 28 else Qmax 24 (l - 26) in
  lightness (calculateHSL (h, s, l) lv) ==
  if (lv <? 400)%Z then clamp100 (l + inject_Z (400 - lv) / 300 * (light - l))
  else clamp100 (l - inject_Z (lv - 400) / 300 * (l - dark)).
Proof.
  intros Hlv. unfold calculateHSL.
  replace (lv =? 400)%Z with false by (symmetry; apply Z.eqb_neq; exact Hlv).
  destruct (Qlt_bool s 10); destruct (lv <? 400)%Z; unfold lightness; cbn [snd];
    apply clamp100_comp; ring.
Qed.
End Monotone.

(** X17.  For a base colour whose lightness is between 28 and 94, the
    lightness of the scale never increases from level 100 to level 700,
    whatever the hue and the saturation. *)
Theorem scale_lightness_decreasing (h s l : Q) :
  (28 <= l <= 94)%Q ->
  let L := fun lv => lightness (calculateHSL (h, s, l) lv) in
  (L 700%Z <= L 600%Z /\ L 600%Z <= L 500%Z /\ L 500%Z <= L 400%Z /\
   L 400%Z <= L 300%Z /\ L 300%Z <= L 200%Z /\ L 200%Z <= L 100%Z)%Q.
Proof.
  intros Hl L. unfold L.
  rewrite (calculateHSL_lightness h s l 700), (calculateHSL_lightness h s l 600),
    (calculateHSL_lightness h s l 500), (calculateHSL_lightness h s l 300),
    (calculateHSL_lightness h s l 200), (calculateHSL_lightness h s l 100) by lia.
  rewrite calculateHSL_400. unfold lightness. cbn [snd].
  change (700 <? 400)%Z with false. change (600 <? 400)%Z with false.
  change (500 <? 400)%Z with false. change (300 <? 400)%Z with true.
  change (200 <? 400)%Z with true. change (100 <? 400)%Z with true.
  cbv iota.
  change (inject_Z (400 - 300) / 300)%Q with (100 # 300)%Q.
  change (inject_Z (400 - 200) / 300)%Q with (200 # 300)%Q.
  change (inject_Z (400 - 100) / 300)%Q with (300 # 300)%Q.
  change (inject_Z (500 - 400) / 300)%Q with (100 # 300)%Q.
  change (inject_Z (600 - 400) / 300)%Q with (200 # 300)%Q.
  change (inject_Z (700 - 400) / 300)%Q with (300 # 300)%Q.
  set (light := if Qlt_bool s 10 then 95 else Qmin 94 (l + 44)).
  set (dark := if Qlt_bool s 10 then 28 else Qmax 24 (l - 26)).
  assert (Hlight : (l <= light)%Q).
  { unfold light. destruct (Qlt_bool s 10); [lra|].
    destruct (Q.min_spec 94 (l + 44)) as [[? ->]|[? ->]]; lra. }
  assert (Hdark : (dark <= l)%Q).
  { unfold dark. destruct (Qlt_bool s 10); [lra|].
    destruct (Q.max_spec 24 (l - 26)) as [[? ->]|[? ->]]; lra. }
  assert (Hid : (clamp100 l == l)%Q) by (apply clamp100_id; lra).
  repeat split.
  - apply clamp100_mono. lra.
  - apply clamp100_mono. lra.
  - apply (Qle_trans _ (clamp100 l)); [apply clamp100_mono; lra|].
    apply Qle_lteq. right. exact Hid.
  - apply (Qle_trans _ (clamp100 l)); [|apply clamp100_mono; lra].
    apply Qle_lteq. right. symmetry. exact Hid.
  - apply clamp100_mono. lra.
  - apply clamp100_mono. lra.
Qed.

Lemma scale_lightness_decreasing_witness :
  let L := fun lv => lightness (calculateHSL (220, 60, 50)%Q lv) in
  (L 700%Z <= L 600%Z /\ L 600%Z <= L 500%Z /\ L 500%Z <= L 400%Z /\
   L 400%Z <= L 300%Z /\ L 300%Z <= L 200%Z /\ L 200%Z <= L 100%Z)%Q.
Proof.
  apply (scale_lightness_decreasing 220 60 50). split; unfold Qle; simpl; lia.
Defined.

(** X18.  For a chromatic base colour (saturation at least 10) lighter
    than 94, level 100 has lightness 94: the lightest level of the scale
    is darker than the base colour at level 400. *)
Theorem light_end_darker_than_base (h s l : Q) :
  (10 <= s)%Q -> (94 < l <= 100)%Q ->
  (lightness (calculateHSL (h, s, l) 100) == 94 /\
   lightness (calculateHSL (h, s, l) 100) < lightness (calculateHSL (h, s, l) 400))%Q.
Proof.
  intros Hs Hl. rewrite calculateHSL_400.
  rewrite (calculateHSL_lightness h s l 100) by lia.
  replace (Qlt_bool s 10) with false by (symmetry; apply Qlt_bool_false_iff; exact Hs).
  change (100 <? 400)%Z with true. cbv iota.
  change (inject_Z (400 - 100) / 300)%Q with (300 # 300)%Q.
  unfold lightness. cbn [snd].
  assert (E : (Qmin 94 (l + 44) == 94)%Q) by (apply Q.min_l; lra).
  assert (E2 : (l + (300 # 300) * (Qmin 94 (l + 44) - l) == 94)%Q) by (rewrite E; ring).
  rewrite (clamp100_comp _ _ E2), (clamp100_id 94) by lra. split; [reflexivity|lra].
Qed.

Lemma light_end_darker_than_base_witness :
  (lightness (calculateHSL (60, 100, 97)%Q 100) == 94 /\
   lightness (calculateHSL (60, 100, 97)%Q 100)
   < lightness (calculateHSL (60, 100, 97)%Q 400))%Q.
Proof.
  apply (light_end_darker_than_base 60 100 97);
    [|split]; unfold Qle, Qlt; simpl; lia.
Defined.

Section DarkMore.

Lemma mapM_None {A B} (f : A -> option B) xs :
  mapM f xs = None <-> exists x, In x xs /\ f x = None.
Proof.
  induction xs as [|a xs IH].
  - split; [discriminate|]. intros [x [[] _]].
  - cbn [mapM]. destruct (f a) as [b|] eqn:Fa.
    + destruct (mapM f xs) as [bs|] eqn:Fs.
      * split; [discriminate|]. intros [x [[<-|Hx] Hf]]; [congruence|].
        assert (E : Some bs = None) by (apply (proj2 IH); exists x; auto).
        discriminate E.
      * split; [|reflexivity]. intros _.
        destruct (proj1 IH eq_refl) as [x [Hx Hf]]. exists x. split; [right|]; assumption.
    + split; [|reflexivity]. intros _. exists a. split; [left; reflexivity|exact Fa].
Qed.

Lemma mapM_levels basis ls out :
  mapM (fun color => option_map (shadeRecord (level color)) (darkModeHSL basis color)) ls
  = Some out ->
  map level out = map level ls.
Proof.
  revert out. induction ls as [|c ls IH]; intros out H.
  - injection H as <-. reflexivity.
  - cbn [mapM] in H. destruct (darkModeHSL basis c) as [x|]; [|discriminate].
    cbn [option_map] in H.
    destruct (mapM _ ls) as [ys|]; [|discriminate].
    injection H as <-. cbn [map]. f_equal. exact (IH ys eq_refl).
Qed.

Lemma darkModeHSL_None basis color :
  darkModeHSL basis color = None <->
  level color = 400%Z /\ findLevel 400 basis = None.
Proof.
  unfold darkModeHSL. destruct (Z.eqb_spec (level color) 400) as [E|E].
  - destruct (findLevel 400 basis); cbn [option_map]; split;
      try discriminate; try tauto. intros [_ H]. discriminate.
  - destruct (match levelMap (level color) with
              | Some reversedLevel => findLevel reversedLevel basis
              | None => None
              end); split; try discriminate; tauto.
Qed.

Lemma findLevel_some lv scale record :
  findLevel lv scale = Some record -> In record scale /\ level record = lv.
Proof.
  unfold findLevel. intros H. apply find_some in H. destruct H as [Hin Hl].
  apply Z.eqb_eq in Hl. auto.
Qed.

Lemma basisScale_None ls acc :
  basisScale ls acc = None <-> findLevel 400 ls = None.
Proof.
  unfold basisScale. destruct (findLevel 400 ls) as [base400|].
  - destruct (blackPassesNormal base400 && whitePassesNormal base400);
      [|destruct acc]; split; discriminate.
  - tauto.
Qed.
End DarkMore.

(** X19.  [generateDarkModeScale] throws in exactly two cases: the
    light-mode scale has no level-400 record, or the scale chosen as the
    basis of the reversal has none.  In every other case it returns a
    scale. *)
Theorem generateDarkModeScale_throws_iff
    (lightScale : list ShadeRecord) (accessible : option (list ShadeRecord)) :
  generateDarkModeScale lightScale accessible = None <->
  findLevel 400 lightScale = None \/
  exists basis, basisScale lightScale accessible = Some basis /\
                findLevel 400 basis = None.
Proof.
  unfold generateDarkModeScale.
  destruct (basisScale lightScale accessible) as [basis|] eqn:Hb.
  - rewrite mapM_None. split.
    + intros [color [Hin Hf]]. right. exists basis. split; [reflexivity|].
      destruct (darkModeHSL basis color) eqn:Hd; [discriminate|].
      apply darkModeHSL_None in Hd. tauto.
    + intros [H|[basis' [E H]]].
      * apply (basisScale_None lightScale accessible) in H. congruence.
      * injection E as <-.
        destruct (findLevel 400 lightScale) as [base400|] eqn:H400.
        -- apply findLevel_some in H400. destruct H400 as [Hin Hl].
           exists base400. split; [exact Hin|].
           rewrite (proj2 (darkModeHSL_None basis base400) (conj Hl H)). reflexivity.
        -- apply (basisScale_None lightScale accessible) in H400. congruence.
  - apply basisScale_None in Hb. split; [auto|reflexivity].
Qed.

(** X20.  A dark-mode scale that is returned has the levels of the
    light-mode scale, record by record in the same order, and in each of
    its records the RGB and the hex string are the conversions of the
    HSL. *)
Theorem generateDarkModeScale_levels
    (lightScale : list ShadeRecord) (accessible : option (list ShadeRecord))
    (out : list ShadeRecord) :
  generateDarkModeScale lightScale accessible = Some out ->
  map level out = map level lightScale /\
  forall record, In record out ->
    rgb record = hslToRgb (hsl record) /\ hex record = hslToHex (hsl record).
Proof.
  unfold generateDarkModeScale.
  destruct (basisScale lightScale accessible) as [basis|]; [|discriminate].
  intros H. split; [exact (mapM_levels basis lightScale out H)|].
  intros record Hin. apply In_nth_error in Hin. destruct Hin as [i Hi].
  revert out i H Hi. induction lightScale as [|c ls IH]; intros out i H Hi.
  - injection H as <-. destruct i; discriminate.
  - cbn [mapM] in H. destruct (darkModeHSL basis c) as [x|]; [|discriminate].
    cbn [option_map] in H. destruct (mapM _ ls) as [ys|] eqn:E; [|discriminate].
    injection H as <-. destruct i as [|i]; cbn [nth_error] in Hi.
    + injection Hi as <-. split; reflexivity.
    + exact (IH ys i eq_refl Hi).
Qed.

Lemma generateDarkModeScale_levels_witness :
  exists out,
    generateDarkModeScale (generateColorScale (0, 0, inject_Z 46)%Q) None = Some out /\
    map level out = map level (generateColorScale (0, 0, inject_Z 46)%Q) /\
    forall record, In record out ->
      rgb record = hslToRgb (hsl record) /\ hex record = hslToHex (hsl record).
Proof.
  destruct (generateDarkModeScale_total _ None _
              (shadeRecord 400 (0, 0, inject_Z 46)%Q) gray46_basis)
    as [out Hout].
  { rewrite findLevel_generateColorScale. reflexivity. }
  exists out. split; [exact Hout|].
  exact (generateDarkModeScale_levels _ None out Hout).
Defined.

(** X21.  A light-mode record of a level other than 400 whose level has
    no entry in [levelMap], or whose paired level has no record in the
    basis, keeps its own HSL in the dark-mode scale, without the
    saturation boost. *)
Theorem generateDarkModeScale_missing_pair
    (lightScale : list ShadeRecord) (accessible : option (list ShadeRecord))
    (basis out : list ShadeRecord) (i : nat) (color : ShadeRecord) :
  basisScale lightScale accessible = Some basis ->
  generateDarkModeScale lightScale accessible = Some out ->
  nth_error lightScale i = Some color ->
  level color <> 400%Z ->
  (levelMap (level color) = None \/
   exists paired, levelMap (level color) = Some paired /\ findLevel paired basis = None) ->
  exists dark, nth_error out i = Some dark /\ level dark = level color /\
               hsl dark = hsl color.
Proof.
  intros Hb Hout Hi Hlv Hmiss. unfold generateDarkModeScale in Hout. rewrite Hb in Hout.
  destruct (mapM_nth _ _ _ Hout i color Hi) as [dark [Hd Hf]].
  exists dark. split; [exact Hd|].
  unfold darkModeHSL in Hf.
  replace (level color =? 400)%Z with false in Hf by (symmetry; apply Z.eqb_neq; exact Hlv).
  destruct Hmiss as [E|[paired [E F]]]; rewrite E in Hf; rewrite ?F in Hf;
    cbn [option_map] in Hf; injection Hf as <-; split; reflexivity.
Qed.

Section BasisFacts.

Lemma shadeRecord_accessible lv c :
  blackPassesNormal (shadeRecord lv c) && whitePassesNormal (shadeRecord lv c)
  = passesBoth c.
Proof. reflexivity. Qed.

Lemma basisScale_of_base ls acc c :
  findLevel 400 ls = Some (shadeRecord 400 c) ->
  basisScale ls acc =
  Some (if passesBoth c then ls
        else match acc with
             | Some scale => scale
             | None => generateColorScale (findAccessibleColor c)
             end).
Proof.
  intros H. unfold basisScale. rewrite H, shadeRecord_accessible.
  destruct (passesBoth c); [reflexivity|]. destruct acc; reflexivity.
Qed.

Lemma findLevel_400_generated c :
  findLevel 400 (generateColorScale c) = Some (shadeRecord 400 c).
Proof.
  rewrite findLevel_generateColorScale. cbn [existsb COLOR_LEVELS orb Z.eqb Pos.eqb].
  rewrite calculateHSL_400. reflexivity.
Qed.

Lemma findLevel_dark basis ls out lv :
  mapM (fun color => option_map (shadeRecord (level color)) (darkModeHSL basis color)) ls
  = Some out ->
  findLevel lv out =
  match findLevel lv ls with
  | Some color => option_map (shadeRecord (level color)) (darkModeHSL basis color)
  | None => None
  end.
Proof.
  revert out. induction ls as [|c ls IH]; intros out H.
  - injection H as <-. reflexivity.
  - cbn [mapM] in H. destruct (darkModeHSL basis c) as [x|] eqn:Hx; [|discriminate].
    cbn [option_map] in H. destruct (mapM _ ls) as [ys|]; [|discriminate].
    injection H as <-. unfold findLevel in *. cbn [find].
    change (level (shadeRecord (level c) x)) with (level c).
    destruct (level c =? lv)%Z.
    + rewrite Hx. reflexivity.
    + exact (IH ys eq_refl).
Qed.
End BasisFacts.

(** X22.  For every base colour [updateColorScales] computes its scales
    without a throw: the light-mode scale is [generateColorScale] of the
    base; the base is flagged accessible exactly when it is accessible;
    the accessible scale is absent when it is, and otherwise the scale of
    [findAccessibleColor] of the base; the dark-mode scale has the seven
    levels in order, and its level 400 carries the base colour when that
    is accessible and the colour found by [findAccessibleColor]
    otherwise. *)
Theorem computeScales_spec (hsl400 : HSL) :
  exists scales,
    computeScales hsl400 = Some scales /\
    lightModeScale scales = generateColorScale hsl400 /\
    (isAccessible scales = true <-> Accessible hsl400) /\
    accessibleScale scales =
      (if isAccessible scales then None
       else Some (generateColorScale (findAccessibleColor hsl400))) /\
    map level (darkModeScale scales) = COLOR_LEVELS /\
    option_map hsl (findLevel 400 (darkModeScale scales)) =
      Some (if isAccessible scales then hsl400 else findAccessibleColor hsl400).
Proof.
  unfold computeScales. rewrite findLevel_400_generated. cbv zeta.
  rewrite shadeRecord_accessible.
  set (acc := if negb (passesBoth hsl400) then _ else None).
  set (basis := if passesBoth hsl400 then generateColorScale hsl400
                else generateColorScale (findAccessibleColor hsl400)).
  assert (Hb : basisScale (generateColorScale hsl400) acc = Some basis).
  { rewrite (basisScale_of_base _ acc hsl400 (findLevel_400_generated hsl400)).
    unfold basis, acc. destruct (passesBoth hsl400); reflexivity. }
  assert (H400 : findLevel 400 basis =
                 Some (shadeRecord 400 (if passesBoth hsl400 then hsl400
                                        else findAccessibleColor hsl400))).
  { unfold basis. destruct (passesBoth hsl400); apply findLevel_400_generated. }
  destruct (generateDarkModeScale_total _ acc basis _ Hb H400) as [out Hout].
  rewrite Hout. eexists. split; [reflexivity|]. cbn [lightModeScale isAccessible
    accessibleScale darkModeScale].
  split; [reflexivity|]. split; [apply passesBoth_true_iff|].
  split; [unfold acc; destruct (passesBoth hsl400); reflexivity|].
  unfold generateDarkModeScale in Hout. rewrite Hb in Hout.
  split.
  - rewrite (mapM_levels basis _ out Hout). reflexivity.
  - rewrite (findLevel_dark basis _ out 400 Hout), findLevel_400_generated.
    unfold darkModeHSL. change (level (shadeRecord 400 hsl400) =? 400)%Z with true.
    cbv iota. rewrite H400. cbn [option_map].
    destruct (passesBoth hsl400); reflexivity.
Qed.

Lemma missing_pair_basis :
  basisScale [shadeRecord 400 (0, 0, inject_Z 46)%Q; shadeRecord 100 (0, 0, 90)%Q] None
  = Some [shadeRecord 400 (0, 0, inject_Z 46)%Q; shadeRecord 100 (0, 0, 90)%Q].
Proof.
  rewrite (basisScale_of_base _ None (0, 0, inject_Z 46)%Q) by reflexivity.
  rewrite (proj2 (passesBoth_true_iff _) gray46_accessible). reflexivity.
Qed.

Lemma generateDarkModeScale_missing_pair_witness :
  exists out dark,
    generateDarkModeScale
      [shadeRecord 400 (0, 0, inject_Z 46)%Q; shadeRecord 100 (0, 0, 90)%Q] None
    = Some out /\
    nth_error out 1 = Some dark /\ level dark = 100%Z /\ hsl dark = (0, 0, 90)%Q.
Proof.
  destruct (generateDarkModeScale_total _ None _
              (shadeRecord 400 (0, 0, inject_Z 46)%Q) missing_pair_basis eq_refl)
    as [out Hout].
  destruct (generateDarkModeScale_missing_pair _ None _ out 1
              (shadeRecord 100 (0, 0, 90)%Q) missing_pair_basis Hout eq_refl)
    as [dark Hd].
  - discriminate.
  - right. exists 700%Z. split; reflexivity.
  - exists out, dark. split; [exact Hout|exact Hd].
Defined.

Section NameFacts.
Local Open Scope Q_scope.

Lemma Qle_bool_false x y : Qle_bool x y = false <-> y < x.
Proof.
  split.
  - intros H. destruct (Qlt_le_dec y x) as [|L]; [assumption|].
    apply Qle_bool_iff in L. congruence.
  - intros H. destruct (Qle_bool x y) eqn:E; [|reflexivity].
    apply Qle_bool_iff in E. lra.
Qed.

Ltac decide_bounds :=
  repeat match goal with
  | |- context [Qle_bool ?a ?b] =>
      first [ replace (Qle_bool a b) with true by (symmetry; apply Qle_bool_iff; lra)
            | replace (Qle_bool a b) with false by (symmetry; apply Qle_bool_false; lra) ]
  | |- context [Qlt_bool ?a ?b] =>
      first [ replace (Qlt_bool a b) with true by (symmetry; apply Qlt_bool_true_iff; lra)
            | replace (Qlt_bool a b) with false by (symmetry; apply Qlt_bool_false_iff; lra) ]
  end.

Lemma getGenericColorName_custom h s l :
  getGenericColorName (h, s, l) = "Custom"%string <-> 10 <= s /\ (h < 0 \/ 360 < h).
Proof.
  unfold getGenericColorName.
  destruct (Qlt_le_dec s 10) as [Hs|Hs].
  { decide_bounds. cbv iota. split; [discriminate|]. intros [? _]. lra. }
  destruct (Qlt_le_dec h 0) as [H0|H0].
  { decide_bounds. cbn [andb]. split; auto. }
  destruct (Qlt_le_dec 360 h) as [H360|H360].
  { decide_bounds. cbn [andb]. split; auto. }
  assert (R : forall T : Prop, (T <-> 10 <= s /\ (h < 0 \/ 360 < h)) <-> ~ T).
  { intros T. split.
    - intros E t. apply E in t. lra.
    - intros nT. split; [contradiction|]. intros [_ [?|?]]; lra. }
  apply R. clear R.
  destruct (Qlt_le_dec h 15); [decide_bounds; cbn [andb]; discriminate|].
  destruct (Qlt_le_dec h 45); [decide_bounds; cbn [andb]; discriminate|].
  destruct (Qlt_le_dec h 65); [decide_bounds; cbn [andb]; discriminate|].
  destruct (Qlt_le_dec h 80); [decide_bounds; cbn [andb]; discriminate|].
  destruct (Qlt_le_dec h 150); [decide_bounds; cbn [andb]; discriminate|].
  destruct (Qlt_le_dec h 190); [decide_bounds; cbn [andb]; discriminate|].
  destruct (Qlt_le_dec h 220); [decide_bounds; cbn [andb]; discriminate|].
  destruct (Qlt_le_dec h 255); [decide_bounds; cbn [andb]; discriminate|].
  destruct (Qlt_le_dec h 280); [decide_bounds; cbn [andb]; discriminate|].
  destruct (Qlt_le_dec h 320); [decide_bounds; cbn [andb]; discriminate|].
  destruct (Qlt_le_dec h 340); [decide_bounds; cbn [andb]; discriminate|].
  decide_bounds. cbn [andb]. discriminate.
Qed.
End NameFacts.

(** X23.  [getGenericColorName] answers Neutral exactly when the
    saturation is below 10, and Custom exactly when the saturation is at
    least 10 and the hue is outside the range from 0 to 360: every hue of
    that range falls in one of the twelve named buckets. *)
Theorem getGenericColorName_named (h s l : Q) :
  (getGenericColorName (h, s, l) = "Custom"%string <-> (10 <= s /\ (h < 0 \/ 360 < h))%Q) /\
  (getGenericColorName (h, s, l) = "Neutral"%string <-> (s < 10)%Q).
Proof.
  split; [apply getGenericColorName_custom|].
  unfold getGenericColorName.
  destruct (Qlt_bool s 10) eqn:B.
  - apply Qlt_bool_true_iff in B. tauto.
  - apply Qlt_bool_false_iff in B. split; [|intros; lra].
    repeat match goal with
           | |- context [if ?b then _ else _] => destruct b
           end; discriminate.
Qed.

(** X24.  The HSL [rgbToHSL] computes from an RGB colour with channels
    between 0 and 255 is never named Custom, and a gray (three equal
    channels) is named Neutral. *)
Theorem getGenericColorName_of_rgb (rgb : RGB) :
  inGamut rgb ->
  getGenericColorName (rgbToHSL rgb) <> "Custom"%string /\
  (fst (fst rgb) = snd (fst rgb) -> snd (fst rgb) = snd rgb ->
   getGenericColorName (rgbToHSL rgb) = "Neutral"%string).
Proof.
  intros H. pose proof (rgbToHSL_range rgb H) as (Hh & Hs & Hl). split.
  - revert Hh Hs Hl. unfold hue, saturation, lightness.
    destruct (rgbToHSL rgb) as [[h s] l]. cbn [fst snd]. intros Hh Hs Hl E.
    apply getGenericColorName_custom in E. lra.
  - destruct rgb as [[r g] b]. cbn [fst snd]. intros <- <-.
    unfold rgbToHSL. cbv zeta.
    assert (E : Qeq_bool (Math_max3 (inject_Z r / 255) (inject_Z r / 255) (inject_Z r / 255))
                  (Math_min3 (inject_Z r / 255) (inject_Z r / 255) (inject_Z r / 255)) = true).
    { apply Qeq_bool_iff.
      destruct (max3_spec (inject_Z r / 255) (inject_Z r / 255) (inject_Z r / 255))
        as (_ & _ & _ & [M|[M|M]]);
      destruct (min3_spec (inject_Z r / 255) (inject_Z r / 255) (inject_Z r / 255))
        as (_ & _ & _ & [m|[m|m]]); rewrite M, m; reflexivity. }
    rewrite E. reflexivity.
Qed.

Lemma getGenericColorName_of_rgb_witness :
  getGenericColorName (rgbToHSL (128, 128, 128)%Z) <> "Custom"%string /\
  (fst (fst (128, 128, 128)%Z) = snd (fst (128, 128, 128)%Z) ->
   snd (fst (128, 128, 128)%Z) = snd (128, 128, 128)%Z ->
   getGenericColorName (rgbToHSL (128, 128, 128)%Z) = "Neutral"%string).
Proof.
  apply (getGenericColorName_of_rgb (128, 128, 128)%Z). cbn. lia.
Defined.

Section CacheFacts.

Lemma cacheGet_set_same key value cache :
  cacheGet key (cacheSet key value cache) = Some value.
Proof.
  induction cache as [|[k v] rest IH]; cbn [cacheSet cacheGet].
  - rewrite String.eqb_refl. reflexivity.
  - destruct (String.eqb k key) eqn:E; cbn [cacheGet]; rewrite E; [reflexivity|exact IH].
Qed.

Lemma cacheGet_set_other key key' value cache :
  key' <> key -> cacheGet key' (cacheSet key value cache) = cacheGet key' cache.
Proof.
  intros Hne. induction cache as [|[k v] rest IH]; cbn [cacheSet cacheGet].
  - replace (String.eqb key key') with false; [reflexivity|].
    symmetry. apply String.eqb_neq. congruence.
  - destruct (String.eqb k key) eqn:E; cbn [cacheGet].
    + apply String.eqb_eq in E. subst k.
      replace (String.eqb key key') with false; [reflexivity|].
      symmetry. apply String.eqb_neq. congruence.
    + destruct (String.eqb k key'); [reflexivity|exact IH].
Qed.
End CacheFacts.

(** X25.  Once [getCachedColorName] has answered for a colour, a later
    call for the same colour, in any spelling that differs only by the
    leading '#' or by letter case, returns the same name and leaves the
    cache as it is, whatever the naming service would answer then. *)
Theorem getCachedColorName_hit (api api' : string -> option string)
    (hexColor hexColor' : string) (cache : Cache) :
  toLowerCaseLatin1 (stripHash hexColor') = toLowerCaseLatin1 (stripHash hexColor) ->
  getCachedColorName api' hexColor' (snd (getCachedColorName api hexColor cache))
  = getCachedColorName api hexColor cache.
Proof.
  intros Hk. unfold getCachedColorName. rewrite Hk.
  set (key := toLowerCaseLatin1 (stripHash hexColor)).
  destruct (cacheGet key cache) as [name|] eqn:E; cbn [snd].
  - rewrite E. reflexivity.
  - rewrite cacheGet_set_same. reflexivity.
Qed.

Lemma getCachedColorName_hit_witness :
  getCachedColorName (fun _ => None) "3366cc"
    (snd (getCachedColorName (fun _ => Some "Royal Blue"%string) "#3366CC" []))
  = getCachedColorName (fun _ => Some "Royal Blue"%string) "#3366CC" [].
Proof.
  apply (getCachedColorName_hit (fun _ => Some "Royal Blue"%string) (fun _ => None)
           "#3366CC" "3366cc" []).
  reflexivity.
Defined.

(** X26.  A name held by the cache is never changed or dropped by a call
    of [getCachedColorName], for any colour and any answer of the naming
    service. *)
Theorem getCachedColorName_keeps_entries (api : string -> option string)
    (hexColor key name : string) (cache : Cache) :
  cacheGet key cache = Some name ->
  cacheGet key (snd (getCachedColorName api hexColor cache)) = Some name.
Proof.
  intros H. unfold getCachedColorName.
  set (k := toLowerCaseLatin1 (stripHash hexColor)).
  destruct (cacheGet k cache) as [n|] eqn:E; cbn [snd]; [exact H|].
  rewrite cacheGet_set_other; [exact H|]. intros ->. congruence.
Qed.

Lemma getCachedColorName_keeps_entries_witness :
  cacheGet "ffffff" (snd (getCachedColorName (fun _ => None) "#000000"
                            [("ffffff", "White")%string]))
  = Some "White"%string.
Proof.
  apply (getCachedColorName_keeps_entries (fun _ => None) "#000000" "ffffff" "White"
           [("ffffff", "White")%string]).
  reflexivity.
Defined.

Section DarkDomain.
Local Open Scope Q_scope.

Lemma adjustForDarkMode_inDomain c : inDomain c -> inDomain (adjustForDarkMode c).
Proof.
  destruct c as [[h s] l]. unfold inDomain, adjustForDarkMode, hue, saturation, lightness.
  cbn [fst snd]. intros (Hh & Hs & Hl). split; [exact Hh|]. split; [|exact Hl].
  destruct (Q.min_spec (s * 1.1) 100) as [[H ->]|[H ->]]; lra.
Qed.

Lemma findLevel_In lv scale record :
  findLevel lv scale = Some record -> In record scale.
Proof. unfold findLevel. intros H. apply find_some in H. tauto. Qed.

Lemma darkModeHSL_inDomain basis color x :
  (forall record, In record basis -> inDomain (hsl record)) ->
  inDomain (hsl color) ->
  darkModeHSL basis color = Some x -> inDomain x.
Proof.
  intros Hb Hc. unfold darkModeHSL. destruct (level color =? 400)%Z.
  - destruct (findLevel 400 basis) as [base|] eqn:E; [|discriminate].
    cbn [option_map]. intros [= <-]. exact (Hb base (findLevel_In _ _ _ E)).
  - destruct (match levelMap (level color) with
              | Some reversedLevel => findLevel reversedLevel basis
              | None => None
              end) as [reversed|] eqn:E.
    + intros [= <-]. apply adjustForDarkMode_inDomain. apply Hb.
      destruct (levelMap (level color)) as [rl|]; [|discriminate].
      exact (findLevel_In _ _ _ E).
    + intros [= <-]. exact Hc.
Qed.

Lemma mapM_In {A B} (f : A -> option B) xs ys y :
  mapM f xs = Some ys -> In y ys -> exists x, In x xs /\ f x = Some y.
Proof.
  revert ys. induction xs as [|a xs IH]; intros ys H Hy.
  - injection H as <-. contradiction.
  - cbn [mapM] in H. destruct (f a) as [b|] eqn:Fa; [|discriminate].
    destruct (mapM f xs) as [bs|]; [|discriminate]. injection H as <-.
    destruct Hy as [<-|Hy].
    + exists a. split; [left; reflexivity|exact Fa].
    + destruct (IH bs eq_refl Hy) as [x [Hx Hf]]. exists x. split; [right|]; assumption.
Qed.

Lemma generateDarkModeScale_WellFormed lightScale accessible basis out :
  basisScale lightScale accessible = Some basis ->
  (forall record, In record basis -> inDomain (hsl record)) ->
  (forall record, In record lightScale -> inDomain (hsl record)) ->
  generateDarkModeScale lightScale accessible = Some out ->
  forall record, In record out -> WellFormed record.
Proof.
  intros Hb Hbasis Hlight Hout record Hin.
  unfold generateDarkModeScale in Hout. rewrite Hb in Hout.
  destruct (mapM_In _ _ _ _ Hout Hin) as [color [Hc Hf]].
  destruct (darkModeHSL basis color) as [x|] eqn:Hx; [|discriminate].
  cbn [option_map] in Hf. injection Hf as <-.
  apply shadeRecord_WellFormed.
  exact (darkModeHSL_inDomain basis color x Hbasis (Hlight color Hc) Hx).
Qed.

Lemma generateColorScale_inDomain base record :
  inDomain base -> In record (generateColorScale base) -> inDomain (hsl record).
Proof.
  intros Hb Hin. apply generateColorScale_In in Hin. destruct Hin as [lv [_ ->]].
  apply calculateHSL_inDomain. exact Hb.
Qed.

Lemma generateColorScale_WellFormed base record :
  inDomain base -> In record (generateColorScale base) -> WellFormed record.
Proof.
  intros Hb Hin. apply generateColorScale_In in Hin. destruct Hin as [lv [_ ->]].
  apply shadeRecord_WellFormed. apply calculateHSL_inDomain. exact Hb.
Qed.

Lemma computeScales_WellFormed hsl400 scales :
  inDomain hsl400 -> computeScales hsl400 = Some scales ->
  (forall record, In record (lightModeScale scales) -> WellFormed record) /\
  (forall scale record, accessibleScale scales = Some scale -> In record scale ->
     WellFormed record) /\
  (forall record, In record (darkModeScale scales) -> WellFormed record).
Proof.
  intros Hd. unfold computeScales. rewrite findLevel_400_generated. cbv zeta.
  rewrite shadeRecord_accessible.
  set (acc := if negb (passesBoth hsl400) then _ else None).
  assert (Ha : inDomain (findAccessibleColor hsl400)).
  { destruct hsl400 as [[h s] l]. destruct Hd as (Hh & Hs & _).
    exact (proj1 (findAccessibleColor_inDomain h s l Hh Hs)). }
  set (basis := if passesBoth hsl400 then generateColorScale hsl400
                else generateColorScale (findAccessibleColor hsl400)).
  assert (Hb : basisScale (generateColorScale hsl400) acc = Some basis).
  { rewrite (basisScale_of_base _ acc hsl400 (findLevel_400_generated hsl400)).
    unfold basis, acc. destruct (passesBoth hsl400); reflexivity. }
  assert (Hbasis : forall record, In record basis -> inDomain (hsl record)).
  { intros record. unfold basis. destruct (passesBoth hsl400);
      apply generateColorScale_inDomain; assumption. }
  destruct (generateDarkModeScale (generateColorScale hsl400) acc) as [out|] eqn:Hout;
    [|discriminate].
  intros [= <-]. cbn [lightModeScale accessibleScale darkModeScale].
  split; [|split].
  - intros record. apply generateColorScale_WellFormed. exact Hd.
  - intros scale record. unfold acc. destruct (negb (passesBoth hsl400)); [|discriminate].
    intros [= <-]. apply generateColorScale_WellFormed. exact Ha.
  - exact (generateDarkModeScale_WellFormed _ acc basis out Hb Hbasis
             (fun record => generateColorScale_inDomain hsl400 record Hd) Hout).
Qed.
End DarkDomain.

(** X27.  [adjustForDarkMode] keeps the hue and the lightness, never
    lowers the saturation of a colour of the HSL domain, raises it by at
    most a tenth, and stays in the domain. *)
Theorem adjustForDarkMode_boost (c : HSL) :
  inDomain c ->
  inDomain (adjustForDarkMode c) /\
  hue (adjustForDarkMode c) = hue c /\
  lightness (adjustForDarkMode c) = lightness c /\
  (saturation c <= saturation (adjustForDarkMode c) <= saturation c * 1.1)%Q.
Proof.
  intros Hd. split; [exact (adjustForDarkMode_inDomain c Hd)|].
  destruct c as [[h s] l]. unfold inDomain, adjustForDarkMode, hue, saturation, lightness in *.
  cbn [fst snd] in *. destruct Hd as (_ & Hs & _).
  split; [reflexivity|]. split; [reflexivity|].
  destruct (Q.min_spec (s * 1.1) 100) as [[H ->]|[H ->]]; lra.
Qed.

Lemma adjustForDarkMode_boost_witness :
  inDomain (adjustForDarkMode (220, 60, 50)%Q) /\
  hue (adjustForDarkMode (220, 60, 50)%Q) = hue (220, 60, 50)%Q /\
  lightness (adjustForDarkMode (220, 60, 50)%Q) = lightness (220, 60, 50)%Q /\
  (saturation (220, 60, 50)%Q <= saturation (adjustForDarkMode (220, 60, 50)%Q)
   <= saturation (220, 60, 50)%Q * 1.1)%Q.
Proof.
  apply (adjustForDarkMode_boost (220, 60, 50)%Q).
  unfold inDomain, hue, saturation, lightness. cbn [fst snd].
  repeat split; unfold Qle; simpl; lia.
Defined.

Section Pipeline.

Lemma hexToRgb_valid color :
  isValidHex color = true ->
  exists rgb,
    hexToRgb color = (Some (fst (fst rgb)), Some (snd (fst rgb)), Some (snd rgb)) /\
    inGamut rgb.
Proof.
  intros H. apply isValidHex_iff in H. destruct H as [digits [-> [Hall Hlen]]].
  rewrite (hexToRgb_hash digits Hall).
  destruct Hlen as [Hlen|Hlen].
  - destruct digits as [|c0 [|c1 [|c2 [|c3 rest]]]]; try discriminate.
    cbn [allHexDigits] in Hall. rewrite !andb_true_iff in Hall.
    destruct Hall as (A0 & A1 & A2 & _).
    destruct (isHexDigit_value _ A0) as [v0 E0].
    destruct (isHexDigit_value _ A1) as [v1 E1].
    destruct (isHexDigit_value _ A2) as [v2 E2].
    destruct (hexToRgb_three c0 c1 c2 v0 v1 v2 E0 E1 E2) as [_ E].
    exists (17 * v0, 17 * v1, 17 * v2)%Z. split; [exact E|].
    destruct (hexDigit_facts c0 v0 E0) as (_ & _ & _ & _ & _ & _ & R0 & _).
    destruct (hexDigit_facts c1 v1 E1) as (_ & _ & _ & _ & _ & _ & R1 & _).
    destruct (hexDigit_facts c2 v2 E2) as (_ & _ & _ & _ & _ & _ & R2 & _).
    apply andb_true_iff in R0, R1, R2. rewrite Z.leb_le, Z.ltb_lt in R0, R1, R2.
    unfold inGamut. lia.
  - destruct (six_digits digits Hlen Hall)
      as (c1 & c2 & c3 & c4 & c5 & c6 & v1 & v2 & v3 & v4 & v5 & v6 & -> &
          H1 & H2 & H3 & H4 & H5 & H6).
    rewrite (hexToRgb_six _ _ _ _ _ _ _ _ _ _ _ _ H1 H2 H3 H4 H5 H6).
    exists (16 * v1 + v2, 16 * v3 + v4, 16 * v5 + v6)%Z. split; [reflexivity|].
    destruct (hexDigit_facts c1 v1 H1) as (_ & _ & _ & _ & _ & _ & R1 & _).
    destruct (hexDigit_facts c2 v2 H2) as (_ & _ & _ & _ & _ & _ & R2 & _).
    destruct (hexDigit_facts c3 v3 H3) as (_ & _ & _ & _ & _ & _ & R3 & _).
    destruct (hexDigit_facts c4 v4 H4) as (_ & _ & _ & _ & _ & _ & R4 & _).
    destruct (hexDigit_facts c5 v5 H5) as (_ & _ & _ & _ & _ & _ & R5 & _).
    destruct (hexDigit_facts c6 v6 H6) as (_ & _ & _ & _ & _ & _ & R6 & _).
    pose proof (byte_range v1 v2 R1 R2). pose proof (byte_range v3 v4 R3 R4).
    pose proof (byte_range v5 v6 R5 R6). unfold inGamut. lia.
Qed.

Lemma hexToHSL_valid color :
  isValidHex color = true ->
  exists rgb, inGamut rgb /\ hexToHSL color = Some (rgbToHSL rgb).
Proof.
  intros H. destruct (hexToRgb_valid color H) as [[[r g] b] [E G]].
  exists (r, g, b). split; [exact G|]. unfold hexToHSL. rewrite E. reflexivity.
Qed.
End Pipeline.

(** X28.  [hexToHSL] reads every string [isValidHex] accepts as a colour of
    the HSL domain with a hue below 360: it never gives NaN components
    on a valid hex colour. *)
Theorem hexToHSL_valid_in_domain (color : string) :
  isValidHex color = true ->
  exists c, hexToHSL color = Some c /\ inDomain c /\ (hue c < 360)%Q.
Proof.
  intros H. destruct (hexToHSL_valid color H) as [rgb [G E]].
  exists (rgbToHSL rgb). split; [exact E|].
  destruct (rgbToHSL_range rgb G) as (Hh & Hs & Hl).
  unfold inDomain. repeat split; try tauto; apply Qlt_le_weak; tauto.
Qed.

Lemma hexToHSL_valid_in_domain_witness :
  exists c, hexToHSL "#3366CC" = Some c /\ inDomain c /\ (hue c < 360)%Q.
Proof.
  apply (hexToHSL_valid_in_domain "#3366CC"). reflexivity.
Defined.

(** X29.  Whenever [handleColorInput] accepts the text of the input field,
    the colour it passes on converts to a base colour of the HSL domain,
    [updateColorScales] computes the scales without a throw, and every
    record of the light-mode scale, of the accessible scale when there is
    one, and of the dark-mode scale has fields that agree, with a valid
    hex string. *)
Theorem accepted_input_scales (value : string) :
  acceptsInput value = true ->
  exists hsl400 scales,
    hexToHSL (inputColor value) = Some hsl400 /\ inDomain hsl400 /\
    computeScales hsl400 = Some scales /\
    (forall record, In record (lightModeScale scales) -> WellFormed record) /\
    (forall scale record, accessibleScale scales = Some scale -> In record scale ->
       WellFormed record) /\
    (forall record, In record (darkModeScale scales) -> WellFormed record).
Proof.
  unfold acceptsInput. intros H.
  destruct (hexToHSL_valid _ H) as [rgb [G E]].
  assert (Hd : inDomain (rgbToHSL rgb)).
  { destruct (rgbToHSL_range rgb G) as (Hh & Hs & Hl).
    unfold inDomain. repeat split; try tauto; apply Qlt_le_weak; tauto. }
  destruct (computeScales (rgbToHSL rgb)) as [scales|] eqn:Hc.
  - exists (rgbToHSL rgb), scales. split; [exact E|]. split; [exact Hd|].
    split; [exact Hc|]. exact (computeScales_WellFormed _ scales Hd Hc).
  - exfalso. revert Hc. unfold computeScales. rewrite findLevel_400_generated. cbv zeta.
    rewrite shadeRecord_accessible.
    set (acc := if negb (passesBoth (rgbToHSL rgb)) then _ else None).
    destruct (generateDarkModeScale_total (generateColorScale (rgbToHSL rgb)) acc
                (if passesBoth (rgbToHSL rgb) then generateColorScale (rgbToHSL rgb)
                 else generateColorScale (findAccessibleColor (rgbToHSL rgb)))
                (shadeRecord 400 (if passesBoth (rgbToHSL rgb) then rgbToHSL rgb
                                  else findAccessibleColor (rgbToHSL rgb))))
      as [out Hout].
    + rewrite (basisScale_of_base _ acc _ (findLevel_400_generated _)).
      unfold acc. destruct (passesBoth (rgbToHSL rgb)); reflexivity.
    + destruct (passesBoth (rgbToHSL rgb)); apply findLevel_400_generated.
    + rewrite Hout. discriminate.
Qed.

Lemma accepted_input_scales_witness :
  exists hsl400 scales,
    hexToHSL (inputColor " 3366cc ") = Some hsl400 /\ inDomain hsl400 /\
    computeScales hsl400 = Some scales /\
    (forall record, In record (lightModeScale scales) -> WellFormed record) /\
    (forall scale record, accessibleScale scales = Some scale -> In record scale ->
       WellFormed record) /\
    (forall record, In record (darkModeScale scales) -> WellFormed record).
Proof.
  apply (accepted_input_scales " 3366cc "). reflexivity.
Defined.

(** X30.  When the naming service gives no name for a colour written as 3
    or 6 hex digits, with or without the '#', [getColorName] answers with
    the generic name of the colour, which is one of the named buckets or
    Neutral, never Custom. *)
Theorem getColorName_fallback (api : string -> option string) (hexColor : string) :
  api (stripHash hexColor) = None ->
  isValidHex (String "#" (stripHash hexColor)) = true ->
  exists rgb,
    inGamut rgb /\
    hexToHSL (String "#" (stripHash hexColor)) = Some (rgbToHSL rgb) /\
    getColorName api hexColor = getGenericColorName (rgbToHSL rgb) /\
    getColorName api hexColor <> "Custom"%string.
Proof.
  intros Hapi Hv. destruct (hexToHSL_valid _ Hv) as [rgb [G E]].
  exists rgb. split; [exact G|]. split; [exact E|].
  assert (N : getColorName api hexColor = getGenericColorName (rgbToHSL rgb)).
  { unfold getColorName. cbv zeta. rewrite Hapi. unfold genericNameOfHex. rewrite E.
    reflexivity. }
  split; [exact N|]. rewrite N.
  pose proof (rgbToHSL_range rgb G) as (Hh & Hs & Hl).
  revert Hh Hs Hl. unfold hue, saturation, lightness.
  destruct (rgbToHSL rgb) as [[h s] l]. cbn [fst snd]. intros Hh Hs Hl C.
  apply getGenericColorName_custom in C. lra.
Qed.

Lemma getColorName_fallback_witness :
  exists rgb,
    inGamut rgb /\
    hexToHSL (String "#" (stripHash "#3366CC")) = Some (rgbToHSL rgb) /\
    getColorName (fun _ => None) "#3366CC" = getGenericColorName (rgbToHSL rgb) /\
    getColorName (fun _ => None) "#3366CC" <> "Custom"%string.
Proof.
  apply (getColorName_fallback (fun _ => None) "#3366CC"); reflexivity.
Defined.
